(** * PersonalData vault: key hierarchy and envelope encryption

    A shallow embedding of the backend's cryptographic core
    ([backend/src/crypto]: [encryption.ts], [keyManager.ts],
    [keyRotation.ts], [recovery.ts]) and the properties its specification
    states about it.

    Byte buffers are lists of integers (each byte a [Z] in [0, 256));
    the strings that are hashed (passwords, codes, tokens) are lists of
    UTF-16 code units, read as UTF-8 bytes where the Argon2 binding
    reads them; thrown JavaScript exceptions are the [Throw] branch of
    [result]; calls that draw from the operating system's random source
    thread an explicit entropy tape.  The AES-256-GCM primitive the
    source obtains from the runtime's [crypto] module is written out
    after FIPS 197 and NIST SP 800-38D, and checked against the
    published test vectors.
    The block multiplication of GHASH is shown to be multiplication of
    polynomials over GF(2) modulo the field polynomial of GCM; the
    detection of single-bit changes of a ciphertext rests on that.

    The callers of the core in [backend/src/auth] ([auth.ts], [mfa.ts],
    [sessions.ts]), the device fingerprint of [deviceKeys.ts] with
    SHA-256 written out after FIPS 180-4, and the wire format of the
    frontend ([frontend/src/lib/crypto/vaultCrypto.ts]) follow the
    core. *)

From Stdlib Require Import ZArith List Lia Bool Ascii.
From Stdlib Require String.
Import ListNotations String.StringSyntax.
Delimit Scope string_scope with string.
Bind Scope string_scope with String.string.
Open Scope Z_scope.

Abbreviation string := String.string.

(** ** Byte buffers *)

Definition Buffer := list Z.

Definition is_byte (b : Z) : Prop := 0 <= b < 256.

Definition is_byteb (b : Z) : bool := (0 <=? b) && (b <? 256).

(** Big-endian reading of a buffer as an unsigned integer. *)
Definition be_Z (bs : Buffer) : Z :=
  fold_left (fun acc b => acc * 256 + b) bs 0.

(** The [n]-byte big-endian encoding of [v] (its low [8n] bits). *)
Definition be_bytes (n : nat) (v : Z) : Buffer :=
  map (fun i => Z.land (Z.shiftr v (8 * Z.of_nat (n - 1 - i))) 255) (seq 0 n).

Fixpoint Buffer_eqb (a b : Buffer) : bool :=
  match a, b with
  | [], [] => true
  | x :: a', y :: b' => (x =? y) && Buffer_eqb a' b'
  | _, _ => false
  end.

(** ** AES-256 (FIPS 197), encryption direction only *)

Module AES.

Definition sbox_table : list Z :=
  [0x63; 0x7c; 0x77; 0x7b; 0xf2; 0x6b; 0x6f; 0xc5; 0x30; 0x01; 0x67; 0x2b; 0xfe; 0xd7; 0xab; 0x76;
   0xca; 0x82; 0xc9; 0x7d; 0xfa; 0x59; 0x47; 0xf0; 0xad; 0xd4; 0xa2; 0xaf; 0x9c; 0xa4; 0x72; 0xc0;
   0xb7; 0xfd; 0x93; 0x26; 0x36; 0x3f; 0xf7; 0xcc; 0x34; 0xa5; 0xe5; 0xf1; 0x71; 0xd8; 0x31; 0x15;
   0x04; 0xc7; 0x23; 0xc3; 0x18; 0x96; 0x05; 0x9a; 0x07; 0x12; 0x80; 0xe2; 0xeb; 0x27; 0xb2; 0x75;
   0x09; 0x83; 0x2c; 0x1a; 0x1b; 0x6e; 0x5a; 0xa0; 0x52; 0x3b; 0xd6; 0xb3; 0x29; 0xe3; 0x2f; 0x84;
   0x53; 0xd1; 0x00; 0xed; 0x20; 0xfc; 0xb1; 0x5b; 0x6a; 0xcb; 0xbe; 0x39; 0x4a; 0x4c; 0x58; 0xcf;
   0xd0; 0xef; 0xaa; 0xfb; 0x43; 0x4d; 0x33; 0x85; 0x45; 0xf9; 0x02; 0x7f; 0x50; 0x3c; 0x9f; 0xa8;
   0x51; 0xa3; 0x40; 0x8f; 0x92; 0x9d; 0x38; 0xf5; 0xbc; 0xb6; 0xda; 0x21; 0x10; 0xff; 0xf3; 0xd2;
   0xcd; 0x0c; 0x13; 0xec; 0x5f; 0x97; 0x44; 0x17; 0xc4; 0xa7; 0x7e; 0x3d; 0x64; 0x5d; 0x19; 0x73;
   0x60; 0x81; 0x4f; 0xdc; 0x22; 0x2a; 0x90; 0x88; 0x46; 0xee; 0xb8; 0x14; 0xde; 0x5e; 0x0b; 0xdb;
   0xe0; 0x32; 0x3a; 0x0a; 0x49; 0x06; 0x24; 0x5c; 0xc2; 0xd3; 0xac; 0x62; 0x91; 0x95; 0xe4; 0x79;
   0xe7; 0xc8; 0x37; 0x6d; 0x8d; 0xd5; 0x4e; 0xa9; 0x6c; 0x56; 0xf4; 0xea; 0x65; 0x7a; 0xae; 0x08;
   0xba; 0x78; 0x25; 0x2e; 0x1c; 0xa6; 0xb4; 0xc6; 0xe8; 0xdd; 0x74; 0x1f; 0x4b; 0xbd; 0x8b; 0x8a;
   0x70; 0x3e; 0xb5; 0x66; 0x48; 0x03; 0xf6; 0x0e; 0x61; 0x35; 0x57; 0xb9; 0x86; 0xc1; 0x1d; 0x9e;
   0xe1; 0xf8; 0x98; 0x11; 0x69; 0xd9; 0x8e; 0x94; 0x9b; 0x1e; 0x87; 0xe9; 0xce; 0x55; 0x28; 0xdf;
   0x8c; 0xa1; 0x89; 0x0d; 0xbf; 0xe6; 0x42; 0x68; 0x41; 0x99; 0x2d; 0x0f; 0xb0; 0x54; 0xbb; 0x16].

Definition sub_byte (b : Z) : Z := nth (Z.to_nat b) sbox_table 0.

(** Multiplication by x in GF(2^8) modulo x^8 + x^4 + x^3 + x + 1. *)
Definition xtime (a : Z) : Z :=
  Z.land (Z.lxor (Z.shiftl a 1) (if Z.testbit a 7 then 0x1b else 0)) 0xff.

Definition xor_at (s t : Buffer) (i : nat) : Z := Z.lxor (nth i s 0) (nth i t 0).

Definition xor_words (s t : Buffer) : Buffer := map (xor_at s t) (seq 0 4).

Definition word_at (w : Buffer) (i : nat) : Buffer := firstn 4 (skipn (4 * i) w).

Definition rot_word (w : Buffer) : Buffer :=
  match w with
  | a :: rest => rest ++ [a]
  | [] => []
  end.

Definition sub_word (w : Buffer) : Buffer := map sub_byte w.

Definition rcon (i : nat) : Z := nth i [0; 0x01; 0x02; 0x04; 0x08; 0x10; 0x20; 0x40] 0.

(** One step of the key schedule for Nk = 8: word [i] from words [i-1]
    and [i-8]. *)
Definition next_word (w : Buffer) (i : nat) : Buffer :=
  let temp := word_at w (i - 1) in
  let temp :=
    if (i mod 8 =? 0)%nat then xor_words (sub_word (rot_word temp)) [rcon (i / 8); 0; 0; 0]
    else if (i mod 8 =? 4)%nat then sub_word temp
    else temp in
  xor_words (word_at w (i - 8)) temp.

Fixpoint expand_from (n i : nat) (w : Buffer) : Buffer :=
  match n with
  | O => w
  | S n' => expand_from n' (S i) (w ++ next_word w i)
  end.

(** The 60 words (240 bytes) of the AES-256 key schedule. *)
Definition key_expansion (key : Buffer) : Buffer := expand_from 52 8 key.

Definition round_key (w : Buffer) (r : nat) : Buffer := firstn 16 (skipn (16 * r) w).

Definition add_round_key (s rk : Buffer) : Buffer := map (xor_at s rk) (seq 0 16).

Definition sub_bytes (s : Buffer) : Buffer := map sub_byte s.

(** The state is held column by column: byte [r + 4c] is row [r] of
    column [c]. *)
Definition shift_rows (s : Buffer) : Buffer :=
  map (fun i => nth i s 0) [0; 5; 10; 15; 4; 9; 14; 3; 8; 13; 2; 7; 12; 1; 6; 11]%nat.

Definition mix_column (a0 a1 a2 a3 : Z) : Buffer :=
  let x3 a := Z.lxor (xtime a) a in
  [ Z.lxor (Z.lxor (xtime a0) (x3 a1)) (Z.lxor a2 a3);
    Z.lxor (Z.lxor a0 (xtime a1)) (Z.lxor (x3 a2) a3);
    Z.lxor (Z.lxor a0 a1) (Z.lxor (xtime a2) (x3 a3));
    Z.lxor (Z.lxor (x3 a0) a1) (Z.lxor a2 (xtime a3)) ].

Definition mix_columns (s : Buffer) : Buffer :=
  flat_map
    (fun c => mix_column (nth (4 * c) s 0) (nth (4 * c + 1) s 0)
                         (nth (4 * c + 2) s 0) (nth (4 * c + 3) s 0))
    [0; 1; 2; 3]%nat.

Fixpoint rounds (n r : nat) (w s : Buffer) : Buffer :=
  match n with
  | O => s
  | S n' =>
      rounds n' (S r) w
        (add_round_key (mix_columns (shift_rows (sub_bytes s))) (round_key w r))
  end.

(** Cipher(in, Nr = 14, w). *)
Definition encrypt_block (key blk : Buffer) : Buffer :=
  let w := key_expansion key in
  let s := add_round_key blk (round_key w 0) in
  let s := rounds 13 1 w s in
  add_round_key (shift_rows (sub_bytes s)) (round_key w 14).

End AES.

(** ** Galois/Counter Mode (NIST SP 800-38D) over AES-256 *)

Module GCM.

(** R = 11100001 || 0^120. *)
Definition R : Z := Z.shiftl 0xe1 120.

(** Multiplication of two blocks in GF(2^128); bit 0 of the standard is
    the most significant bit of the integer. *)
Fixpoint gf_mul_loop (n : nat) (i : Z) (x v z : Z) : Z :=
  match n with
  | O => z
  | S n' =>
      let z' := if Z.testbit x (127 - i) then Z.lxor z v else z in
      let v' := if Z.testbit v 0 then Z.lxor (Z.shiftr v 1) R else Z.shiftr v 1 in
      gf_mul_loop n' (i + 1) x v' z'
  end.

Definition gf_mul (x y : Z) : Z := gf_mul_loop 128 0 x y 0.

(** The sixteen-byte blocks of [data]; a final partial block is padded
    with zeros.  [buf] holds the bytes of the block being filled. *)
Fixpoint blocks_from (buf data : Buffer) : list Buffer :=
  match data with
  | [] =>
      match buf with
      | [] => []
      | _ => [buf ++ repeat 0 (16 - length buf)]
      end
  | b :: rest =>
      let buf' := buf ++ [b] in
      if (length buf' =? 16)%nat
      then buf' :: blocks_from [] rest
      else blocks_from buf' rest
  end.

Definition blocks (data : Buffer) : list Buffer := blocks_from [] data.

(** Y_i = (Y_{i-1} xor X_i) * H. *)
Definition ghash_step (h y : Z) (x : Buffer) : Z := gf_mul (Z.lxor y (be_Z x)) h.

Definition bit_length (data : Buffer) : Z := 8 * Z.of_nat (length data).

(** GHASH_H (A || 0* || C || 0* || [len A]_64 || [len C]_64). *)
Definition ghash (h : Z) (aad c : Buffer) : Z :=
  fold_left (ghash_step h)
    (blocks aad ++ blocks c ++ [be_bytes 8 (bit_length aad) ++ be_bytes 8 (bit_length c)])
    0.

Definition inc32 (cb : Buffer) : Buffer :=
  firstn 12 cb ++ be_bytes 4 ((be_Z (skipn 12 cb) + 1) mod 2 ^ 32).

(** GCTR: the data is XORed with the key stream E(cb), E(inc32 cb), ...;
    [ks] is what is left of the current key-stream block. *)
Fixpoint gctr (key cb ks data : Buffer) : Buffer :=
  match data with
  | [] => []
  | b :: rest =>
      match ks with
      | k :: ks' => Z.lxor b k :: gctr key cb ks' rest
      | [] =>
          let blk := AES.encrypt_block key cb in
          Z.lxor b (hd 0 blk) :: gctr key (inc32 cb) (tl blk) rest
      end
  end.

Definition hash_subkey (key : Buffer) : Z :=
  be_Z (AES.encrypt_block key (repeat 0 16%nat)).

(** The pre-counter block J0. *)
Definition j0 (key iv : Buffer) : Buffer :=
  if (length iv =? 12)%nat then iv ++ [0; 0; 0; 1]
  else be_bytes 16 (ghash (hash_subkey key) [] iv).

Definition keystream_xor (key iv data : Buffer) : Buffer :=
  gctr key (inc32 (j0 key iv)) [] data.

(** The full 128-bit tag over ciphertext [c] (no associated data). *)
Definition tag (key iv c : Buffer) : Buffer :=
  gctr key (j0 key iv) [] (be_bytes 16 (ghash (hash_subkey key) [] c)).

(** Authenticated encryption: ciphertext and tag. *)
Definition seal (key iv p : Buffer) : Buffer * Buffer :=
  let c := keystream_xor key iv p in
  (c, tag key iv c).

(** Authenticated decryption against a tag of [length t] bytes: the
    plaintext, or nothing when the tag does not verify. *)
Definition open (key iv t c : Buffer) : option Buffer :=
  if Buffer_eqb (firstn (length t) (tag key iv c)) t
  then Some (keystream_xor key iv c)
  else None.

End GCM.

Definition hex_nibble (c : ascii) : Z :=
  let n := Z.of_nat (nat_of_ascii c) in
  if (48 <=? n) && (n <=? 57) then n - 48
  else if (97 <=? n) && (n <=? 102) then n - 87
  else 0.

(** Reads a lower-case hexadecimal string as a buffer. *)
Fixpoint hex (s : string) : Buffer :=
  match s with
  | String.String a (String.String b rest) =>
      (16 * hex_nibble a + hex_nibble b) :: hex rest
  | _ => []
  end.

(** ** Exceptions, results and the random source *)

(** What a call can throw.  [Error m] is the source's own
    [throw new Error(m)]; the other constructors are the errors the
    runtime's [crypto] module, the Argon2 binding and the engine raise
    themselves. *)
Inductive exn : Type :=
  | Error (message : string)
  | ERR_CRYPTO_INVALID_KEYLEN
  | ERR_CRYPTO_INVALID_IV
  | ERR_CRYPTO_INVALID_AUTH_TAG
  | ERR_OUT_OF_RANGE
  | Argon2Error (message : string)
  | RangeError.

Inductive result (A : Type) : Type :=
  | Ok (a : A)
  | Throw (e : exn).

Arguments Ok {A} a.
Arguments Throw {A} e.

Definition result_bind {A B : Type} (r : result A) (k : A -> result B) : result B :=
  match r with
  | Ok a => k a
  | Throw e => Throw e
  end.

(** The operating system's random source: an unbounded tape of raw
    draws, consumed from the front. *)
Definition Entropy := nat -> Z.

Definition advance (n : nat) (t : Entropy) : Entropy := fun i => t (n + i)%nat.

(** A computation that may draw from the random source and may throw. *)
Definition Rand (A : Type) : Type := Entropy -> result A * Entropy.

Definition ret {A : Type} (a : A) : Rand A := fun t => (Ok a, t).

Definition throw {A : Type} (e : exn) : Rand A := fun t => (Throw e, t).

Definition lift {A : Type} (r : result A) : Rand A := fun t => (r, t).

Definition bind {A B : Type} (m : Rand A) (k : A -> Rand B) : Rand B :=
  fun t =>
    match m t with
    | (Ok a, t') => k a t'
    | (Throw e, t') => (Throw e, t')
    end.

Declare Scope rand_scope.
Delimit Scope rand_scope with rand.
Notation "x <- m ;; k" := (bind m (fun x => k))
  (at level 61, m at next level, right associativity) : rand_scope.
Notation "x <-- r ;; k" := (result_bind r (fun x => k))
  (at level 61, r at next level, right associativity) : rand_scope.
Open Scope rand_scope.

(** The next [n] bytes of the tape. *)
Definition drawn (n : nat) (t : Entropy) : Buffer := map (fun i => t i mod 256) (seq 0 n).

(** [crypto.randomBytes(n)]. *)
Definition randomBytes (n : nat) : Rand Buffer :=
  fun t => (Ok (drawn n t), advance n t).

(** [crypto.randomInt(min, max)]: an integer in [min, max), which must
    not be empty. *)
Definition randomInt (min max : Z) : Rand Z :=
  if max <=? min then throw ERR_OUT_OF_RANGE
  else fun t => (Ok (min + t 0%nat mod (max - min)), advance 1 t).

(** ** The runtime's AES-256-GCM cipher objects *)

Record Cipher : Type := mkCipher { cipher_key : Buffer; cipher_iv : Buffer }.

(** The longest IV the GCM implementation of the runtime takes: 1024
    bits. *)
Definition GCM_IV_MAX_SIZE : nat := 128.

(** [crypto.createCipheriv('aes-256-gcm', key, iv)] and
    [crypto.createDecipheriv].  The runtime looks at the IV first: it
    must not be empty, and the cipher refuses one of more than
    [GCM_IV_MAX_SIZE] bytes; then the key must be 32 bytes. *)
Definition createCipheriv (key iv : Buffer) : result Cipher :=
  if (length iv =? 0)%nat then Throw ERR_CRYPTO_INVALID_IV
  else if (GCM_IV_MAX_SIZE <? length iv)%nat then Throw ERR_CRYPTO_INVALID_IV
  else if negb (length key =? 32)%nat then Throw ERR_CRYPTO_INVALID_KEYLEN
  else Ok (mkCipher key iv).

Definition createDecipheriv (key iv : Buffer) : result Cipher := createCipheriv key iv.

(** [Buffer.concat([cipher.update(p), cipher.final()])] together with
    [cipher.getAuthTag()]. *)
Definition cipher_run (c : Cipher) (p : Buffer) : Buffer * Buffer :=
  GCM.seal (cipher_key c) (cipher_iv c) p.

Record Decipher : Type := mkDecipher { decipher_cipher : Cipher; decipher_tag : Buffer }.

(** Tag lengths [setAuthTag] accepts for GCM: 4, 8 and 12 to 16 bytes. *)
Definition valid_gcm_tag_length (n : nat) : bool :=
  ((n =? 4) || (n =? 8) || ((12 <=? n) && (n <=? 16)))%nat.

(** [decipher.setAuthTag(tag)]. *)
Definition setAuthTag (c : Cipher) (t : Buffer) : result Decipher :=
  if valid_gcm_tag_length (length t) then Ok (mkDecipher c t)
  else Throw ERR_CRYPTO_INVALID_AUTH_TAG.

(** [Buffer.concat([decipher.update(c), decipher.final()])]: [final]
    throws when the tag does not verify, which is [None] here. *)
Definition decipher_run (d : Decipher) (c : Buffer) : option Buffer :=
  GCM.open (cipher_key (decipher_cipher d)) (cipher_iv (decipher_cipher d))
           (decipher_tag d) c.

(** ** encryption.ts *)

Definition AES_KEY_SIZE : nat := 32.
Definition AES_NONCE_SIZE : nat := 12.
Definition AES_TAG_SIZE : nat := 16.

Record EncryptedData : Type := mkEncryptedData {
  ciphertext : Buffer;
  nonce : Buffer;
  tag : Buffer
}.

Definition key_length_error : exn := Error "Key must be 32 bytes (256 bits)".

Definition decryption_failed : exn := Error "Decryption failed: invalid ciphertext or tag".

Definition invalid_format : exn := Error "Invalid encrypted data format".

Definition encrypt (plaintext key : Buffer) : Rand EncryptedData :=
  if negb (length key =? AES_KEY_SIZE)%nat then throw key_length_error
  else
    nonce <- randomBytes AES_NONCE_SIZE ;;
    cipher <- lift (createCipheriv key nonce) ;;
    let (ciphertext, tag) := cipher_run cipher plaintext in
    ret (mkEncryptedData ciphertext nonce tag).

Definition decrypt (encrypted : EncryptedData) (key : Buffer) : result Buffer :=
  if negb (length key =? AES_KEY_SIZE)%nat then Throw key_length_error
  else
    decipher <-- createDecipheriv key (nonce encrypted) ;;
    decipher <-- setAuthTag decipher (tag encrypted) ;;
    match decipher_run decipher (ciphertext encrypted) with
    | Some plaintext => Ok plaintext
    | None => Throw decryption_failed
    end.

Definition serializeEncrypted (encrypted : EncryptedData) : Buffer :=
  nonce encrypted ++ ciphertext encrypted ++ tag encrypted.

(** [buf.subarray(start, end)]: negative indices count from the end, and
    both are clamped to the buffer. *)
Definition clamp_index (len i : Z) : Z :=
  if i <? 0 then Z.max (len + i) 0 else Z.min i len.

Definition subarray (data : Buffer) (i j : Z) : Buffer :=
  let len := Z.of_nat (length data) in
  let s := clamp_index len i in
  let e := clamp_index len j in
  firstn (Z.to_nat (e - s)) (skipn (Z.to_nat s) data).

Definition deserializeEncrypted (data : Buffer) : result EncryptedData :=
  let len := Z.of_nat (length data) in
  if len <? Z.of_nat AES_NONCE_SIZE + Z.of_nat AES_TAG_SIZE then Throw invalid_format
  else
    let nonce := subarray data 0 (Z.of_nat AES_NONCE_SIZE) in
    let tag := subarray data (len - Z.of_nat AES_TAG_SIZE) len in
    let ciphertext := subarray data (Z.of_nat AES_NONCE_SIZE) (len - Z.of_nat AES_TAG_SIZE) in
    Ok (mkEncryptedData ciphertext nonce tag).

Definition generateDEK : Rand Buffer := randomBytes AES_KEY_SIZE.

(** ** Strings of the language *)

(** A string value: its UTF-16 code units, each in [0, 65536).  This is
    how a password, a recovery code or a token reaches the functions
    that hash it. *)
Definition JSString := list Z.

(** The string a literal of characters with codes under 256 denotes. *)
Fixpoint js (s : string) : JSString :=
  match s with
  | String.EmptyString => []
  | String.String c rest => Z.of_nat (nat_of_ascii c) :: js rest
  end.

Definition is_high_surrogate (u : Z) : bool := (0xD800 <=? u) && (u <=? 0xDBFF).

Definition is_low_surrogate (u : Z) : bool := (0xDC00 <=? u) && (u <=? 0xDFFF).

(** The UTF-8 bytes of the code point [cp]. *)
Definition utf8_code_point (cp : Z) : Buffer :=
  if cp <? 0x80 then [cp]
  else if cp <? 0x800 then [0xC0 + cp / 64; 0x80 + cp mod 64]
  else if cp <? 0x10000 then [0xE0 + cp / 4096; 0x80 + cp / 64 mod 64; 0x80 + cp mod 64]
  else [0xF0 + cp / 262144; 0x80 + cp / 4096 mod 64; 0x80 + cp / 64 mod 64; 0x80 + cp mod 64].

(** [Buffer.from(s)]: the UTF-8 bytes of the string.  A high surrogate
    followed by a low one is one code point; a surrogate without its
    partner is written as the replacement character U+FFFD. *)
Fixpoint Buffer_from (s : JSString) : Buffer :=
  match s with
  | [] => []
  | u :: rest =>
      if is_high_surrogate u then
        match rest with
        | v :: rest' =>
            if is_low_surrogate v
            then utf8_code_point (0x10000 + (u - 0xD800) * 1024 + (v - 0xDC00))
                   ++ Buffer_from rest'
            else utf8_code_point 0xFFFD ++ Buffer_from rest
        | [] => utf8_code_point 0xFFFD
        end
      else if is_low_surrogate u then utf8_code_point 0xFFFD ++ Buffer_from rest
      else utf8_code_point u ++ Buffer_from rest
  end.

(** ** The Argon2 binding *)

(** An encoded digest, as it is stored.  [PHC] is the string
    [argon2.hash] returns without [raw] for Argon2id,
    [$argon2id$v=19$m=..,t=..,p=..$salt$hash], by its parameters
    (unsigned 32-bit numbers), salt and hash.  [Foreign] is a
    well-formed PHC string of an algorithm that is no Argon2 variant.
    [Malformed] is a string the decoder of PHC strings refuses, or one
    without parameters, salt or hash.  Digests of the variants Argon2i
    and Argon2d, of version 16 or with associated data, which no
    function of this code base produces, have no representation. *)
Inductive EncodedHash : Type :=
  | PHC (memoryCost timeCost parallelism : Z) (salt hash : Buffer)
  | Foreign (s : string)
  | Malformed (s : string).

(** The limits of the reference implementation of Argon2. *)
Definition ARGON2_MIN_OUTLEN : nat := 4.
Definition ARGON2_MIN_SALT_LENGTH : nat := 8.
Definition ARGON2_MIN_MEMORY : Z := 8.
Definition ARGON2_MIN_TIME : Z := 1.
Definition ARGON2_MIN_LANES : Z := 1.
Definition ARGON2_MAX_LANES : Z := 0xFFFFFF.

(** The checks the reference implementation makes before it hashes
    ([validate_inputs]), in its order: the message of the first check
    that fails, if one does.  The product with the lanes is taken in
    32-bit arithmetic. *)
Definition validate_inputs (memoryCost timeCost parallelism : Z) (hashLength : nat)
    (salt : Buffer) : option string :=
  if (hashLength <? ARGON2_MIN_OUTLEN)%nat then Some "Output is too short"%string
  else if (length salt <? ARGON2_MIN_SALT_LENGTH)%nat then Some "Salt is too short"%string
  else if memoryCost <? ARGON2_MIN_MEMORY then Some "Memory cost is too small"%string
  else if memoryCost <? (8 * parallelism) mod 2 ^ 32 then Some "Memory cost is too small"%string
  else if timeCost <? ARGON2_MIN_TIME then Some "Time cost is too small"%string
  else if parallelism <? ARGON2_MIN_LANES then Some "Too few lanes"%string
  else if ARGON2_MAX_LANES <? parallelism then Some "Too many lanes"%string
  else None.

(** [KEKParams] and [DEK] of keyManager.ts. *)
Module KEKParams.
Record t : Type := mk { key : Buffer; salt : Buffer }.
End KEKParams.

Module DEK.
Record t : Type := mk { key : Buffer; wrapped : EncryptedData }.
End DEK.

Section Argon2.

(** Argon2id itself (RFC 9106, version 19), by memory cost, time cost,
    parallelism, output length, salt and the bytes of the password.  The
    function is used as a black box. *)
Variable argon2id : Z -> Z -> Z -> nat -> Buffer -> Buffer -> Buffer.

(** [argon2.hash(password, {type: argon2id, ..., salt, raw: true})].
    The binding reads the password with [Buffer.from] and hands bytes
    and options to the reference implementation, which checks them and
    hashes; a failed check rejects the call with the message of the
    check. *)
Definition argon2_hash_raw (password : JSString) (memoryCost timeCost parallelism : Z)
    (hashLength : nat) (salt : Buffer) : result Buffer :=
  match validate_inputs memoryCost timeCost parallelism hashLength salt with
  | Some message => Throw (Argon2Error message)
  | None => Ok (argon2id memoryCost timeCost parallelism hashLength salt (Buffer_from password))
  end.

(** [argon2.hash(password, {type: argon2id, ...})]: the binding draws a
    16-byte salt and encodes a 32-byte hash. *)
Definition argon2_hash (password : JSString) (memoryCost timeCost parallelism : Z)
    : Rand EncodedHash :=
  salt <- randomBytes 16 ;;
  hash <- lift (argon2_hash_raw password memoryCost timeCost parallelism 32 salt) ;;
  ret (PHC memoryCost timeCost parallelism salt hash).

(** [argon2.verify(digest, password)].  On an Argon2id digest it hashes
    [password] under the digest's own parameters and salt, to the length
    of the digest's hash, and resolves to whether the two hashes are
    equal; it rejects when the reference implementation refuses the
    parameters.  On a digest of another algorithm it resolves to
    [false].  It rejects when the digest cannot be decoded. *)
Definition argon2_verify (digest : EncodedHash) (password : JSString) : result bool :=
  match digest with
  | PHC memoryCost timeCost parallelism salt hash =>
      h <-- argon2_hash_raw password memoryCost timeCost parallelism (length hash) salt ;;
      Ok (Buffer_eqb h hash)
  | Foreign _ => Ok false
  | Malformed _ => Throw (Argon2Error "Invalid digest")
  end.

(** ** keyManager.ts *)

Definition ARGON2_MEMORY : Z := 65536.
Definition ARGON2_TIME_COST : Z := 3.
Definition ARGON2_PARALLELISM : Z := 4.
Definition ARGON2_KEY_LENGTH : nat := 32.
Definition SALT_SIZE : nat := 16.

Definition deriveKEK (password : JSString) (salt : option Buffer) : Rand KEKParams.t :=
  saltBuffer <- match salt with
                | Some s => ret s
                | None => randomBytes SALT_SIZE
                end ;;
  hash <- lift (argon2_hash_raw password ARGON2_MEMORY ARGON2_TIME_COST
                  ARGON2_PARALLELISM ARGON2_KEY_LENGTH saltBuffer) ;;
  ret (KEKParams.mk hash saltBuffer).

Definition wrapDEK (dek kek : Buffer) : Rand EncryptedData := encrypt dek kek.

Definition unwrapDEK (wrappedDEK : EncryptedData) (kek : Buffer) : result Buffer :=
  decrypt wrappedDEK kek.

Definition generateWrappedDEK (kek : Buffer) : Rand DEK.t :=
  dek <- generateDEK ;;
  wrapped <- wrapDEK dek kek ;;
  ret (DEK.mk dek wrapped).

(** The body of [rotateKEK]'s [for ... of] loop, with the array it
    pushes to. *)
Fixpoint rotateKEK_loop (oldKEK newKEK : Buffer) (wrappedDEKs reWrappedDEKs : list EncryptedData)
    : Rand (list EncryptedData) :=
  match wrappedDEKs with
  | [] => ret reWrappedDEKs
  | wrappedDEK :: rest =>
      dek <- lift (unwrapDEK wrappedDEK oldKEK) ;;
      newWrapped <- wrapDEK dek newKEK ;;
      rotateKEK_loop oldKEK newKEK rest (reWrappedDEKs ++ [newWrapped])
  end.

Definition rotateKEK (oldKEK newKEK : Buffer) (wrappedDEKs : list EncryptedData)
    : Rand (list EncryptedData) :=
  rotateKEK_loop oldKEK newKEK wrappedDEKs [].

Definition verifyKEK (kek : Buffer) (testWrappedDEK : EncryptedData) : bool :=
  match unwrapDEK testWrappedDEK kek with
  | Ok _ => true
  | Throw _ => false
  end.

(** ** keyRotation.ts *)

(** [array.map(f)] for a callback that may throw or draw randomness:
    elements are visited in order and the first throw ends the call. *)
Fixpoint array_map {A B : Type} (f : A -> Rand B) (l : list A) : Rand (list B) :=
  match l with
  | [] => ret []
  | a :: rest =>
      b <- f a ;;
      bs <- array_map f rest ;;
      ret (b :: bs)
  end.

Record WrappedItem : Type := mkWrappedItem { id : string; wrappedDEK : EncryptedData }.

Record KeyRotationResult : Type := mkKeyRotationResult {
  newKEK : KEKParams.t;
  reWrappedDEKs : list WrappedItem
}.

Definition rewrap_item (oldKey newKey : Buffer) (item : WrappedItem) : Rand WrappedItem :=
  dek <- lift (unwrapDEK (wrappedDEK item) oldKey) ;;
  newWrapped <- wrapDEK dek newKey ;;
  ret (mkWrappedItem (id item) newWrapped).

Definition rotateUserKEK (oldPassword newPassword : JSString) (oldSalt : Buffer)
    (wrappedDEKs : list WrappedItem) : Rand KeyRotationResult :=
  oldKEK <- deriveKEK oldPassword (Some oldSalt) ;;
  newKEK <- deriveKEK newPassword None ;;
  reWrappedDEKs <- array_map (rewrap_item (KEKParams.key oldKEK) (KEKParams.key newKEK))
                     wrappedDEKs ;;
  ret (mkKeyRotationResult newKEK reWrappedDEKs).

Definition rotateKEKWithoutPassword (currentKEK : Buffer) (wrappedDEKs : list WrappedItem)
    : Rand (Buffer * list WrappedItem) :=
  newKEK <- randomBytes 32 ;;
  reWrappedDEKs <- array_map (rewrap_item currentKEK newKEK) wrappedDEKs ;;
  ret (newKEK, reWrappedDEKs).

(** ** deviceKeys.ts *)

Definition DEVICE_KEY_SIZE : nat := 32.

Definition generateDeviceKey : Rand Buffer := randomBytes DEVICE_KEY_SIZE.

Definition wrapKEKWithDeviceKey (kek deviceKey : Buffer) : Rand EncryptedData :=
  encrypt kek deviceKey.

Definition unwrapKEKWithDeviceKey (wrappedKEK : EncryptedData) (deviceKey : Buffer)
    : result Buffer :=
  decrypt wrappedKEK deviceKey.

Definition wrapDeviceKeyWithKEK (deviceKey kek : Buffer) : Rand EncryptedData :=
  wrapDEK deviceKey kek.

Definition unwrapDeviceKeyWithKEK (wrappedDeviceKey : EncryptedData) (kek : Buffer)
    : result Buffer :=
  unwrapDEK wrappedDeviceKey kek.

(** ** recovery.ts *)

Definition CODE_LENGTH : nat := 8.
Definition CODE_COUNT : nat := 10.
Definition CODE_CHARSET : string := "ABCDEFGHJKLMNPQRSTUVWXYZ23456789".

(** [s[i]] as a string to append: the character at [i], or the text of
    [undefined] when [i] is not an index of [s]. *)
Definition char_at (s : string) (i : Z) : string :=
  match (if i <? 0 then None else String.get (Z.to_nat i) s) with
  | Some c => String.String c String.EmptyString
  | None => "undefined"
  end.

(** The inner loop: [j] characters still to append to [code]. *)
Fixpoint generate_code (j : nat) (code : string) : Rand string :=
  match j with
  | O => ret code
  | S j' =>
      randomIndex <- randomInt 0 (Z.of_nat (String.length CODE_CHARSET)) ;;
      generate_code j' (String.append code (char_at CODE_CHARSET randomIndex))
  end.

(** The outer loop: [i] codes still to push to [codes]. *)
Fixpoint generate_codes (i : nat) (codes : list string) : Rand (list string) :=
  match i with
  | O => ret codes
  | S i' =>
      code <- generate_code CODE_LENGTH "" ;;
      generate_codes i' (codes ++ [code])
  end.

Definition generateRecoveryCodes : Rand (list string) := generate_codes CODE_COUNT [].

Definition hashRecoveryCode (code : JSString) : Rand EncodedHash :=
  argon2_hash code 65536 3 4.

(** The value [argon2.verify] resolves to is dropped: the function
    answers [true] unless the call rejects. *)
Definition verifyRecoveryCode (code : JSString) (hash : EncodedHash) : bool :=
  match argon2_verify hash code with
  | Ok _ => true
  | Throw _ => false
  end.

Fixpoint verifyRecoveryCodeAgainstArray_from (i : Z) (code : JSString)
    (hashes : list EncodedHash)
    : Z :=
  match hashes with
  | [] => -1
  | h :: rest =>
      if verifyRecoveryCode code h then i
      else verifyRecoveryCodeAgainstArray_from (i + 1) code rest
  end.

Definition verifyRecoveryCodeAgainstArray (code : JSString) (hashes : list EncodedHash) : Z :=
  verifyRecoveryCodeAgainstArray_from 0 code hashes.

End Argon2.

(** ** Notions the properties are stated with *)

(** The blob [encrypt] builds from nonce [n]. *)
Definition sealed_with (n plaintext key : Buffer) : EncryptedData :=
  mkEncryptedData (fst (GCM.seal key n plaintext)) n (snd (GCM.seal key n plaintext)).


(** A well-formed key: 32 bytes, each in [0, 256). *)
Definition key256 (k : Buffer) : Prop := length k = 32%nat /\ Forall is_byte k.

(** What [rotateKEK] re-wraps: each DEK sealed under [newKEK] with the
    next 12 bytes of the tape as nonce. *)
Fixpoint rewrap_all (newKEK : Buffer) (deks : list Buffer) (t : Entropy) : list EncryptedData :=
  match deks with
  | [] => []
  | dek :: rest => sealed_with (drawn 12 t) dek newKEK :: rewrap_all newKEK rest (advance 12 t)
  end.

(** The tape after [n] nonces have been drawn. *)
Fixpoint after_wraps (n : nat) (t : Entropy) : Entropy :=
  match n with
  | O => t
  | S n' => after_wraps n' (advance 12 t)
  end.

(** The error kinds of the specification's taxonomy, and the kind a
    thrown exception falls under by its message.  The source has no
    error of its own for a failed rotation or a missing recovery code. *)
Inductive ErrorKind : Type :=
  | InvalidKeyLength
  | DecryptionFailed
  | RotationFailed
  | NotFound.

Definition kind_of (e : exn) : option ErrorKind :=
  match e with
  | Error m =>
      if String.eqb m "Key must be 32 bytes (256 bits)" then Some InvalidKeyLength
      else if String.eqb m "Decryption failed: invalid ciphertext or tag"
           then Some DecryptionFailed
           else None
  | _ => None
  end.

(** Successive calls of [encrypt] under one key, one per plaintext. *)
Definition encrypt_each (key : Buffer) (plaintexts : list Buffer) : Rand (list EncryptedData) :=
  array_map (fun p => encrypt p key) plaintexts.

(** The next [n] twelve-byte chunks of the tape. *)
Fixpoint nonces_of (n : nat) (t : Entropy) : list Buffer :=
  match n with
  | O => []
  | S n' => drawn 12 t :: nonces_of n' (advance 12 t)
  end.


(** The bytes of a string's characters. *)
Fixpoint string_bytes (s : string) : Buffer :=
  match s with
  | String.EmptyString => []
  | String.String c rest => Z.of_nat (nat_of_ascii c) :: string_bytes rest
  end.

(** A stand-in for Argon2id on which the code can be run: the password's
    bytes followed by the salt's, cut or zero-padded to the output
    length. *)
Definition padding_kdf (memoryCost timeCost parallelism : Z) (hashLength : nat)
    (salt password : Buffer) : Buffer :=
  firstn hashLength (password ++ salt ++ repeat 0 hashLength).

(** The characters of the recovery alphabet, and the one at index [x]. *)
Definition charset_chars : list ascii := String.list_ascii_of_string CODE_CHARSET.

Definition charset_char (x : Z) : ascii := nth (Z.to_nat x) charset_chars "A"%char.

(** The [i]-th code of a batch generated from tape [t]: its [j]-th
    character is the alphabet's character at index [t (8 i + j) mod 32]. *)
Definition code_of (t : Entropy) (i : nat) : string :=
  String.string_of_list_ascii
    (map (fun j => charset_char (t (8 * i + j)%nat mod 32)) (seq 0 8)).

(** What [rotateUserKEK] and [rotateKEKWithoutPassword] re-wrap: each
    item keeps its id and carries its DEK sealed under [newKey]. *)
Fixpoint rewrap_items (newKey : Buffer) (items : list WrappedItem) (deks : list Buffer)
    (t : Entropy) : list WrappedItem :=
  match items, deks with
  | item :: items', dek :: deks' =>
      mkWrappedItem (id item) (sealed_with (drawn 12 t) dek newKey)
        :: rewrap_items newKey items' deks' (advance 12 t)
  | _, _ => []
  end.

(** ** The arithmetic behind GHASH *)






(** A 128-bit block as a number. *)
Definition block (a : Z) : Prop := 0 <= a < 2 ^ 128.






(** ** SHA-256 (FIPS 180-4) and hexadecimal text *)

Module SHA256.

Definition add32 (a b : Z) : Z := (a + b) mod 2 ^ 32.

Definition rotr (n x : Z) : Z :=
  Z.lor (Z.shiftr x n) (Z.shiftl x (32 - n) mod 2 ^ 32).

Definition Ch (x y z : Z) : Z :=
  Z.lxor (Z.land x y) (Z.land (Z.lxor x 0xffffffff) z).

Definition Maj (x y z : Z) : Z :=
  Z.lxor (Z.lxor (Z.land x y) (Z.land x z)) (Z.land y z).

Definition Sigma0 (x : Z) : Z := Z.lxor (Z.lxor (rotr 2 x) (rotr 13 x)) (rotr 22 x).
Definition Sigma1 (x : Z) : Z := Z.lxor (Z.lxor (rotr 6 x) (rotr 11 x)) (rotr 25 x).
Definition sigma0 (x : Z) : Z := Z.lxor (Z.lxor (rotr 7 x) (rotr 18 x)) (Z.shiftr x 3).
Definition sigma1 (x : Z) : Z := Z.lxor (Z.lxor (rotr 17 x) (rotr 19 x)) (Z.shiftr x 10).

(** The first 64 primes. *)
Definition primes : list Z :=
  [2; 3; 5; 7; 11; 13; 17; 19; 23; 29; 31; 37; 41; 43; 47; 53; 59; 61; 67; 71; 73; 79; 83; 89;
   97; 101; 103; 107; 109; 113; 127; 131; 137; 139; 149; 151; 157; 163; 167; 173; 179; 181;
   191; 193; 197; 199; 211; 223; 227; 229; 233; 239; 241; 251; 257; 263; 269; 271; 277; 281;
   283; 293; 307; 311].

(** The largest [r] below [2 ^ bits] whose cube is at most [x], found
    bit by bit. *)
Fixpoint cube_root_bits (bits : nat) (x r : Z) : Z :=
  match bits with
  | O => r
  | S bits' =>
      let r' := r + 2 ^ Z.of_nat bits' in
      cube_root_bits bits' x (if r' * r' * r' <=? x then r' else r)
  end.

(** The first 32 bits of the fractional part of the cube root of [p]. *)
Definition cube_root_fraction (p : Z) : Z := cube_root_bits 36 (p * 2 ^ 96) 0 mod 2 ^ 32.

(** The first 32 bits of the fractional part of the square root of [p]. *)
Definition square_root_fraction (p : Z) : Z := Z.sqrt (p * 2 ^ 64) mod 2 ^ 32.

(** The round constants. *)
Definition K : list Z := Eval vm_compute in map cube_root_fraction primes.

(** The eight working variables. *)
Record state : Type := mkState { sa : Z; sb : Z; sc : Z; sd : Z; se : Z; sf : Z; sg : Z; sh : Z }.

(** The initial hash value, from the first eight primes. *)
Definition H0 : state :=
  Eval vm_compute in
    mkState (square_root_fraction 2) (square_root_fraction 3) (square_root_fraction 5)
            (square_root_fraction 7) (square_root_fraction 11) (square_root_fraction 13)
            (square_root_fraction 17) (square_root_fraction 19).

(** The message with its padding: a one bit, zeros, and the length in
    bits on eight bytes, to a multiple of 64 bytes. *)
Definition pad (msg : Buffer) : Buffer :=
  msg ++ [0x80] ++ repeat 0 ((55 + 64 - length msg mod 64) mod 64)
      ++ be_bytes 8 (8 * Z.of_nat (length msg)).

(** [n] chunks of [k] elements. *)
Fixpoint chunks {A : Type} (k n : nat) (l : list A) : list (list A) :=
  match n with
  | O => []
  | S n' => firstn k l :: chunks k n' (skipn k l)
  end.

(** The message schedule: [n] more words after those of [w]. *)
Fixpoint schedule (n : nat) (w : list Z) : list Z :=
  match n with
  | O => w
  | S n' =>
      let t := length w in
      schedule n'
        (w ++ [add32 (add32 (sigma1 (nth (t - 2) w 0)) (nth (t - 7) w 0))
                     (add32 (sigma0 (nth (t - 15) w 0)) (nth (t - 16) w 0))])
  end.

Definition round (s : state) (kw : Z * Z) : state :=
  let T1 := add32 (add32 (add32 (sh s) (Sigma1 (se s))) (Ch (se s) (sf s) (sg s)))
                  (add32 (fst kw) (snd kw)) in
  let T2 := add32 (Sigma0 (sa s)) (Maj (sa s) (sb s) (sc s)) in
  mkState (add32 T1 T2) (sa s) (sb s) (sc s) (add32 (sd s) T1) (se s) (sf s) (sg s).

(** One 64-byte block. *)
Definition compress (h : state) (block : Buffer) : state :=
  let w := schedule 48 (map be_Z (chunks 4 16 block)) in
  let s := fold_left round (combine K w) h in
  mkState (add32 (sa h) (sa s)) (add32 (sb h) (sb s)) (add32 (sc h) (sc s))
          (add32 (sd h) (sd s)) (add32 (se h) (se s)) (add32 (sf h) (sf s))
          (add32 (sg h) (sg s)) (add32 (sh h) (sh s)).

Definition digest (msg : Buffer) : Buffer :=
  let p := pad msg in
  let h := fold_left compress (chunks 64 (length p / 64) p) H0 in
  be_bytes 4 (sa h) ++ be_bytes 4 (sb h) ++ be_bytes 4 (sc h) ++ be_bytes 4 (sd h) ++
  be_bytes 4 (se h) ++ be_bytes 4 (sf h) ++ be_bytes 4 (sg h) ++ be_bytes 4 (sh h).

End SHA256.

Definition hex_digits : string := "0123456789abcdef".

Definition hex_digit (n : Z) : ascii :=
  match String.get (Z.to_nat n) hex_digits with
  | Some c => c
  | None => "0"%char
  end.

(** [buf.toString('hex')]. *)
Fixpoint toString_hex (buf : Buffer) : string :=
  match buf with
  | [] => ""
  | b :: rest =>
      String.String (hex_digit (b / 16)) (String.String (hex_digit (b mod 16)) (toString_hex rest))
  end.

(** [crypto.createHash('sha256').update(data).digest('hex')] for a string
    [data], taken as the bytes of its UTF-8 encoding. *)
Definition sha256_hex (data : string) : string :=
  toString_hex (SHA256.digest (string_bytes data)).

(** [a || d] for strings: the empty string is falsy, and so is a missing
    one. *)
Definition or_string (a : option string) (d : string) : string :=
  match a with
  | Some s => if String.eqb s "" then d else s
  | None => d
  end.

(** ** deviceKeys.ts: the device fingerprint *)

Definition generateDeviceFingerprint (userAgent : string) (additionalInfo : option string)
    : string :=
  let data := String.append userAgent (or_string additionalInfo "") in
  sha256_hex data.

(** ** Decimal text of whole numbers *)

Definition decimal_digit (n : Z) : ascii := ascii_of_nat (48 + Z.to_nat n).

(** The decimal digits of [n], most significant first, in front of
    [acc]; [fuel] bounds their number. *)
Fixpoint decimal_digits (fuel : nat) (n : Z) (acc : string) : string :=
  match fuel with
  | O => acc
  | S fuel' =>
      let acc' := String.String (decimal_digit (n mod 10)) acc in
      if n <? 10 then acc' else decimal_digits fuel' (n / 10) acc'
  end.

(** [n.toString()] for a whole number [n] of fewer than 22 digits. *)
Definition Number_toString (n : Z) : string :=
  if n <? 0
  then String.String "-"%char (decimal_digits (S (Z.to_nat (Z.log2 (- n)))) (- n) "")
  else decimal_digits (S (Z.to_nat (Z.log2 n))) n "".

Section Callers.

Variable argon2id : Z -> Z -> Z -> nat -> Buffer -> Buffer -> Buffer.

(** ** auth.ts *)

Definition hashPassword (password : JSString) : Rand EncodedHash :=
  argon2_hash argon2id password 65536 3 4.

(** As in [verifyRecoveryCode], the value [argon2.verify] resolves to is
    dropped. *)
Definition verifyPassword (password : JSString) (hash : EncodedHash) : bool :=
  match argon2_verify argon2id hash password with
  | Ok _ => true
  | Throw _ => false
  end.

Record AuthResult : Type := mkAuthResult { success : bool; error : option string }.

Definition authenticatePassword (password : JSString) (passwordHash : EncodedHash)
    : AuthResult :=
  let isValid := verifyPassword password passwordHash in
  if negb isValid then mkAuthResult false (Some "Invalid password"%string)
  else mkAuthResult true None.

Definition initializeUserKeys (password : JSString) : Rand KEKParams.t :=
  deriveKEK argon2id password None.

(** ** mfa.ts: backup codes *)

(** The loop of [generateBackupCodes]: [i] codes still to push. *)
Fixpoint generateBackupCodes_loop (i : nat) (codes : list string) : Rand (list string) :=
  match i with
  | O => ret codes
  | S i' =>
      n <- randomInt 10000000 99999999 ;;
      generateBackupCodes_loop i' (codes ++ [Number_toString n])
  end.

(** [count] is a whole number; it is 10 when the argument is left out. *)
Definition generateBackupCodes (count : option Z) : Rand (list string) :=
  let count := match count with Some c => c | None => 10 end in
  generateBackupCodes_loop (Z.to_nat count) [].

Definition hashBackupCode (code : JSString) : Rand EncodedHash :=
  hashRecoveryCode argon2id code.

Definition verifyBackupCode (code : JSString) (hash : EncodedHash) : bool :=
  verifyRecoveryCode argon2id code hash.

(** ** sessions.ts: refresh tokens *)

Definition generateRefreshToken : Rand string :=
  bytes <- randomBytes 32 ;;
  ret (toString_hex bytes).

Definition hashRefreshToken (token : JSString) : Rand EncodedHash :=
  argon2_hash argon2id token 65536 3 4.

Definition verifyRefreshToken (token : JSString) (hash : EncodedHash) : bool :=
  match argon2_verify argon2id hash token with
  | Ok _ => true
  | Throw _ => false
  end.

End Callers.

(** ** The browser's base64 functions and typed arrays *)

Definition base64_alphabet : string :=
  "ABCDEFGHIJKLMNOPQRSTUVWXYZabcdefghijklmnopqrstuvwxyz0123456789+/".

Definition base64_char (i : Z) : ascii :=
  match String.get (Z.to_nat i) base64_alphabet with
  | Some c => c
  | None => "A"%char
  end.

Definition char_code (c : ascii) : Z := Z.of_nat (nat_of_ascii c).

(** The string [String.fromCharCode] builds from the character codes
    [bytes]. *)
Definition String_fromCharCode (bytes : Buffer) : string :=
  String.string_of_list_ascii (map (fun b => ascii_of_nat (Z.to_nat b)) bytes).

(** [Uint8Array.from(s, c => c.charCodeAt(0))]. *)
Definition Uint8Array_from (s : string) : Buffer :=
  map char_code (String.list_ascii_of_string s).

Fixpoint btoa_chars (s : list ascii) : list ascii :=
  match s with
  | a :: b :: c :: rest =>
      base64_char (char_code a / 4)
        :: base64_char (char_code a mod 4 * 16 + char_code b / 16)
        :: base64_char (char_code b mod 16 * 4 + char_code c / 64)
        :: base64_char (char_code c mod 64)
        :: btoa_chars rest
  | [a; b] =>
      [base64_char (char_code a / 4);
       base64_char (char_code a mod 4 * 16 + char_code b / 16);
       base64_char (char_code b mod 16 * 4);
       "="%char]
  | [a] =>
      [base64_char (char_code a / 4); base64_char (char_code a mod 4 * 16); "="%char; "="%char]
  | [] => []
  end.

(** [btoa(s)] for a string of characters with codes under 256. *)
Definition btoa (s : string) : string :=
  String.string_of_list_ascii (btoa_chars (String.list_ascii_of_string s)).

(** Tab, line feed, form feed, carriage return and space. *)
Definition is_ascii_whitespace (c : ascii) : bool :=
  let n := nat_of_ascii c in
  ((n =? 9) || (n =? 10) || (n =? 12) || (n =? 13) || (n =? 32))%nat.

Definition base64_index (c : ascii) : option Z :=
  let n := nat_of_ascii c in
  if ((65 <=? n) && (n <=? 90))%nat then Some (Z.of_nat n - 65)
  else if ((97 <=? n) && (n <=? 122))%nat then Some (Z.of_nat n - 71)
  else if ((48 <=? n) && (n <=? 57))%nat then Some (Z.of_nat n + 4)
  else if (n =? 43)%nat then Some 62
  else if (n =? 47)%nat then Some 63
  else None.

Fixpoint base64_indices (l : list ascii) : option (list Z) :=
  match l with
  | [] => Some []
  | c :: rest =>
      match base64_index c, base64_indices rest with
      | Some i, Some ix => Some (i :: ix)
      | _, _ => None
      end
  end.

(** Six bits per character, eight bits per byte; the bits left over at
    the end are dropped. *)
Fixpoint base64_bytes (l : list Z) : Buffer :=
  match l with
  | a :: b :: c :: d :: rest =>
      (a * 4 + b / 16) :: (b mod 16 * 16 + c / 4) :: (c mod 4 * 64 + d) :: base64_bytes rest
  | [a; b; c] => [a * 4 + b / 16; b mod 16 * 16 + c / 4]
  | [a; b] => [a * 4 + b / 16]
  | _ => []
  end.

(** One or two equals signs at the end of a text whose length is a
    multiple of four are removed. *)
Definition strip_padding (l : list ascii) : list ascii :=
  if (length l mod 4 =? 0)%nat
  then match rev l with
       | c1 :: r1 =>
           if Ascii.eqb c1 "="
           then match r1 with
                | c2 :: r2 => if Ascii.eqb c2 "=" then rev r2 else rev r1
                | [] => rev r1
                end
           else l
       | [] => l
       end
  else l.

(** [atob(data)]; [None] stands for the exception it throws on text that
    is not base64. *)
Definition atob (data : string) : option string :=
  let l := filter (fun c => negb (is_ascii_whitespace c)) (String.list_ascii_of_string data) in
  let l := strip_padding l in
  if (length l mod 4 =? 1)%nat then None
  else match base64_indices l with
       | Some ix => Some (String_fromCharCode (base64_bytes ix))
       | None => None
       end.

(** [array.slice(start, end)]; [end] is the length when left out. *)
Definition slice (data : Buffer) (start : Z) (stop : option Z) : Buffer :=
  let len := Z.of_nat (length data) in
  let s := clamp_index len start in
  let e := match stop with Some j => clamp_index len j | None => len end in
  firstn (Z.to_nat (e - s)) (skipn (Z.to_nat s) data).

(** ** frontend/src/lib/crypto/vaultCrypto.ts: the wire format *)

Module VaultCrypto.

Section Engine.

(** How many arguments the engine passes in one call.  The number
    depends on the engine and on the stack that is left when the call is
    made; a call with more arguments throws a [RangeError]. *)
Variable max_arguments : nat.

(** [String.fromCharCode(...combined)]: the spread passes one argument
    per byte. *)
Definition String_fromCharCode_spread (combined : Buffer) : result string :=
  if (max_arguments <? length combined)%nat then Throw RangeError
  else Ok (String_fromCharCode combined).

(** The three arrays are copied one after the other into [combined]. *)
Definition serializeEncrypted (encrypted : EncryptedData) : result string :=
  let combined := nonce encrypted ++ ciphertext encrypted ++ tag encrypted in
  binary <-- String_fromCharCode_spread combined ;;
  Ok (btoa binary).

End Engine.

Definition deserializeEncrypted (data : string) : option EncryptedData :=
  match atob data with
  | None => None
  | Some binary =>
      let combined := Uint8Array_from binary in
      let nonce := slice combined 0 (Some 12) in
      let tag := slice combined (-16) None in
      let ciphertext := slice combined 12 (Some (-16)) in
      Some (mkEncryptedData ciphertext nonce tag)
  end.

End VaultCrypto.

(** ** Notions for the further properties *)

(** A character of hexadecimal text in lower case. *)
Definition is_hex_char (c : ascii) : Prop := In c (String.list_ascii_of_string hex_digits).

(** A decimal digit. *)
Definition is_decimal_char (c : ascii) : Prop := (48 <= nat_of_ascii c <= 57)%nat.

(** The [j]-th backup code of a batch generated from tape [t]. *)
Definition backup_code_of (t : Entropy) (j : nat) : string :=
  Number_toString (10000000 + t j mod 89999999).

(** The six-bit groups of a string. *)
Fixpoint sextets (s : list ascii) : list Z :=
  match s with
  | a :: b :: c :: rest =>
      (char_code a / 4)
        :: (char_code a mod 4 * 16 + char_code b / 16)
        :: (char_code b mod 16 * 4 + char_code c / 64)
        :: (char_code c mod 64)
        :: sextets rest
  | [a; b] =>
      [char_code a / 4; char_code a mod 4 * 16 + char_code b / 16; char_code b mod 16 * 4]
  | [a] => [char_code a / 4; char_code a mod 4 * 16]
  | [] => []
  end.

(** The equals signs [btoa] ends with. *)
Definition padding (s : list ascii) : list ascii :=
  repeat "="%char ((3 - length s mod 3) mod 3).

(** * Properties *)

(** ** The cipher model against published test vectors *)

(** FIPS 197, Appendix C.3. *)
Example aes256_fips197_c3 :
  AES.encrypt_block (hex "000102030405060708090a0b0c0d0e0f101112131415161718191a1b1c1d1e1f"%string)
                    (hex "00112233445566778899aabbccddeeff"%string)
  = hex "8ea2b7ca516745bfeafc49904b496089"%string.
Proof. vm_compute. reflexivity. Qed.

(** The GCM specification's test cases 13 to 15 (256-bit keys, 96-bit IV). *)
Example gcm_test_case_13 :
  GCM.seal (repeat 0 32%nat) (repeat 0 12%nat) []
  = ([], hex "530f8afbc74536b9a963b4f1c4cb738b"%string).
Proof. vm_compute. reflexivity. Qed.

Example gcm_test_case_14 :
  GCM.seal (repeat 0 32%nat) (repeat 0 12%nat) (repeat 0 16%nat)
  = (hex "cea7403d4d606b6e074ec5d3baf39d18"%string, hex "d0d1c8a799996bf0265b98b5d48ab919"%string).
Proof. vm_compute. reflexivity. Qed.

Example gcm_test_case_15 :
  GCM.seal (hex "feffe9928665731c6d6a8f9467308308feffe9928665731c6d6a8f9467308308"%string)
           (hex "cafebabefacedbaddecaf888"%string)
           (hex "d9313225f88406e5a55909c5aff5269a86a7a9531534f7da2e4c303d8a318a721c3c0c95956809532fcf0e2449a6b525b16aedf5aa0de657ba637b391aafd255"%string)
  = (hex "522dc1f099567d07f47f37a32a84427d643a8cdcbfe5c0c97598a2bd2555d1aa8cb08e48590dbb3da7b08b1056828838c5f61e6393ba7a0abcc9f662898015ad"%string,
     hex "b094dac5d93471bdec1a502270e3cc6c"%string).
Proof. vm_compute. reflexivity. Qed.

(** Further vectors, computed with OpenSSL 3.0: a partial final block, a
    one-byte IV and a sixty-byte IV (the GHASH form of the pre-counter
    block). *)
Example gcm_partial_block :
  GCM.seal (hex "53934c2e014b01fd5e3187cf21ebd55d7c5e0dbea95aca5b5b7fd3d5a63d22eb"%string)
           (hex "63674577a995401e85da16ba"%string)
           (hex "37224fbe128ce3bccd9de5879ffcf5"%string)
  = (hex "ece7d70fc3a1d2249dd745e3b44348"%string,
     hex "386b331d39e9b2b5f71167061d88e0fd"%string).
Proof. vm_compute. reflexivity. Qed.

Example gcm_iv_one_byte :
  GCM.seal (hex "07ecb03cf4bc3d8b26670d35cea5fd5d7a89da0c4b3e57c3773760d00660e4d7"%string)
           (hex "a9"%string)
           (hex "c7d78bd01b"%string)
  = (hex "bdc9ce8655"%string,
     hex "d2231736df0589ab18e0e0f61b07ee80"%string).
Proof. vm_compute. reflexivity. Qed.

Example gcm_iv_sixty_bytes :
  GCM.seal (hex "e5ec1012242fa46fd9a60837669a4644d763efa854d6bd43b773e4dbfd9a7fdc"%string)
           (hex "2b7ed35e04ad8cf806a0db83f73782ac6e0304bf44515e9dce2ee72bb7c238d72637551253a01d657f6c38cc4cbdc291250ca7a2e9339d00658dbf0f"%string)
           (hex "88b903e3d8f7063a2430ca9034bfde2fb0d523a801ac0964d12ea188aa9903f85d19c5935d2c2c7a8ac905c5c691251a"%string)
  = (hex "c59ecc8a9793cfb6493bdb5481a79aba9e561edc693526ade4d0b2b4ea3e51efcac0da05152065f0aab823ce3527124d"%string,
     hex "28c3aed341b97841cee78f5eceb3b719"%string).
Proof. vm_compute. reflexivity. Qed.

(** ** Buffers *)

Lemma Buffer_eqb_eq (a b : Buffer) : Buffer_eqb a b = true <-> a = b.
Proof.
  revert b; induction a as [|x a IH]; intros [|y b]; simpl; split; intro H;
    try reflexivity; try discriminate.
  - apply andb_true_iff in H as [Hx Hab]. apply Z.eqb_eq in Hx.
    apply IH in Hab. now subst.
  - injection H as -> ->. rewrite Z.eqb_refl. simpl. now apply IH.
Qed.

Lemma Buffer_eqb_refl (a : Buffer) : Buffer_eqb a a = true.
Proof. now apply Buffer_eqb_eq. Qed.

Lemma Buffer_eqb_neq (a b : Buffer) : Buffer_eqb a b = false <-> a <> b.
Proof.
  split.
  - intros H E. apply Buffer_eqb_eq in E. congruence.
  - intro H. destruct (Buffer_eqb a b) eqn:E; [|reflexivity].
    apply Buffer_eqb_eq in E. contradiction.
Qed.

Lemma be_bytes_length (n : nat) (v : Z) : length (be_bytes n v) = n.
Proof. unfold be_bytes. now rewrite length_map, length_seq. Qed.

Lemma drawn_length (n : nat) (t : Entropy) : length (drawn n t) = n.
Proof. unfold drawn. now rewrite length_map, length_seq. Qed.

(** ** Counter mode *)

Lemma gctr_length (key : Buffer) (data cb ks : Buffer) :
  length (GCM.gctr key cb ks data) = length data.
Proof.
  revert cb ks; induction data as [|b rest IH]; intros cb ks; [reflexivity|].
  destruct ks as [|k ks']; cbn [GCM.gctr length]; now rewrite IH.
Qed.

(** XORing twice with the same key stream gives the data back. *)
Lemma gctr_involutive (key : Buffer) (data cb ks : Buffer) :
  GCM.gctr key cb ks (GCM.gctr key cb ks data) = data.
Proof.
  revert cb ks; induction data as [|b rest IH]; intros cb ks; [reflexivity|].
  destruct ks as [|k ks']; cbn [GCM.gctr]; rewrite IH; f_equal;
    rewrite Z.lxor_assoc, Z.lxor_nilpotent; apply Z.lxor_0_r.
Qed.

Lemma keystream_xor_involutive (key iv data : Buffer) :
  GCM.keystream_xor key iv (GCM.keystream_xor key iv data) = data.
Proof. unfold GCM.keystream_xor. apply gctr_involutive. Qed.

Lemma tag_length (key iv c : Buffer) : length (GCM.tag key iv c) = 16%nat.
Proof. unfold GCM.tag. now rewrite gctr_length, be_bytes_length. Qed.

(** Opening what was sealed, under the same key and IV, succeeds. *)
Lemma open_seal (key iv p : Buffer) :
  GCM.open key iv (snd (GCM.seal key iv p)) (fst (GCM.seal key iv p)) = Some p.
Proof.
  unfold GCM.open, GCM.seal; cbn [fst snd].
  rewrite firstn_all, Buffer_eqb_refl. now rewrite keystream_xor_involutive.
Qed.

(** ** encryption.ts: what [encrypt] and [decrypt] compute *)

Lemma createCipheriv_ok (key iv : Buffer) :
  length key = 32%nat -> iv <> [] -> (length iv <= GCM_IV_MAX_SIZE)%nat ->
  createCipheriv key iv = Ok (mkCipher key iv).
Proof.
  intros Hk Hn Hl. unfold createCipheriv. rewrite Hk. cbn [Nat.eqb negb].
  destruct iv as [|b iv]; [contradiction|]. cbn [length Nat.eqb].
  destruct (Nat.ltb_spec GCM_IV_MAX_SIZE (S (length iv))) as [L|_]; [|reflexivity].
  cbn [length] in Hl. lia.
Qed.

Lemma createCipheriv_bad_iv (key iv : Buffer) :
  iv = [] \/ (GCM_IV_MAX_SIZE < length iv)%nat ->
  createCipheriv key iv = Throw ERR_CRYPTO_INVALID_IV.
Proof.
  intros [->|L]; [reflexivity|]. unfold createCipheriv.
  destruct (length iv =? 0)%nat; [reflexivity|].
  destruct (Nat.ltb_spec GCM_IV_MAX_SIZE (length iv)); [reflexivity|lia].
Qed.

Lemma drawn_nonempty (n : nat) (t : Entropy) : drawn (S n) t <> [].
Proof. intro H. apply (f_equal (@length Z)) in H. rewrite drawn_length in H. discriminate. Qed.

Lemma drawn_short (t : Entropy) : (length (drawn 12 t) <= GCM_IV_MAX_SIZE)%nat.
Proof. rewrite drawn_length. unfold GCM_IV_MAX_SIZE. lia. Qed.

Lemma encrypt_ok (plaintext key : Buffer) (t : Entropy) :
  length key = 32%nat ->
  encrypt plaintext key t = (Ok (sealed_with (drawn 12 t) plaintext key), advance 12 t).
Proof.
  intro Hk. unfold encrypt, AES_KEY_SIZE, AES_NONCE_SIZE. rewrite Hk. cbn [Nat.eqb negb].
  unfold bind, randomBytes, lift.
  rewrite createCipheriv_ok by (try apply drawn_nonempty; try apply drawn_short; assumption).
  unfold cipher_run. cbn [cipher_key cipher_iv].
  unfold sealed_with. now destruct (GCM.seal key (drawn 12 t) plaintext).
Qed.

Lemma encrypt_bad_key (plaintext key : Buffer) (t : Entropy) :
  length key <> 32%nat -> encrypt plaintext key t = (Throw key_length_error, t).
Proof.
  intro Hk. unfold encrypt, AES_KEY_SIZE.
  destruct (Nat.eqb_spec (length key) 32); [contradiction|reflexivity].
Qed.

Lemma decrypt_bad_key (e : EncryptedData) (key : Buffer) :
  length key <> 32%nat -> decrypt e key = Throw key_length_error.
Proof.
  intro Hk. unfold decrypt, AES_KEY_SIZE.
  destruct (Nat.eqb_spec (length key) 32); [contradiction|reflexivity].
Qed.

(** [decrypt] on a blob with a nonce of 1 to 128 bytes and a 16-byte
    tag. *)
Lemma decrypt_spec (e : EncryptedData) (key : Buffer) :
  length key = 32%nat -> nonce e <> [] -> (length (nonce e) <= GCM_IV_MAX_SIZE)%nat ->
  length (tag e) = 16%nat ->
  decrypt e key =
    if Buffer_eqb (GCM.tag key (nonce e) (ciphertext e)) (tag e)
    then Ok (GCM.keystream_xor key (nonce e) (ciphertext e))
    else Throw decryption_failed.
Proof.
  intros Hk Hn Hl Ht. unfold decrypt, AES_KEY_SIZE. rewrite Hk. cbn [Nat.eqb negb].
  unfold createDecipheriv. rewrite createCipheriv_ok by assumption. cbn [result_bind].
  unfold setAuthTag. rewrite Ht. cbn [valid_gcm_tag_length Nat.eqb Nat.leb orb andb result_bind].
  unfold decipher_run, GCM.open. cbn [decipher_cipher decipher_tag cipher_key cipher_iv].
  rewrite Ht.
  replace (firstn 16 (GCM.tag key (nonce e) (ciphertext e)))
    with (GCM.tag key (nonce e) (ciphertext e)).
  - now destruct (Buffer_eqb _ _).
  - symmetry. apply firstn_all2. rewrite tag_length. lia.
Qed.

Lemma decrypt_sealed (n plaintext key : Buffer) :
  length key = 32%nat -> n <> [] -> (length n <= GCM_IV_MAX_SIZE)%nat ->
  decrypt (sealed_with n plaintext key) key = Ok plaintext.
Proof.
  intros Hk Hn Hl. rewrite decrypt_spec; try assumption.
  - unfold sealed_with, GCM.seal; cbn [fst snd nonce ciphertext tag].
    now rewrite Buffer_eqb_refl, keystream_xor_involutive.
  - unfold sealed_with, GCM.seal; cbn [snd tag]. apply tag_length.
Qed.

Lemma generateWrappedDEK_ok (kek : Buffer) (t : Entropy) :
  length kek = 32%nat ->
  generateWrappedDEK kek t =
    (Ok (DEK.mk (drawn 32 t) (sealed_with (drawn 12 (advance 32 t)) (drawn 32 t) kek)),
     advance 12 (advance 32 t)).
Proof.
  intro Hk. unfold generateWrappedDEK, generateDEK, wrapDEK, bind, randomBytes, AES_KEY_SIZE.
  now rewrite encrypt_ok.
Qed.

(** C1 (AEAD and envelope round-trip).  Under a 32-byte key, whatever the
    random source yields: [encrypt] succeeds on every byte string and
    [decrypt] gives that string back; [wrapDEK] followed by [unwrapDEK]
    gives the DEK back; and [generateWrappedDEK] returns a 32-byte key
    together with a wrapped form that unwraps to that key. *)
Theorem envelope_roundtrip (k : Buffer) (t : Entropy) :
  length k = 32%nat ->
  (forall p, exists e, fst (encrypt p k t) = Ok e /\ decrypt e k = Ok p) /\
  (forall dek, length dek = 32%nat ->
     exists w, fst (wrapDEK dek k t) = Ok w /\ unwrapDEK w k = Ok dek) /\
  (exists d, fst (generateWrappedDEK k t) = Ok d /\
             length (DEK.key d) = 32%nat /\
             unwrapDEK (DEK.wrapped d) k = Ok (DEK.key d)).
Proof.
  intro Hk. repeat split.
  - intro p. eexists. rewrite encrypt_ok by assumption. split; [reflexivity|].
    apply decrypt_sealed; [assumption | apply drawn_nonempty | apply drawn_short].
  - intros dek _. eexists. unfold wrapDEK, unwrapDEK.
    rewrite encrypt_ok by assumption. split; [reflexivity|].
    apply decrypt_sealed; [assumption | apply drawn_nonempty | apply drawn_short].
  - eexists. rewrite generateWrappedDEK_ok by assumption. cbn [fst DEK.key DEK.wrapped].
    split; [reflexivity|]. split; [apply drawn_length|].
    apply decrypt_sealed; [assumption | apply drawn_nonempty | apply drawn_short].
Qed.

Lemma envelope_roundtrip_witness :
  (forall p, exists e, fst (encrypt p (repeat 7 32) (fun i => Z.of_nat i)) = Ok e /\
                       decrypt e (repeat 7 32) = Ok p) /\
  (forall dek, length dek = 32%nat ->
     exists w, fst (wrapDEK dek (repeat 7 32) (fun i => Z.of_nat i)) = Ok w /\
               unwrapDEK w (repeat 7 32) = Ok dek) /\
  (exists d, fst (generateWrappedDEK (repeat 7 32) (fun i => Z.of_nat i)) = Ok d /\
             length (DEK.key d) = 32%nat /\
             unwrapDEK (DEK.wrapped d) (repeat 7 32) = Ok (DEK.key d)).
Proof. apply (envelope_roundtrip (repeat 7 32) (fun i => Z.of_nat i)). reflexivity. Defined.

(** ** Serialization *)

Lemma firstn_exact {A : Type} (a b : list A) : firstn (length a) (a ++ b) = a.
Proof. induction a as [|x a IH]; [reflexivity|]. cbn. now rewrite IH. Qed.

Lemma skipn_exact {A : Type} (a b : list A) : skipn (length a) (a ++ b) = b.
Proof. induction a as [|x a IH]; [reflexivity|]. exact IH. Qed.

Lemma subarray_inside (data : Buffer) (i j : nat) :
  (i <= j <= length data)%nat ->
  subarray data (Z.of_nat i) (Z.of_nat j) = firstn (j - i) (skipn i data).
Proof.
  intros [Hij Hj]. unfold subarray, clamp_index.
  destruct (Z.ltb_spec (Z.of_nat i) 0); [lia|].
  destruct (Z.ltb_spec (Z.of_nat j) 0); [lia|].
  rewrite !Z.min_l by lia. rewrite <- Nat2Z.inj_sub by assumption.
  now rewrite !Nat2Z.id.
Qed.

Lemma deserializeEncrypted_short (data : Buffer) :
  (length data < 28)%nat -> deserializeEncrypted data = Throw invalid_format.
Proof.
  intro H. unfold deserializeEncrypted, AES_NONCE_SIZE, AES_TAG_SIZE.
  destruct (Z.ltb_spec (Z.of_nat (length data)) (Z.of_nat 12 + Z.of_nat 16)); [reflexivity|lia].
Qed.

Lemma deserializeEncrypted_long (data : Buffer) :
  (28 <= length data)%nat ->
  deserializeEncrypted data =
    Ok (mkEncryptedData (firstn (length data - 28) (skipn 12 data))
                        (firstn 12 data)
                        (skipn (length data - 16) data)).
Proof.
  intro H. unfold deserializeEncrypted, AES_NONCE_SIZE, AES_TAG_SIZE.
  destruct (Z.ltb_spec (Z.of_nat (length data)) (Z.of_nat 12 + Z.of_nat 16)); [lia|].
  rewrite <- Nat2Z.inj_sub by lia.
  change 0 with (Z.of_nat 0).
  rewrite !subarray_inside by lia.
  f_equal. f_equal; try reflexivity.
  - f_equal. lia.
  - apply firstn_all2. rewrite length_skipn. lia.
Qed.

(** C10 (deserialization guard).  A buffer shorter than 28 bytes is
    rejected with the invalid-format error and nothing else; a buffer of
    at least 28 bytes is split into its first 12 bytes (nonce), its last
    16 bytes (tag) and what lies between (ciphertext), which is empty for
    a 28-byte buffer. *)
Theorem deserializeEncrypted_guard (data : Buffer) :
  ((length data < 28)%nat -> deserializeEncrypted data = Throw invalid_format) /\
  ((28 <= length data)%nat ->
     deserializeEncrypted data =
       Ok (mkEncryptedData (firstn (length data - 28) (skipn 12 data))
                           (firstn 12 data)
                           (skipn (length data - 16) data))) /\
  (length data = 28%nat ->
     exists e, deserializeEncrypted data = Ok e /\ ciphertext e = [] /\
               nonce e = firstn 12 data /\ tag e = skipn 12 data).
Proof.
  split; [apply deserializeEncrypted_short|].
  split; [apply deserializeEncrypted_long|].
  intro H. eexists. rewrite deserializeEncrypted_long by lia.
  split; [reflexivity|]. cbn [ciphertext nonce tag]. rewrite H.
  repeat split; reflexivity.
Qed.

Lemma serializeEncrypted_length (e : EncryptedData) :
  length (serializeEncrypted e)
  = (length (nonce e) + length (ciphertext e) + length (tag e))%nat.
Proof. unfold serializeEncrypted. rewrite !length_app. lia. Qed.

Lemma deserialize_serialize (e : EncryptedData) :
  length (nonce e) = 12%nat -> length (tag e) = 16%nat ->
  deserializeEncrypted (serializeEncrypted e) = Ok e.
Proof.
  intros Hn Ht.
  assert (Hlen : length (serializeEncrypted e) = (12 + length (ciphertext e) + 16)%nat)
    by (rewrite serializeEncrypted_length; lia).
  rewrite deserializeEncrypted_long by lia. rewrite Hlen.
  destruct e as [c n tg]; cbn [nonce ciphertext tag] in *.
  unfold serializeEncrypted; cbn [nonce ciphertext tag].
  replace (12 + length c + 16 - 28)%nat with (length c) by lia.
  replace (12 + length c + 16 - 16)%nat with (length (n ++ c)) by (rewrite length_app; lia).
  rewrite <- Hn, skipn_exact, !firstn_exact, app_assoc, skipn_exact.
  reflexivity.
Qed.

(** C9 (serialization format and round-trip).  The serialized form is
    exactly nonce, ciphertext and tag laid end to end, so a blob with a
    12-byte nonce and a 16-byte tag takes 12 + N + 16 bytes with no length
    prefix, and deserializing it gives the blob back. *)
Theorem serialize_deserialize_roundtrip (e : EncryptedData) :
  length (nonce e) = 12%nat -> length (tag e) = 16%nat ->
  serializeEncrypted e = nonce e ++ ciphertext e ++ tag e /\
  length (serializeEncrypted e) = (12 + length (ciphertext e) + 16)%nat /\
  deserializeEncrypted (serializeEncrypted e) = Ok e.
Proof.
  intros Hn Ht. split; [reflexivity|].
  split; [rewrite serializeEncrypted_length; lia|].
  now apply deserialize_serialize.
Qed.

Lemma serialize_deserialize_roundtrip_witness :
  let e := mkEncryptedData [1; 2; 3] (repeat 9 12) (repeat 5 16) in
  serializeEncrypted e = nonce e ++ ciphertext e ++ tag e /\
  length (serializeEncrypted e) = (12 + length (ciphertext e) + 16)%nat /\
  deserializeEncrypted (serializeEncrypted e) = Ok e.
Proof.
  apply (serialize_deserialize_roundtrip (mkEncryptedData [1; 2; 3] (repeat 9 12) (repeat 5 16)));
    reflexivity.
Defined.

(** ** Big-endian encodings *)

Lemma fold_be_acc (l : Buffer) (acc : Z) :
  fold_left (fun a b => a * 256 + b) l acc = acc * 256 ^ Z.of_nat (length l) + be_Z l.
Proof.
  unfold be_Z. revert acc. induction l as [|b l IH]; intro acc.
  - cbn. lia.
  - cbn [fold_left length]. rewrite IH, (IH (0 * 256 + b)).
    rewrite Nat2Z.inj_succ, Z.pow_succ_r by lia. lia.
Qed.

Lemma be_Z_cons (b : Z) (l : Buffer) :
  be_Z (b :: l) = b * 256 ^ Z.of_nat (length l) + be_Z l.
Proof. unfold be_Z at 1. cbn [fold_left]. now rewrite fold_be_acc. Qed.

Lemma be_Z_bound (l : Buffer) :
  Forall is_byte l -> 0 <= be_Z l < 256 ^ Z.of_nat (length l).
Proof.
  induction 1 as [|b l Hb _ IH].
  - cbn. lia.
  - rewrite be_Z_cons. cbn [length]. rewrite Nat2Z.inj_succ, Z.pow_succ_r by lia.
    unfold is_byte in Hb. nia.
Qed.

Lemma be_Z_inj (a b : Buffer) :
  length a = length b -> Forall is_byte a -> Forall is_byte b ->
  be_Z a = be_Z b -> a = b.
Proof.
  intros Hlen Ha. revert b Hlen. induction Ha as [|x a Hx Ha IH]; intros [|y b] Hlen Hb E;
    try discriminate; [reflexivity|].
  inversion Hb as [|? ? Hy Hb']; subst. injection Hlen as Hlen.
  rewrite !be_Z_cons, <- Hlen in E.
  pose proof (be_Z_bound a Ha) as Ba. pose proof (be_Z_bound b Hb') as Bb.
  rewrite <- Hlen in Bb. unfold is_byte in Hx, Hy.
  assert (x = y) by nia. subst y.
  f_equal. apply IH; try assumption. lia.
Qed.

Lemma be_bytes_succ (n : nat) (v : Z) :
  be_bytes (S n) v = Z.land (Z.shiftr v (8 * Z.of_nat n)) 255 :: be_bytes n v.
Proof.
  unfold be_bytes. cbn [seq map]. f_equal.
  - now replace (S n - 1 - 0)%nat with n by lia.
  - rewrite <- seq_shift, map_map. apply map_ext. intro i.
    now replace (S n - 1 - S i)%nat with (n - 1 - i)%nat by lia.
Qed.

Lemma land_255 (x : Z) : Z.land x 255 = x mod 256.
Proof. change 255 with (Z.ones 8). rewrite Z.land_ones by lia. reflexivity. Qed.

Lemma be_bytes_bytes (n : nat) (v : Z) : Forall is_byte (be_bytes n v).
Proof.
  unfold be_bytes. apply Forall_forall. intros x Hx.
  apply in_map_iff in Hx as [i [<- _]]. rewrite land_255. unfold is_byte.
  apply Z.mod_pos_bound. lia.
Qed.

Lemma be_Z_be_bytes (n : nat) (v : Z) : be_Z (be_bytes n v) = v mod 256 ^ Z.of_nat n.
Proof.
  induction n as [|n IH].
  - cbn. now rewrite Z.mod_1_r.
  - rewrite be_bytes_succ, be_Z_cons, be_bytes_length, IH, land_255.
    rewrite Z.shiftr_div_pow2 by lia.
    rewrite Nat2Z.inj_succ, Z.pow_succ_r by lia.
    replace (2 ^ (8 * Z.of_nat n)) with (256 ^ Z.of_nat n)
      by (change 256 with (2 ^ 8); rewrite <- Z.pow_mul_r by lia; reflexivity).
    rewrite (Z.mul_comm 256), Z.rem_mul_r by lia. lia.
Qed.

(** ** The pigeonhole principle on integer intervals *)

Lemma bounded_search (f : Z -> Z) (v n : Z) :
  0 <= n ->
  (exists x, 0 <= x < n /\ f x = v) \/ (forall x, 0 <= x < n -> f x <> v).
Proof.
  intro Hn. pattern n. apply natlike_ind; [| |exact Hn].
  - right. intros x Hx. lia.
  - intros m Hm [[x [Hx E]]|None].
    + left. exists x. split; [lia|exact E].
    + destruct (Z.eq_dec (f m) v) as [E|NE].
      * left. exists m. split; [lia|exact E].
      * right. intros x Hx. destruct (Z.eq_dec x m) as [->|]; [exact NE|].
        apply None. lia.
Qed.

Lemma pigeonhole (m : Z) :
  0 <= m ->
  forall (n : Z) (f : Z -> Z),
    m < n ->
    (forall x, 0 <= x < n -> 0 <= f x < m) ->
    exists x y, 0 <= x < y /\ y < n /\ f x = f y.
Proof.
  intro Hm. pattern m. apply natlike_ind; [| |exact Hm]; clear m Hm.
  - intros n f Hn Hf. specialize (Hf 0). lia.
  - intros m Hm IH n f Hn Hf.
    destruct (bounded_search f (f (n - 1)) (n - 1)) as [[x [Hx E]]|None]; [lia| |].
    + exists x, (n - 1). repeat split; first [lia | exact E].
    + set (g := fun x => if f x <? f (n - 1) then f x else f x - 1).
      destruct (IH (n - 1) g) as [x [y [Hxy [Hy E]]]]; [lia| |].
      * intros x Hx. unfold g. specialize (None x Hx).
        pose proof (Hf x ltac:(lia)). pose proof (Hf (n - 1) ltac:(lia)).
        destruct (Z.ltb_spec (f x) (f (n - 1))); lia.
      * exists x, y. repeat split; try lia.
        pose proof (None x ltac:(lia)). pose proof (None y ltac:(lia)).
        unfold g in E.
        destruct (Z.ltb_spec (f x) (f (n - 1))), (Z.ltb_spec (f y) (f (n - 1))); lia.
Qed.

(** ** Byte ranges through AES and GCM *)

Lemma log2_byte (a : Z) : is_byte a -> Z.log2 a < 8.
Proof.
  intros [H0 H]. destruct (Z.eq_dec a 0) as [->|]; [cbn; lia|].
  apply Z.log2_lt_pow2; lia.
Qed.

Lemma lxor_byte (a b : Z) : is_byte a -> is_byte b -> is_byte (Z.lxor a b).
Proof.
  intros Ha Hb. pose proof (log2_byte a Ha) as La. pose proof (log2_byte b Hb) as Lb.
  destruct Ha as [Ha0 Ha], Hb as [Hb0 Hb].
  assert (Hx : 0 <= Z.lxor a b) by (apply Z.lxor_nonneg; tauto).
  split; [exact Hx|].
  destruct (Z.eq_dec (Z.lxor a b) 0) as [->|]; [lia|].
  change 256 with (2 ^ 8). apply Z.log2_lt_pow2; [lia|].
  pose proof (Z.log2_lxor a b Ha0 Hb0). lia.
Qed.

Lemma Forall_byte_nth (l : Buffer) (i : nat) : Forall is_byte l -> is_byte (nth i l 0).
Proof.
  intro H. destruct (nth_in_or_default i l 0) as [Hin| ->].
  - rewrite Forall_forall in H. now apply H.
  - unfold is_byte. lia.
Qed.

Lemma Forall_byte_firstn (n : nat) (l : Buffer) : Forall is_byte l -> Forall is_byte (firstn n l).
Proof.
  intro H. rewrite <- (firstn_skipn n l) in H. now apply Forall_app in H.
Qed.

Lemma Forall_byte_skipn (n : nat) (l : Buffer) : Forall is_byte l -> Forall is_byte (skipn n l).
Proof.
  intro H. rewrite <- (firstn_skipn n l) in H. now apply Forall_app in H.
Qed.

Lemma sbox_table_bytes : Forall is_byte AES.sbox_table.
Proof.
  apply Forall_forall. intros x Hx.
  assert (H : forallb is_byteb AES.sbox_table = true) by reflexivity.
  rewrite forallb_forall in H. specialize (H x Hx).
  unfold is_byteb in H. apply andb_true_iff in H as [H1 H2].
  apply Z.leb_le in H1. apply Z.ltb_lt in H2. split; assumption.
Qed.

Lemma sub_byte_byte (b : Z) : is_byte (AES.sub_byte b).
Proof. apply Forall_byte_nth, sbox_table_bytes. Qed.

Lemma sub_word_bytes (w : Buffer) : Forall is_byte (AES.sub_word w).
Proof.
  apply Forall_forall. intros x Hx. apply in_map_iff in Hx as [b [<- _]].
  apply sub_byte_byte.
Qed.

Lemma xor_at_byte (s t : Buffer) (i : nat) :
  Forall is_byte s -> Forall is_byte t -> is_byte (AES.xor_at s t i).
Proof. intros Hs Ht. apply lxor_byte; now apply Forall_byte_nth. Qed.

Lemma xor_words_bytes (s t : Buffer) :
  Forall is_byte s -> Forall is_byte t -> Forall is_byte (AES.xor_words s t).
Proof.
  intros Hs Ht. apply Forall_forall. intros x Hx.
  apply in_map_iff in Hx as [i [<- _]]. now apply xor_at_byte.
Qed.

Lemma add_round_key_bytes (s rk : Buffer) :
  Forall is_byte s -> Forall is_byte rk -> Forall is_byte (AES.add_round_key s rk).
Proof.
  intros Hs Ht. apply Forall_forall. intros x Hx.
  apply in_map_iff in Hx as [i [<- _]]. now apply xor_at_byte.
Qed.

Lemma rcon_byte (i : nat) : is_byte (AES.rcon i).
Proof.
  apply Forall_byte_nth. repeat constructor; unfold is_byte; lia.
Qed.

Lemma next_word_bytes (w : Buffer) (i : nat) :
  Forall is_byte w -> Forall is_byte (AES.next_word w i).
Proof.
  intro Hw. unfold AES.next_word, AES.word_at.
  apply xor_words_bytes; [now apply Forall_byte_firstn, Forall_byte_skipn|].
  destruct (i mod 8 =? 0)%nat; [|destruct (i mod 8 =? 4)%nat].
  - apply xor_words_bytes; [apply sub_word_bytes|].
    repeat constructor; try apply rcon_byte; unfold is_byte; lia.
  - apply sub_word_bytes.
  - now apply Forall_byte_firstn, Forall_byte_skipn.
Qed.

Lemma expand_from_bytes (n i : nat) (w : Buffer) :
  Forall is_byte w -> Forall is_byte (AES.expand_from n i w).
Proof.
  revert i w; induction n as [|n IH]; intros i w Hw; [exact Hw|].
  cbn [AES.expand_from]. apply IH, Forall_app. split; [exact Hw|].
  now apply next_word_bytes.
Qed.

Lemma shift_rows_sub_bytes_bytes (s : Buffer) :
  Forall is_byte (AES.shift_rows (AES.sub_bytes s)).
Proof.
  apply Forall_forall. intros x Hx. apply in_map_iff in Hx as [i [<- _]].
  apply Forall_byte_nth, sub_word_bytes.
Qed.

Lemma encrypt_block_bytes (key blk : Buffer) :
  Forall is_byte key -> Forall is_byte (AES.encrypt_block key blk).
Proof.
  intro Hk. unfold AES.encrypt_block.
  apply add_round_key_bytes; [apply shift_rows_sub_bytes_bytes|].
  unfold AES.round_key. apply Forall_byte_firstn, Forall_byte_skipn.
  now apply expand_from_bytes.
Qed.


Lemma gctr_bytes (key data : Buffer) :
  Forall is_byte key -> Forall is_byte data ->
  forall cb ks, Forall is_byte ks -> Forall is_byte (GCM.gctr key cb ks data).
Proof.
  intros Hk Hd. induction Hd as [|b rest Hb _ IH]; intros cb ks Hks; [constructor|].
  destruct ks as [|k ks']; cbn [GCM.gctr].
  - pose proof (encrypt_block_bytes key cb Hk) as HE.
    destruct (AES.encrypt_block key cb) as [|e blk]; cbn [hd tl].
    + constructor; [apply lxor_byte; [exact Hb|unfold is_byte; lia]|].
      now apply IH.
    + inversion HE; subst. constructor; [now apply lxor_byte|]. now apply IH.
  - inversion Hks; subst. constructor; [now apply lxor_byte|]. now apply IH.
Qed.

Lemma tag_bytes (key iv c : Buffer) : Forall is_byte key -> Forall is_byte (GCM.tag key iv c).
Proof.
  intro Hk. unfold GCM.tag. apply gctr_bytes; [exact Hk|apply be_bytes_bytes|constructor].
Qed.

(** ** Tampering and wrong keys *)





(** Two distinct well-formed keys under which a given nonce and
    ciphertext carry the same tag: 2^256 keys share 2^128 tags. *)
Lemma tag_collision (n c : Buffer) :
  exists k k' : Buffer, key256 k /\ key256 k' /\ k' <> k /\ GCM.tag k' n c = GCM.tag k n c.
Proof.
  destruct (pigeonhole (2 ^ 128) ltac:(lia) (2 ^ 256)
              (fun x => be_Z (GCM.tag (be_bytes 32 x) n c)))
    as [x [y [Hxy [Hy E]]]].
  - lia.
  - intros x _.
    pose proof (be_Z_bound (GCM.tag (be_bytes 32 x) n c)
                  (tag_bytes _ _ _ (be_bytes_bytes 32 x))) as B.
    rewrite tag_length in B. exact B.
  - exists (be_bytes 32 x), (be_bytes 32 y).
    split; [split; [apply be_bytes_length|apply be_bytes_bytes]|].
    split; [split; [apply be_bytes_length|apply be_bytes_bytes]|].
    split.
    + intro K. apply (f_equal be_Z) in K. rewrite !be_Z_be_bytes in K.
      rewrite !Z.mod_small in K; [lia| |];
        change (256 ^ Z.of_nat 32) with (2 ^ 256); lia.
    + symmetry. apply be_Z_inj; [now rewrite !tag_length| | |exact E];
        apply tag_bytes, be_bytes_bytes.
Qed.


(** ** The block multiplication of GHASH *)

(** *** Polynomials over GF(2): carry-less multiplication *)

















(** *** Degrees *)








(** *** The field polynomial of GCM in reciprocal form *)















(** *** The block multiplication of GCM is multiplication modulo [fstar],
    up to the factor y^127 *)











(** *** The ring of blocks *)

















(** *** Squaring *)






























(** ** GHASH under a change of one bit *)








(** *** One bit of one byte *)




Lemma be_Z_nonneg (l : Buffer) : Forall is_byte l -> 0 <= be_Z l.
Proof. intro H. apply be_Z_bound, H. Qed.





(** *** The blocks of a buffer *)






Section BitFlip.

Variable h : Z.
Hypothesis h_block : block h.
Hypothesis h_nonzero : h <> 0.




End BitFlip.

(** *** Ciphertexts that differ in one bit *)









(** *** A key whose hash subkey is zero *)





(** *** Counter mode and single bits *)








(** ** Key rotation *)

Lemma after_wraps_at (n : nat) (t : Entropy) (i : nat) :
  after_wraps n t i = t (12 * n + i)%nat.
Proof.
  revert t; induction n as [|n IH]; intro t; [reflexivity|].
  cbn [after_wraps]. rewrite IH. unfold advance. f_equal. lia.
Qed.

Lemma rotateKEK_loop_step (oldKEK newKEK : Buffer) (w : EncryptedData) (dek : Buffer)
    (ws acc : list EncryptedData) (t : Entropy) :
  length newKEK = 32%nat -> unwrapDEK w oldKEK = Ok dek ->
  rotateKEK_loop oldKEK newKEK (w :: ws) acc t =
  rotateKEK_loop oldKEK newKEK ws (acc ++ [sealed_with (drawn 12 t) dek newKEK]) (advance 12 t).
Proof.
  intros Hn Hw. cbn [rotateKEK_loop]. unfold bind at 1, lift. rewrite Hw.
  unfold bind, wrapDEK. now rewrite encrypt_ok.
Qed.

Lemma rotateKEK_loop_throw (oldKEK newKEK : Buffer) (w : EncryptedData) (e : exn)
    (ws acc : list EncryptedData) (t : Entropy) :
  unwrapDEK w oldKEK = Throw e ->
  rotateKEK_loop oldKEK newKEK (w :: ws) acc t = (Throw e, t).
Proof. intro Hw. cbn [rotateKEK_loop]. unfold bind at 1, lift. now rewrite Hw. Qed.

Lemma rotateKEK_loop_ok (oldKEK newKEK : Buffer) (ws : list EncryptedData) (deks : list Buffer) :
  length newKEK = 32%nat ->
  Forall2 (fun w d => unwrapDEK w oldKEK = Ok d) ws deks ->
  forall acc t,
    rotateKEK_loop oldKEK newKEK ws acc t =
    (Ok (acc ++ rewrap_all newKEK deks t), after_wraps (length ws) t).
Proof.
  intros Hn H. induction H as [|w d ws deks Hw _ IH]; intros acc t.
  - cbn. now rewrite app_nil_r.
  - rewrite (rotateKEK_loop_step _ _ _ d) by assumption. rewrite IH.
    cbn [rewrap_all after_wraps length]. now rewrite <- app_assoc.
Qed.

Lemma rotateKEK_loop_fail (oldKEK newKEK : Buffer) (good : list EncryptedData)
    (deks : list Buffer) (bad : EncryptedData) (rest : list EncryptedData) (e : exn) :
  length newKEK = 32%nat ->
  Forall2 (fun w d => unwrapDEK w oldKEK = Ok d) good deks ->
  unwrapDEK bad oldKEK = Throw e ->
  forall acc t,
    rotateKEK_loop oldKEK newKEK (good ++ bad :: rest) acc t =
    (Throw e, after_wraps (length good) t).
Proof.
  intros Hn H Hbad. induction H as [|w d ws deks Hw _ IH]; intros acc t.
  - now apply rotateKEK_loop_throw.
  - cbn [app]. rewrite (rotateKEK_loop_step _ _ _ d) by assumption. now rewrite IH.
Qed.

Lemma rewrap_all_length (newKEK : Buffer) (deks : list Buffer) (t : Entropy) :
  length (rewrap_all newKEK deks t) = length deks.
Proof. revert t; induction deks as [|d deks IH]; intro t; [reflexivity|]. cbn. now rewrite IH. Qed.

Lemma rewrap_all_unwraps (newKEK : Buffer) (deks : list Buffer) (t : Entropy) :
  length newKEK = 32%nat ->
  Forall2 (fun r d => unwrapDEK r newKEK = Ok d) (rewrap_all newKEK deks t) deks.
Proof.
  intro Hn. revert t; induction deks as [|d deks IH]; intro t; constructor.
  - apply decrypt_sealed; [assumption|apply drawn_nonempty|apply drawn_short].
  - apply IH.
Qed.

Lemma rewrap_all_shape (newKEK : Buffer) (deks : list Buffer) (t : Entropy) :
  Forall (fun r => length (nonce r) = 12%nat /\ length (tag r) = 16%nat)
         (rewrap_all newKEK deks t).
Proof.
  revert t; induction deks as [|d deks IH]; intro t; constructor; [|apply IH].
  unfold sealed_with, GCM.seal; cbn [nonce tag snd]. split; [apply drawn_length|apply tag_length].
Qed.

Lemma Forall2_length_eq {A B : Type} (R : A -> B -> Prop) (l : list A) (l' : list B) :
  Forall2 R l l' -> length l = length l'.
Proof. induction 1; [reflexivity|]. cbn. now f_equal. Qed.

(** Every list with an item that fails to unwrap splits at the first
    such item. *)
Lemma first_failure (oldKEK : Buffer) (ws : list EncryptedData) :
  Exists (fun w => exists e, unwrapDEK w oldKEK = Throw e) ws ->
  exists good deks bad rest e,
    ws = good ++ bad :: rest /\
    Forall2 (fun w d => unwrapDEK w oldKEK = Ok d) good deks /\
    unwrapDEK bad oldKEK = Throw e.
Proof.
  induction ws as [|w ws IH]; intro H; [inversion H|].
  destruct (unwrapDEK w oldKEK) as [d|e] eqn:Hw.
  - inversion H as [? ? [e He]|? ? Hex]; subst; [congruence|].
    destruct (IH Hex) as [good [deks [bad [rest [e [-> [Hg Hb]]]]]]].
    exists (w :: good), (d :: deks), bad, rest, e.
    split; [reflexivity|]. split; [now constructor|exact Hb].
  - exists [], [], w, ws, e. split; [reflexivity|]. split; [constructor|exact Hw].
Qed.

Lemma rotateKEK_ok (oldKEK newKEK : Buffer) (ws : list EncryptedData) (deks : list Buffer)
    (t : Entropy) :
  length newKEK = 32%nat ->
  Forall2 (fun w d => unwrapDEK w oldKEK = Ok d) ws deks ->
  rotateKEK oldKEK newKEK ws t = (Ok (rewrap_all newKEK deks t), after_wraps (length ws) t).
Proof. intros Hn H. unfold rotateKEK. now rewrite (rotateKEK_loop_ok _ _ _ deks). Qed.

(** C3 (rotation correctness), amended.  For 32-byte KEKs and a list of
    wrapped DEKs that all unwrap under [oldKEK], [rotateKEK] returns as
    many wrapped DEKs, in the same order, each unwrapping under [newKEK]
    to the DEK its input unwrapped to under [oldKEK]; it draws one 12-byte
    nonce per item and nothing else.  Under [oldKEK] a result is rejected
    exactly when the tag recomputed under [oldKEK] differs from its tag. *)
Theorem rotation_rewraps (oldKEK newKEK : Buffer) (wrapped : list EncryptedData)
    (deks : list Buffer) (t : Entropy) :
  length oldKEK = 32%nat -> length newKEK = 32%nat ->
  Forall2 (fun w d => unwrapDEK w oldKEK = Ok d) wrapped deks ->
  exists res,
    fst (rotateKEK oldKEK newKEK wrapped t) = Ok res /\
    length res = length wrapped /\
    Forall2 (fun r d => unwrapDEK r newKEK = Ok d) res deks /\
    (forall i, snd (rotateKEK oldKEK newKEK wrapped t) i = t (12 * length wrapped + i)%nat) /\
    Forall (fun r =>
              unwrapDEK r oldKEK =
                if Buffer_eqb (GCM.tag oldKEK (nonce r) (ciphertext r)) (tag r)
                then Ok (GCM.keystream_xor oldKEK (nonce r) (ciphertext r))
                else Throw decryption_failed) res.
Proof.
  intros Ho Hn H. exists (rewrap_all newKEK deks t).
  rewrite (rotateKEK_ok _ _ _ deks) by assumption. cbn [fst snd].
  split; [reflexivity|].
  split; [rewrite rewrap_all_length; symmetry; eapply Forall2_length_eq; exact H|].
  split; [now apply rewrap_all_unwraps|].
  split; [intro i; apply after_wraps_at|].
  eapply Forall_impl; [|apply rewrap_all_shape].
  intros r [Hr1 Hr2]. unfold unwrapDEK. apply decrypt_spec; try assumption.
  - intro E. rewrite E in Hr1. discriminate.
  - rewrite Hr1. unfold GCM_IV_MAX_SIZE. lia.
Qed.

Lemma rotation_rewraps_witness :
  let oldKEK := repeat 1 32 in
  let newKEK := repeat 2 32 in
  let dek := repeat 3 32 in
  let wrapped := [sealed_with (repeat 0 12) dek oldKEK] in
  let t : Entropy := fun i => Z.of_nat i in
  exists res,
    fst (rotateKEK oldKEK newKEK wrapped t) = Ok res /\
    length res = length wrapped /\
    Forall2 (fun r d => unwrapDEK r newKEK = Ok d) res [dek] /\
    (forall i, snd (rotateKEK oldKEK newKEK wrapped t) i = t (12 * length wrapped + i)%nat) /\
    Forall (fun r =>
              unwrapDEK r oldKEK =
                if Buffer_eqb (GCM.tag oldKEK (nonce r) (ciphertext r)) (tag r)
                then Ok (GCM.keystream_xor oldKEK (nonce r) (ciphertext r))
                else Throw decryption_failed) res.
Proof.
  apply (rotation_rewraps (repeat 1 32) (repeat 2 32)
           [sealed_with (repeat 0 12) (repeat 3 32) (repeat 1 32)] [repeat 3 32]
           (fun i => Z.of_nat i)).
  - reflexivity.
  - reflexivity.
  - constructor; [vm_compute; reflexivity|constructor].
Defined.

(** C3, refuted as stated.  Rotating from a key to itself, the result
    unwraps under the old key; and, by counting keys against tags, there
    are also two distinct 32-byte KEKs and a 32-byte DEK wrapped under the
    old one whose rotated form still unwraps successfully under the old
    KEK.  One such case, run: from the KEK of 32 bytes 01 to the KEK of
    32 bytes 02, with the nonce 00 01 ... 0b drawn, the rotated form of
    the DEK below unwraps under the new KEK to the DEK and under the old
    KEK to 32 other bytes. *)
Lemma rotated_unwraps_under_old :
  (let k := repeat 1 32 in
   let dek := repeat 3 32 in
   let t : Entropy := fun _ => 0 in
   exists w r,
     fst (wrapDEK dek k t) = Ok w /\
     fst (rotateKEK k k [w] t) = Ok [r] /\
     unwrapDEK r k = Ok dek) /\
  (exists (oldKEK newKEK dek : Buffer) (t : Entropy) (w r : EncryptedData) (x : Buffer),
     key256 oldKEK /\ key256 newKEK /\ oldKEK <> newKEK /\ key256 dek /\
     fst (wrapDEK dek oldKEK t) = Ok w /\
     fst (rotateKEK oldKEK newKEK [w] t) = Ok [r] /\
     unwrapDEK r oldKEK = Ok x) /\
  (let oldKEK := repeat 1 32 in
   let newKEK := repeat 2 32 in
   let dek := hex "4908e2fad1498c442b8840169ebe65fb83d9d428637d061432d4efc9543dfb64" in
   let t : Entropy := fun i => Z.of_nat i in
   oldKEK <> newKEK /\ length dek = 32%nat /\
   exists w r,
     fst (wrapDEK dek oldKEK t) = Ok w /\
     fst (rotateKEK oldKEK newKEK [w] t) = Ok [r] /\
     unwrapDEK r newKEK = Ok dek /\
     unwrapDEK r oldKEK
     = Ok (hex "bba6952620fe0679fe6ae7c42069c8a37e217fee85f6d7cd396eb8c665abd443")).
Proof.
  split.
  { cbv zeta.
    exists (sealed_with (repeat 0 12) (repeat 3 32) (repeat 1 32)),
           (sealed_with (repeat 0 12) (repeat 3 32) (repeat 1 32)).
    split; [vm_compute; reflexivity|]. split; vm_compute; reflexivity. }
  split; cycle 1.
  { cbv zeta. split; [discriminate|]. split; [reflexivity|].
    exists (sealed_with (drawn 12 (fun i => Z.of_nat i))
              (hex "4908e2fad1498c442b8840169ebe65fb83d9d428637d061432d4efc9543dfb64")
              (repeat 1 32)),
           (sealed_with (drawn 12 (fun i => Z.of_nat i))
              (hex "4908e2fad1498c442b8840169ebe65fb83d9d428637d061432d4efc9543dfb64")
              (repeat 2 32)).
    split; [vm_compute; reflexivity|]. split; [vm_compute; reflexivity|].
    split; vm_compute; reflexivity. }
  set (t := fun _ : nat => 0). set (n := drawn 12 t). set (c := repeat 0 32).
  destruct (tag_collision n c) as [newKEK [oldKEK [Hnew [Hold [Hneq E]]]]].
  set (dek := GCM.keystream_xor newKEK n c).
  exists oldKEK, newKEK, dek, t, (sealed_with n dek oldKEK), (sealed_with n dek newKEK),
         (GCM.keystream_xor oldKEK n c).
  repeat (split; [assumption|]).
  destruct Hnew as [Hn Hnb], Hold as [Ho Hob].
  split.
  { split.
    - unfold dek, GCM.keystream_xor. now rewrite gctr_length.
    - apply gctr_bytes; [assumption| |constructor].
      apply Forall_forall. intros x Hx. apply repeat_spec in Hx. subst x.
      unfold is_byte. lia. }
  split; [unfold wrapDEK; now rewrite encrypt_ok|].
  split.
  { rewrite (rotateKEK_ok _ _ _ [dek]); [reflexivity|assumption|].
    constructor; [|constructor].
    apply decrypt_sealed; [assumption|apply drawn_nonempty|apply drawn_short]. }
  unfold unwrapDEK.
  rewrite decrypt_spec; [|assumption|apply drawn_nonempty|apply drawn_short|apply tag_length].
  unfold sealed_with, GCM.seal; cbn [fst snd nonce ciphertext tag].
  unfold dek. rewrite keystream_xor_involutive, E. now rewrite Buffer_eqb_refl.
Qed.

(** ** Rotation failure *)

Lemma rotateKEK_loop_never_partial (oldKEK newKEK : Buffer) (ws : list EncryptedData) :
  Exists (fun w => exists e, unwrapDEK w oldKEK = Throw e) ws ->
  forall acc t, exists e, fst (rotateKEK_loop oldKEK newKEK ws acc t) = Throw e.
Proof.
  induction ws as [|w ws IH]; intros H acc t; [inversion H|].
  destruct (unwrapDEK w oldKEK) as [d|e] eqn:Hw.
  - inversion H as [? ? [e He]|? ? Hex]; subst; [congruence|].
    destruct (Nat.eq_dec (length newKEK) 32) as [Hn|Hn].
    + rewrite (rotateKEK_loop_step _ _ _ d) by assumption. now apply IH.
    + exists key_length_error. cbn [rotateKEK_loop]. unfold bind at 1, lift. rewrite Hw.
      unfold bind, wrapDEK. now rewrite encrypt_bad_key.
  - exists e. now rewrite (rotateKEK_loop_throw _ _ _ e).
Qed.

(** C5 (rotation failure), amended.  If any item fails to unwrap under
    [oldKEK], [rotateKEK] throws and returns no list at all; with a
    32-byte [newKEK] what it throws is the error of the first item that
    fails to unwrap, passed on unchanged (the generic decryption error for
    a tag mismatch), and the items before it had unwrapped. *)
Theorem rotation_failure_aborts (oldKEK newKEK : Buffer) (ws : list EncryptedData)
    (t : Entropy) :
  Exists (fun w => exists e, unwrapDEK w oldKEK = Throw e) ws ->
  (exists e, fst (rotateKEK oldKEK newKEK ws t) = Throw e) /\
  (length newKEK = 32%nat ->
   exists good deks bad rest e,
     ws = good ++ bad :: rest /\
     Forall2 (fun w d => unwrapDEK w oldKEK = Ok d) good deks /\
     unwrapDEK bad oldKEK = Throw e /\
     fst (rotateKEK oldKEK newKEK ws t) = Throw e).
Proof.
  intro H. split; [now apply rotateKEK_loop_never_partial|].
  intro Hn. destruct (first_failure _ _ H) as [good [deks [bad [rest [e [-> [Hg Hb]]]]]]].
  exists good, deks, bad, rest, e. repeat split; try assumption.
  unfold rotateKEK. now rewrite (rotateKEK_loop_fail _ _ _ deks _ _ e).
Qed.

Lemma rotation_failure_aborts_witness :
  let k := repeat 1 32 in
  let ws := [mkEncryptedData [] (repeat 0 12) (repeat 0 16)] in
  let t : Entropy := fun _ => 0 in
  (exists e, fst (rotateKEK k k ws t) = Throw e) /\
  (length k = 32%nat ->
   exists good deks bad rest e,
     ws = good ++ bad :: rest /\
     Forall2 (fun w d => unwrapDEK w k = Ok d) good deks /\
     unwrapDEK bad k = Throw e /\
     fst (rotateKEK k k ws t) = Throw e).
Proof.
  apply (rotation_failure_aborts (repeat 1 32) (repeat 1 32)
           [mkEncryptedData [] (repeat 0 12) (repeat 0 16)] (fun _ => 0)).
  constructor. exists decryption_failed. vm_compute. reflexivity.
Defined.

(** C5, refuted as stated: a rotation over a list whose only item fails
    to unwrap surfaces the generic decryption error itself, which is not
    of the kind [RotationFailed]. *)
Lemma rotation_surfaces_decryption_error :
  let k := repeat 1 32 in
  let bad := mkEncryptedData [] (repeat 0 12) (repeat 0 16) in
  unwrapDEK bad k = Throw decryption_failed /\
  fst (rotateKEK k k [bad] (fun _ => 0)) = Throw decryption_failed /\
  kind_of decryption_failed = Some DecryptionFailed /\
  kind_of decryption_failed <> Some RotationFailed.
Proof.
  cbv zeta. split; [vm_compute; reflexivity|].
  split; [vm_compute; reflexivity|].
  split; [reflexivity|discriminate].
Qed.

(** ** Nonces *)

Lemma encrypt_each_ok (key : Buffer) (ps : list Buffer) :
  length key = 32%nat ->
  forall t,
    encrypt_each key ps t =
    (Ok (map (fun pn => sealed_with (snd pn) (fst pn) key)
             (combine ps (nonces_of (length ps) t))),
     after_wraps (length ps) t).
Proof.
  intro Hk. induction ps as [|p ps IH]; intro t; [reflexivity|].
  unfold encrypt_each in *. cbn [array_map]. unfold bind at 1.
  rewrite encrypt_ok by assumption. unfold bind at 1. rewrite IH. reflexivity.
Qed.

Lemma nonces_of_length (n : nat) (t : Entropy) : length (nonces_of n t) = n.
Proof. revert t; induction n as [|n IH]; intro t; [reflexivity|]. cbn. now rewrite IH. Qed.

Lemma nonces_of_nth (n i : nat) (t : Entropy) :
  (i < n)%nat -> nth_error (nonces_of n t) i = Some (drawn 12 (after_wraps i t)).
Proof.
  revert i t; induction n as [|n IH]; intros i t Hi; [lia|].
  destruct i as [|i]; [reflexivity|]. cbn [nonces_of nth_error after_wraps].
  apply IH. lia.
Qed.

Lemma map_nonce_sealed (key : Buffer) (ps ns : list Buffer) :
  length ns = length ps ->
  map nonce (map (fun pn => sealed_with (snd pn) (fst pn) key) (combine ps ns)) = ns.
Proof.
  revert ns; induction ps as [|p ps IH]; intros [|n ns] H; try discriminate; [reflexivity|].
  cbn. f_equal. apply IH. now injection H.
Qed.

Lemma sealed_nth (key : Buffer) (ps ns : list Buffer) (i : nat) (e : EncryptedData) :
  nth_error (map (fun pn => sealed_with (snd pn) (fst pn) key) (combine ps ns)) i = Some e ->
  exists p n, nth_error ps i = Some p /\ nth_error ns i = Some n /\ e = sealed_with n p key.
Proof.
  revert ns i; induction ps as [|p ps IH]; intros [|n ns] [|i] H; try discriminate.
  - injection H as <-. now exists p, n.
  - cbn [combine map nth_error] in H |- *. now apply IH.
Qed.

(** C6 (nonce freshness), amended.  Under a 32-byte key, successive calls
    of [encrypt] all succeed; the nonce of each is drawn inside the call
    and is the next 12 bytes (96 bits) of the random source, so the
    [i]-th call's nonce is bytes [12 i .. 12 i + 11] of the source; and two
    of the calls given the same plaintext return the same blob exactly
    when they drew the same nonce. *)
Theorem encrypt_nonces (key : Buffer) (ps : list Buffer) (t : Entropy) :
  length key = 32%nat ->
  exists es,
    fst (encrypt_each key ps t) = Ok es /\
    length es = length ps /\
    map nonce es = nonces_of (length ps) t /\
    (forall i e, nth_error es i = Some e ->
       nonce e = map (fun j => t (12 * i + j)%nat mod 256) (seq 0 12)) /\
    (forall i j p e e',
       nth_error ps i = Some p -> nth_error ps j = Some p ->
       nth_error es i = Some e -> nth_error es j = Some e' ->
       (e = e' <-> nonce e = nonce e')).
Proof.
  intro Hk. eexists. rewrite encrypt_each_ok by assumption. cbn [fst].
  split; [reflexivity|].
  split; [now rewrite length_map, length_combine, nonces_of_length, Nat.min_id|].
  split; [apply map_nonce_sealed, nonces_of_length|].
  split.
  - intros i e He. apply sealed_nth in He as [p [n [Hp [Hn ->]]]].
    assert (Hi : (i < length ps)%nat) by (apply nth_error_Some; congruence).
    rewrite nonces_of_nth in Hn by assumption. injection Hn as <-.
    cbn [sealed_with nonce]. unfold drawn. apply map_ext. intro j.
    now rewrite after_wraps_at.
  - intros i j p e e' Hpi Hpj He He'.
    apply sealed_nth in He as [p1 [n1 [Hp1 [_ ->]]]].
    apply sealed_nth in He' as [p2 [n2 [Hp2 [_ ->]]]].
    assert (p1 = p) by congruence. assert (p2 = p) by congruence. subst p1 p2.
    cbn [sealed_with nonce]. split; intro E; [|now rewrite E].
    apply (f_equal nonce) in E. exact E.
Qed.

Lemma encrypt_nonces_witness :
  let key := repeat 1 32 in
  let ps := [[1; 2; 3]; [1; 2; 3]] in
  let t : Entropy := fun i => Z.of_nat i in
  exists es,
    fst (encrypt_each key ps t) = Ok es /\
    length es = length ps /\
    map nonce es = nonces_of (length ps) t /\
    (forall i e, nth_error es i = Some e ->
       nonce e = map (fun j => t (12 * i + j)%nat mod 256) (seq 0 12)) /\
    (forall i j p e e',
       nth_error ps i = Some p -> nth_error ps j = Some p ->
       nth_error es i = Some e -> nth_error es j = Some e' ->
       (e = e' <-> nonce e = nonce e')).
Proof.
  apply (encrypt_nonces (repeat 1 32) [[1; 2; 3]; [1; 2; 3]] (fun i => Z.of_nat i)).
  reflexivity.
Defined.

(** C6, refuted as stated: when the random source yields the same bytes
    twice, two successive calls of [encrypt] with the same plaintext and
    key use the same nonce and return identical output. *)
Lemma nonce_repeats :
  exists e,
    fst (encrypt_each (repeat 1 32) [[1; 2; 3]; [1; 2; 3]] (fun _ => 0)) = Ok [e; e] /\
    nonce e = repeat 0 12.
Proof. eexists. split; vm_compute; reflexivity. Qed.

(** ** Strings as the hash functions read them *)

(** Plain text, an accented letter, the euro sign, a character outside
    the basic plane (a surrogate pair), and surrogates without a
    partner. *)
Example Buffer_from_examples :
  Buffer_from (js "pw") = [112; 119] /\
  Buffer_from [0xE9] = [0xC3; 0xA9] /\
  Buffer_from [0x20AC] = [0xE2; 0x82; 0xAC] /\
  Buffer_from [0xD83D; 0xDE00] = [0xF0; 0x9F; 0x98; 0x80] /\
  Buffer_from [0xD83D] = [0xEF; 0xBF; 0xBD] /\
  Buffer_from [0xDE00; 0x41] = [0xEF; 0xBF; 0xBD; 0x41] /\
  Buffer_from [0xFFFD] = [0xEF; 0xBF; 0xBD].
Proof. repeat split. Qed.











(** ** Key derivation and recovery-code hashing *)

Lemma validate_inputs_ok (m t p : Z) (n : nat) (salt : Buffer) :
  (4 <= n)%nat -> (8 <= length salt)%nat ->
  8 <= m -> 1 <= t -> 1 <= p <= 0xFFFFFF -> 8 * p <= m ->
  validate_inputs m t p n salt = None.
Proof.
  intros Hn Hs Hm Ht Hp Hmp.
  unfold validate_inputs, ARGON2_MIN_OUTLEN, ARGON2_MIN_SALT_LENGTH, ARGON2_MIN_MEMORY,
    ARGON2_MIN_TIME, ARGON2_MIN_LANES, ARGON2_MAX_LANES.
  rewrite (Z.mod_small (8 * p)) by lia.
  destruct (Nat.ltb_spec n 4); [lia|]. destruct (Nat.ltb_spec (length salt) 8); [lia|].
  destruct (Z.ltb_spec m 8); [lia|]. destruct (Z.ltb_spec m (8 * p)); [lia|].
  destruct (Z.ltb_spec t 1); [lia|]. destruct (Z.ltb_spec p 1); [lia|].
  destruct (Z.ltb_spec 0xFFFFFF p); [lia|]. reflexivity.
Qed.

Lemma validate_inputs_short_salt (m t p : Z) (n : nat) (salt : Buffer) :
  (4 <= n)%nat -> (length salt < 8)%nat ->
  validate_inputs m t p n salt = Some "Salt is too short"%string.
Proof.
  intros Hn Hs. unfold validate_inputs, ARGON2_MIN_OUTLEN, ARGON2_MIN_SALT_LENGTH.
  destruct (Nat.ltb_spec n 4); [lia|]. destruct (Nat.ltb_spec (length salt) 8); [reflexivity|lia].
Qed.

Section KeyDerivation.

Variable argon2id : Z -> Z -> Z -> nat -> Buffer -> Buffer -> Buffer.

(** The options of every call in this code base pass the checks; the
    salt must have 8 bytes and the output 4. *)
Lemma argon2_hash_raw_valid (password : JSString) (n : nat) (salt : Buffer) :
  (4 <= n)%nat -> (8 <= length salt)%nat ->
  argon2_hash_raw argon2id password 65536 3 4 n salt
  = Ok (argon2id 65536 3 4 n salt (Buffer_from password)).
Proof.
  intros Hn Hs. unfold argon2_hash_raw. rewrite validate_inputs_ok; [reflexivity| | | | | |]; lia.
Qed.

Lemma argon2_hash_raw_ok (password : JSString) (salt : Buffer) :
  (8 <= length salt)%nat ->
  argon2_hash_raw argon2id password 65536 3 4 32 salt
  = Ok (argon2id 65536 3 4 32%nat salt (Buffer_from password)).
Proof. intro Hs. apply argon2_hash_raw_valid; [lia|exact Hs]. Qed.

Lemma deriveKEK_with_salt (password : JSString) (salt : Buffer) (t : Entropy) :
  deriveKEK argon2id password (Some salt) t =
  (match argon2_hash_raw argon2id password 65536 3 4 32 salt with
   | Ok hash => Ok (KEKParams.mk hash salt)
   | Throw e => Throw e
   end, t).
Proof.
  unfold deriveKEK, bind, ret, lift.
  change ARGON2_MEMORY with 65536. change ARGON2_TIME_COST with 3.
  change ARGON2_PARALLELISM with 4. change ARGON2_KEY_LENGTH with 32%nat.
  now destruct (argon2_hash_raw argon2id password 65536 3 4 32 salt).
Qed.

Lemma deriveKEK_fresh_salt (password : JSString) (t : Entropy) :
  deriveKEK argon2id password None t =
  (Ok (KEKParams.mk (argon2id 65536 3 4 32%nat (drawn 16 t) (Buffer_from password)) (drawn 16 t)),
   advance 16 t).
Proof.
  unfold deriveKEK, bind, ret, lift, randomBytes, SALT_SIZE.
  change ARGON2_MEMORY with 65536. change ARGON2_TIME_COST with 3.
  change ARGON2_PARALLELISM with 4. change ARGON2_KEY_LENGTH with 32%nat.
  rewrite argon2_hash_raw_ok; [reflexivity|]. rewrite drawn_length. lia.
Qed.



(** C7, first half holds and second half fails: every digest that
    [hashRecoveryCode] produces is accepted by [verifyRecoveryCode] for
    the code that was hashed and for every other code as well, because
    [argon2.verify] resolves (to [true] or to [false]) instead of
    rejecting, and the resolved value is not looked at.  (Argon2id is
    any function whose output has the requested length.) *)
Theorem verifyRecoveryCode_accepts_any (code wrongCode : JSString) (t : Entropy) :
  (forall m c p n s pw, length (argon2id m c p n s pw) = n) ->
  exists h,
    fst (hashRecoveryCode argon2id code t) = Ok h /\
    verifyRecoveryCode argon2id code h = true /\
    (exists b, argon2_verify argon2id h wrongCode = Ok b) /\
    verifyRecoveryCode argon2id wrongCode h = true.
Proof.
  intro Hlen. unfold hashRecoveryCode, argon2_hash, bind, ret, lift, randomBytes.
  rewrite argon2_hash_raw_ok by (rewrite drawn_length; lia).
  eexists. split; [reflexivity|].
  unfold verifyRecoveryCode, argon2_verify, result_bind.
  rewrite !argon2_hash_raw_valid by (rewrite ?Hlen, ?drawn_length; lia).
  split; [reflexivity|]. split; [eexists; reflexivity|reflexivity].
Qed.

End KeyDerivation.

Lemma padding_kdf_length (m c p : Z) (n : nat) (s pw : Buffer) :
  length (padding_kdf m c p n s pw) = n.
Proof.
  unfold padding_kdf. rewrite firstn_length_le; [reflexivity|].
  rewrite !length_app, repeat_length. lia.
Qed.


Lemma verifyRecoveryCode_accepts_any_witness :
  exists h,
    fst (hashRecoveryCode padding_kdf (js "TEST1234") (fun _ => 0)) = Ok h /\
    verifyRecoveryCode padding_kdf (js "TEST1234") h = true /\
    (exists b, argon2_verify padding_kdf h (js "WRONG12") = Ok b) /\
    verifyRecoveryCode padding_kdf (js "WRONG12") h = true.
Proof.
  apply (verifyRecoveryCode_accepts_any padding_kdf (js "TEST1234") (js "WRONG12") (fun _ => 0)).
  apply padding_kdf_length.
Defined.

(** The recovery test's inputs, run on the stand-in hash: the library
    call resolves to [false] for the wrong code, and [verifyRecoveryCode]
    answers [true]. *)
Example verifyRecoveryCode_wrong_code :
  exists h,
    fst (hashRecoveryCode padding_kdf (js "TEST1234") (fun _ => 0)) = Ok h /\
    argon2_verify padding_kdf h (js "WRONG12") = Ok false /\
    verifyRecoveryCode padding_kdf (js "WRONG12") h = true.
Proof. eexists. repeat split; vm_compute; reflexivity. Qed.


(** ** Recovery codes *)

Lemma string_append_assoc (a b c : string) :
  String.append (String.append a b) c = String.append a (String.append b c).
Proof. induction a as [|x a IH]; [reflexivity|]. cbn. now rewrite IH. Qed.

Lemma string_of_list_length (l : list ascii) :
  String.length (String.string_of_list_ascii l) = length l.
Proof. induction l as [|x l IH]; [reflexivity|]. cbn. now rewrite IH. Qed.

Lemma char_at_charset (x : Z) :
  0 <= x < 32 ->
  char_at CODE_CHARSET x = String.String (charset_char x) String.EmptyString.
Proof.
  intro Hx. unfold char_at, charset_char.
  destruct (Z.ltb_spec x 0); [lia|].
  assert (Hn : (Z.to_nat x < 32)%nat) by lia.
  generalize dependent (Z.to_nat x). intros n Hn.
  do 32 (destruct n as [|n]; [reflexivity|]). lia.
Qed.

Lemma charset_char_in (x : Z) : 0 <= x < 32 -> In (charset_char x) charset_chars.
Proof. intro Hx. unfold charset_char. apply nth_In. change (length charset_chars) with 32%nat. lia. Qed.

Lemma randomInt_charset (t : Entropy) :
  randomInt 0 (Z.of_nat (String.length CODE_CHARSET)) t = (Ok (t 0%nat mod 32), advance 1 t).
Proof. reflexivity. Qed.

Lemma generate_code_spec (j : nat) :
  forall (code : string) (t : Entropy),
  exists t',
    generate_code j code t =
      (Ok (String.append code
             (String.string_of_list_ascii
                (map (fun k => charset_char (t k mod 32)) (seq 0 j)))), t') /\
    forall i, t' i = t (j + i)%nat.
Proof.
  induction j as [|j IH]; intros code t.
  - exists t. split; [|reflexivity]. cbn [generate_code seq map String.string_of_list_ascii].
    unfold ret. f_equal. f_equal. induction code as [|x code IHc]; [reflexivity|].
    cbn. now rewrite <- IHc.
  - cbn [generate_code]. unfold bind at 1. rewrite randomInt_charset.
    destruct (IH (String.append code (char_at CODE_CHARSET (t 0%nat mod 32))) (advance 1 t))
      as [t' [E Ht']].
    exists t'. split; [|intro i; rewrite Ht'; reflexivity].
    rewrite E. f_equal. f_equal.
    rewrite char_at_charset by (apply Z.mod_pos_bound; lia).
    rewrite string_append_assoc. cbn [seq map String.string_of_list_ascii String.append].
    f_equal. f_equal. f_equal. rewrite <- seq_shift, map_map. reflexivity.
Qed.

Lemma code_of_shift (t t' : Entropy) (i : nat) :
  (forall k, t' k = t (8 + k)%nat) -> code_of t' i = code_of t (S i).
Proof.
  intro H. unfold code_of. f_equal. apply map_ext. intro j.
  rewrite H. now replace (8 * S i + j)%nat with (8 + (8 * i + j))%nat by lia.
Qed.

Lemma generate_codes_spec (n : nat) :
  forall (codes : list string) (t : Entropy),
  exists t',
    generate_codes n codes t = (Ok (codes ++ map (code_of t) (seq 0 n)), t') /\
    forall i, t' i = t (8 * n + i)%nat.
Proof.
  induction n as [|n IH]; intros codes t.
  - exists t. split; [|reflexivity]. cbn. unfold ret. now rewrite app_nil_r.
  - cbn [generate_codes]. unfold bind at 1.
    destruct (generate_code_spec CODE_LENGTH "" t) as [t1 [E1 Ht1]]. rewrite E1.
    destruct (IH (codes ++ [String.append "" (String.string_of_list_ascii
                    (map (fun k => charset_char (t k mod 32)) (seq 0 CODE_LENGTH)))]) t1)
      as [t' [E Ht']].
    exists t'. split.
    + rewrite E. f_equal. f_equal. rewrite <- app_assoc. f_equal.
      cbn [seq map app]. f_equal.
      rewrite <- seq_shift, map_map. apply map_ext. intro i.
      apply code_of_shift. exact Ht1.
    + intro i. rewrite Ht', Ht1. f_equal. unfold CODE_LENGTH. lia.
Qed.

Lemma code_of_length (t : Entropy) (i : nat) : String.length (code_of t i) = 8%nat.
Proof. unfold code_of. now rewrite string_of_list_length, length_map, length_seq. Qed.

Lemma code_of_chars (t : Entropy) (i : nat) :
  Forall (fun ch => In ch charset_chars) (String.list_ascii_of_string (code_of t i)).
Proof.
  unfold code_of. rewrite String.list_ascii_of_string_of_list_ascii.
  apply Forall_forall. intros ch Hch. apply in_map_iff in Hch as [j [<- _]].
  apply charset_char_in, Z.mod_pos_bound. lia.
Qed.

(** C8 (recovery-code generation), amended.  Every call returns exactly
    10 codes of exactly 8 characters, each character taken from the
    32-character alphabet ABCDEFGHJKLMNPQRSTUVWXYZ23456789, which has none
    of 0, O, 1 and I but does contain L; character [j] of code [i] is the
    alphabet's character at the index drawn by draw [8 i + j], and the
    batch consumes exactly 80 draws. *)
Theorem generateRecoveryCodes_batch (t : Entropy) :
  exists codes,
    fst (generateRecoveryCodes t) = Ok codes /\
    length codes = 10%nat /\
    Forall (fun code =>
              String.length code = 8%nat /\
              Forall (fun ch => In ch charset_chars) (String.list_ascii_of_string code))
           codes /\
    (forall ch, In ch (String.list_ascii_of_string "0O1I") -> ~ In ch charset_chars) /\
    In "L"%char charset_chars /\
    length charset_chars = 32%nat /\
    codes = map (code_of t) (seq 0 10) /\
    (forall i, snd (generateRecoveryCodes t) i = t (80 + i)%nat).
Proof.
  unfold generateRecoveryCodes.
  destruct (generate_codes_spec CODE_COUNT [] t) as [t' [E Ht']].
  rewrite E. cbn [fst snd app]. exists (map (code_of t) (seq 0 CODE_COUNT)).
  split; [reflexivity|].
  split; [now rewrite length_map, length_seq|].
  split.
  { apply Forall_forall. intros code Hc. apply in_map_iff in Hc as [i [<- _]].
    split; [apply code_of_length|apply code_of_chars]. }
  split.
  { intros ch Hch Hin. cbn in Hch.
    repeat (destruct Hch as [<-|Hch]; [vm_compute in Hin; intuition discriminate|]).
    exact Hch. }
  split; [vm_compute; intuition|].
  split; [reflexivity|].
  split; [reflexivity|].
  intro i. rewrite Ht'. reflexivity.
Qed.

(** C8, refuted as stated: when every draw is 10, the batch is ten times
    the code LLLLLLLL, so it contains the letter L and it contains
    duplicates. *)
Lemma recovery_codes_repeat_L :
  fst (generateRecoveryCodes (fun _ => 10)) = Ok (repeat "LLLLLLLL"%string 10) /\
  ~ NoDup (repeat "LLLLLLLL"%string 10).
Proof.
  split; [vm_compute; reflexivity|].
  intro H. inversion H as [|x l Hnotin _]; subst. apply Hnotin. now left.
Qed.

(** ** Further properties of the engine *)

(** A key that is not 32 bytes long is refused by [encrypt] and by
    [decrypt] with the key-length error, before any randomness is drawn
    and without any output. *)
Theorem key_length_guard (p key : Buffer) (e : EncryptedData) (t : Entropy) :
  length key <> 32%nat ->
  encrypt p key t = (Throw key_length_error, t) /\
  decrypt e key = Throw key_length_error /\
  kind_of key_length_error = Some InvalidKeyLength.
Proof.
  intro Hk. split; [now apply encrypt_bad_key|]. split; [|reflexivity].
  now apply decrypt_bad_key.
Qed.

Lemma key_length_guard_witness :
  encrypt [1] (repeat 0 16) (fun _ => 0) = (Throw key_length_error, fun _ => 0) /\
  decrypt (mkEncryptedData [] [] []) (repeat 0 16) = Throw key_length_error /\
  kind_of key_length_error = Some InvalidKeyLength.
Proof.
  apply (key_length_guard [1] (repeat 0 16) (mkEncryptedData [] [] []) (fun _ => 0)).
  discriminate.
Defined.

(** The blob [encrypt] returns has a ciphertext as long as the plaintext,
    a 12-byte nonce and a 16-byte tag, and survives the wire format:
    serialized and deserialized again, it still decrypts to the
    plaintext. *)
Theorem encrypt_shape_and_wire (p key : Buffer) (t : Entropy) :
  length key = 32%nat ->
  exists e,
    fst (encrypt p key t) = Ok e /\
    length (ciphertext e) = length p /\
    length (nonce e) = 12%nat /\
    length (tag e) = 16%nat /\
    length (serializeEncrypted e) = (length p + 28)%nat /\
    deserializeEncrypted (serializeEncrypted e) = Ok e /\
    decrypt e key = Ok p.
Proof.
  intro Hk. exists (sealed_with (drawn 12 t) p key).
  rewrite encrypt_ok by assumption.
  assert (Hc : length (ciphertext (sealed_with (drawn 12 t) p key)) = length p).
  { unfold sealed_with, GCM.seal, GCM.keystream_xor; cbn [fst ciphertext]. apply gctr_length. }
  assert (Hn : length (nonce (sealed_with (drawn 12 t) p key)) = 12%nat) by apply drawn_length.
  assert (Ht : length (tag (sealed_with (drawn 12 t) p key)) = 16%nat)
    by (unfold sealed_with, GCM.seal; cbn [snd tag]; apply tag_length).
  repeat split; try assumption.
  - rewrite serializeEncrypted_length, Hc, Hn, Ht. lia.
  - now apply deserialize_serialize.
  - apply decrypt_sealed; [assumption|apply drawn_nonempty|apply drawn_short].
Qed.

Lemma encrypt_shape_and_wire_witness :
  exists e,
    fst (encrypt [104; 101; 108; 108; 111] (repeat 4 32) (fun i => Z.of_nat i)) = Ok e /\
    length (ciphertext e) = length [104; 101; 108; 108; 111] /\
    length (nonce e) = 12%nat /\
    length (tag e) = 16%nat /\
    length (serializeEncrypted e) = (length [104; 101; 108; 108; 111] + 28)%nat /\
    deserializeEncrypted (serializeEncrypted e) = Ok e /\
    decrypt e (repeat 4 32) = Ok [104; 101; 108; 108; 111].
Proof.
  apply (encrypt_shape_and_wire [104; 101; 108; 108; 111] (repeat 4 32) (fun i => Z.of_nat i)).
  reflexivity.
Defined.

(** [verifyKEK] answers whether the sample unwraps: [true] for a sample
    wrapped under the same 32-byte KEK, [false] for a KEK of any other
    length. *)
Theorem verifyKEK_spec (kek : Buffer) (w : EncryptedData) :
  (verifyKEK kek w = true <-> exists d, unwrapDEK w kek = Ok d) /\
  (length kek = 32%nat ->
   forall dek t, exists w', fst (wrapDEK dek kek t) = Ok w' /\ verifyKEK kek w' = true) /\
  (length kek <> 32%nat -> verifyKEK kek w = false).
Proof.
  unfold verifyKEK. split; [|split].
  - destruct (unwrapDEK w kek) as [d|e]; split; intro H; try discriminate; try reflexivity.
    + now exists d.
    + destruct H as [d H]. discriminate.
  - intros Hk dek t. exists (sealed_with (drawn 12 t) dek kek).
    unfold wrapDEK, unwrapDEK. rewrite encrypt_ok by assumption. split; [reflexivity|].
    rewrite decrypt_sealed; [reflexivity|assumption|apply drawn_nonempty|apply drawn_short].
  - intro Hk. unfold unwrapDEK. now rewrite decrypt_bad_key.
Qed.

(** Both wrapping directions of the device-key distributor give back
    what was wrapped, under 32-byte keys. *)
Theorem device_key_roundtrip (kek deviceKey : Buffer) (t : Entropy) :
  length kek = 32%nat -> length deviceKey = 32%nat ->
  (exists w, fst (wrapKEKWithDeviceKey kek deviceKey t) = Ok w /\
             unwrapKEKWithDeviceKey w deviceKey = Ok kek) /\
  (exists w, fst (wrapDeviceKeyWithKEK deviceKey kek t) = Ok w /\
             unwrapDeviceKeyWithKEK w kek = Ok deviceKey).
Proof.
  intros Hk Hd.
  unfold wrapKEKWithDeviceKey, unwrapKEKWithDeviceKey, wrapDeviceKeyWithKEK,
    unwrapDeviceKeyWithKEK, wrapDEK, unwrapDEK.
  split; eexists; rewrite encrypt_ok by assumption; (split; [reflexivity|]);
    apply decrypt_sealed; try assumption; first [apply drawn_nonempty|apply drawn_short].
Qed.

Lemma device_key_roundtrip_witness :
  (exists w, fst (wrapKEKWithDeviceKey (repeat 1 32) (repeat 2 32) (fun _ => 5)) = Ok w /\
             unwrapKEKWithDeviceKey w (repeat 2 32) = Ok (repeat 1 32)) /\
  (exists w, fst (wrapDeviceKeyWithKEK (repeat 2 32) (repeat 1 32) (fun _ => 5)) = Ok w /\
             unwrapDeviceKeyWithKEK w (repeat 1 32) = Ok (repeat 2 32)).
Proof.
  apply (device_key_roundtrip (repeat 1 32) (repeat 2 32) (fun _ => 5)); reflexivity.
Defined.

Lemma rewrap_item_ok (oldKey newKey : Buffer) (item : WrappedItem) (dek : Buffer) (t : Entropy) :
  length newKey = 32%nat -> unwrapDEK (wrappedDEK item) oldKey = Ok dek ->
  rewrap_item oldKey newKey item t =
  (Ok (mkWrappedItem (id item) (sealed_with (drawn 12 t) dek newKey)), advance 12 t).
Proof.
  intros Hn Hw. unfold rewrap_item, bind, lift, wrapDEK. rewrite Hw.
  now rewrite encrypt_ok.
Qed.

Lemma array_map_rewrap_ok (oldKey newKey : Buffer) (items : list WrappedItem)
    (deks : list Buffer) :
  length newKey = 32%nat ->
  Forall2 (fun item d => unwrapDEK (wrappedDEK item) oldKey = Ok d) items deks ->
  forall t,
    array_map (rewrap_item oldKey newKey) items t =
    (Ok (rewrap_items newKey items deks t), after_wraps (length items) t).
Proof.
  intros Hn H. induction H as [|item d items deks Hw _ IH]; intro t; [reflexivity|].
  cbn [array_map]. unfold bind at 1. rewrite (rewrap_item_ok _ _ _ d) by assumption.
  unfold bind at 1. rewrite IH. reflexivity.
Qed.

Lemma rewrap_items_ids (newKey : Buffer) (items : list WrappedItem) (deks : list Buffer) :
  length items = length deks ->
  forall t, map id (rewrap_items newKey items deks t) = map id items.
Proof.
  revert deks; induction items as [|item items IH]; intros [|d deks] H t; try discriminate;
    [reflexivity|].
  cbn. f_equal. apply IH. now injection H.
Qed.

Lemma rewrap_items_unwrap (newKey : Buffer) (items : list WrappedItem) (deks : list Buffer) :
  length newKey = 32%nat -> length items = length deks ->
  forall t,
    Forall2 (fun item d => unwrapDEK (wrappedDEK item) newKey = Ok d)
            (rewrap_items newKey items deks t) deks.
Proof.
  intro Hn. revert deks; induction items as [|item items IH]; intros [|d deks] H t;
    try discriminate; [constructor|].
  cbn [rewrap_items]. constructor.
  - cbn [wrappedDEK]. apply decrypt_sealed; [assumption|apply drawn_nonempty|apply drawn_short].
  - apply IH. now injection H.
Qed.

Section PasswordFlows.

Variable argon2id : Z -> Z -> Z -> nat -> Buffer -> Buffer -> Buffer.

Hypothesis argon2id_length : forall m c p n s pw, length (argon2id m c p n s pw) = n.

(** Password-change rotation.  When the old password and salt derive a
    KEK under which every item unwraps, [rotateUserKEK] returns a KEK
    derived from the new password with a fresh 16-byte salt, and the
    items in their order, each under its own id and unwrapping under the
    new KEK to the DEK it held before; the new password and the returned
    salt derive that KEK again. *)
Theorem rotateUserKEK_rewraps (oldPassword newPassword : JSString) (oldSalt : Buffer)
    (items : list WrappedItem) (deks : list Buffer) (t t' : Entropy) :
  (8 <= length oldSalt)%nat ->
  Forall2 (fun item d =>
             unwrapDEK (wrappedDEK item)
                       (argon2id 65536 3 4 32%nat oldSalt (Buffer_from oldPassword)) = Ok d)
          items deks ->
  exists r,
    fst (rotateUserKEK argon2id oldPassword newPassword oldSalt items t) = Ok r /\
    KEKParams.salt (newKEK r) = drawn 16 t /\
    fst (deriveKEK argon2id newPassword (Some (KEKParams.salt (newKEK r))) t') = Ok (newKEK r) /\
    map id (reWrappedDEKs r) = map id items /\
    Forall2 (fun item d => unwrapDEK (wrappedDEK item) (KEKParams.key (newKEK r)) = Ok d)
            (reWrappedDEKs r) deks.
Proof.
  intros Hs H. unfold rotateUserKEK. unfold bind at 1.
  rewrite deriveKEK_with_salt, argon2_hash_raw_ok by assumption.
  unfold bind at 1. rewrite deriveKEK_fresh_salt. cbn [KEKParams.key].
  unfold bind at 1.
  rewrite (array_map_rewrap_ok _ _ _ deks); [|apply argon2id_length|assumption].
  eexists. split; [reflexivity|]. cbn [newKEK reWrappedDEKs KEKParams.salt KEKParams.key].
  split; [reflexivity|].
  split.
  { rewrite deriveKEK_with_salt, argon2_hash_raw_ok; [reflexivity|].
    rewrite drawn_length. lia. }
  pose proof (Forall2_length_eq _ _ _ H) as Hl.
  split; [now apply rewrap_items_ids|].
  apply rewrap_items_unwrap; [apply argon2id_length|assumption].
Qed.

(** The registration scenario.  A KEK is derived from the secret with a
    fresh salt, a wrapped DEK is generated under it and the payload is
    encrypted with the DEK; later the KEK re-derived from the same secret
    and the stored salt unwraps the DEK, which decrypts the payload. *)
Theorem registration_scenario (secret : JSString) (payload : Buffer) (t t' : Entropy) :
  exists kek d blob t1 t2 t3 kek' dek,
    deriveKEK argon2id secret None t = (Ok kek, t1) /\
    generateWrappedDEK (KEKParams.key kek) t1 = (Ok d, t2) /\
    encrypt payload (DEK.key d) t2 = (Ok blob, t3) /\
    fst (deriveKEK argon2id secret (Some (KEKParams.salt kek)) t') = Ok kek' /\
    unwrapDEK (DEK.wrapped d) (KEKParams.key kek') = Ok dek /\
    decrypt blob dek = Ok payload.
Proof.
  do 8 eexists.
  split; [apply deriveKEK_fresh_salt|]. cbn [KEKParams.key KEKParams.salt].
  split; [apply generateWrappedDEK_ok, argon2id_length|]. cbn [DEK.key DEK.wrapped].
  split; [apply encrypt_ok, drawn_length|].
  split.
  { rewrite deriveKEK_with_salt, argon2_hash_raw_ok; [reflexivity|].
    rewrite drawn_length. lia. }
  cbn [KEKParams.key]. split.
  - apply decrypt_sealed; [apply argon2id_length|apply drawn_nonempty|apply drawn_short].
  - apply decrypt_sealed; [apply drawn_length|apply drawn_nonempty|apply drawn_short].
Qed.

End PasswordFlows.

Lemma registration_scenario_witness :
  let secret := js "Sup3r$ecret" in
  let payload := [104; 101; 108; 108; 111] in
  let t : Entropy := fun i => Z.of_nat (7 * i + 1) in
  let t' : Entropy := fun _ => 0 in
  exists kek d blob t1 t2 t3 kek' dek,
    deriveKEK padding_kdf secret None t = (Ok kek, t1) /\
    generateWrappedDEK (KEKParams.key kek) t1 = (Ok d, t2) /\
    encrypt payload (DEK.key d) t2 = (Ok blob, t3) /\
    fst (deriveKEK padding_kdf secret (Some (KEKParams.salt kek)) t') = Ok kek' /\
    unwrapDEK (DEK.wrapped d) (KEKParams.key kek') = Ok dek /\
    decrypt blob dek = Ok payload.
Proof.
  apply (registration_scenario padding_kdf padding_kdf_length (js "Sup3r$ecret")
           [104; 101; 108; 108; 111] (fun i => Z.of_nat (7 * i + 1)) (fun _ => 0)).
Defined.

Lemma rotateUserKEK_rewraps_witness :
  let oldKey := padding_kdf 65536 3 4 32 (repeat 9 16) (Buffer_from (js "old password")) in
  let item := mkWrappedItem "item-1"%string (sealed_with (repeat 0 12) (repeat 3 32) oldKey) in
  let t : Entropy := fun i => Z.of_nat i in
  let t' : Entropy := fun _ => 0 in
  exists r,
    fst (rotateUserKEK padding_kdf (js "old password") (js "new password") (repeat 9 16)
           [item] t) = Ok r /\
    KEKParams.salt (newKEK r) = drawn 16 t /\
    fst (deriveKEK padding_kdf (js "new password") (Some (KEKParams.salt (newKEK r))) t')
      = Ok (newKEK r) /\
    map id (reWrappedDEKs r) = map id [item] /\
    Forall2 (fun item d => unwrapDEK (wrappedDEK item) (KEKParams.key (newKEK r)) = Ok d)
            (reWrappedDEKs r) [repeat 3 32].
Proof.
  apply (rotateUserKEK_rewraps padding_kdf padding_kdf_length
           (js "old password") (js "new password") (repeat 9 16)
           [mkWrappedItem "item-1"%string
              (sealed_with (repeat 0 12) (repeat 3 32)
                 (padding_kdf 65536 3 4 32 (repeat 9 16) (Buffer_from (js "old password"))))]
           [repeat 3 32] (fun i => Z.of_nat i) (fun _ => 0)).
  - cbn. lia.
  - constructor; [vm_compute; reflexivity|constructor].
Defined.

(** Password-less rotation.  [rotateKEKWithoutPassword] draws a fresh
    32-byte KEK and returns it with the items in their order, each under
    its own id and unwrapping under the new KEK to the DEK it held under
    the current one. *)
Theorem rotateKEKWithoutPassword_rewraps (currentKEK : Buffer) (items : list WrappedItem)
    (deks : list Buffer) (t : Entropy) :
  Forall2 (fun item d => unwrapDEK (wrappedDEK item) currentKEK = Ok d) items deks ->
  exists fresh res,
    fst (rotateKEKWithoutPassword currentKEK items t) = Ok (fresh, res) /\
    fresh = drawn 32 t /\ length fresh = 32%nat /\
    map id res = map id items /\
    Forall2 (fun item d => unwrapDEK (wrappedDEK item) fresh = Ok d) res deks.
Proof.
  intro H. unfold rotateKEKWithoutPassword, bind at 1, randomBytes.
  unfold bind at 1.
  rewrite (array_map_rewrap_ok _ _ _ deks); [|apply drawn_length|assumption].
  do 2 eexists. split; [reflexivity|]. split; [reflexivity|].
  split; [apply drawn_length|].
  pose proof (Forall2_length_eq _ _ _ H) as Hl.
  split; [now apply rewrap_items_ids|].
  apply rewrap_items_unwrap; [apply drawn_length|assumption].
Qed.

Lemma rotateKEKWithoutPassword_rewraps_witness :
  let k := repeat 1 32 in
  let item := mkWrappedItem "a"%string (sealed_with (repeat 0 12) (repeat 3 32) k) in
  let t : Entropy := fun i => Z.of_nat i in
  exists fresh res,
    fst (rotateKEKWithoutPassword k [item] t) = Ok (fresh, res) /\
    fresh = drawn 32 t /\ length fresh = 32%nat /\
    map id res = map id [item] /\
    Forall2 (fun item d => unwrapDEK (wrappedDEK item) fresh = Ok d) res [repeat 3 32].
Proof.
  apply (rotateKEKWithoutPassword_rewraps (repeat 1 32)
           [mkWrappedItem "a"%string (sealed_with (repeat 0 12) (repeat 3 32) (repeat 1 32))]
           [repeat 3 32] (fun i => Z.of_nat i)).
  constructor; [vm_compute; reflexivity|constructor].
Defined.

(** ** SHA-256 and hexadecimal text *)

(** The constants as FIPS 180-4 prints them: the first and the last
    round constant, and the initial hash value. *)
Example sha256_constants :
  nth 0 SHA256.K 0 = 0x428a2f98 /\ nth 63 SHA256.K 0 = 0xc67178f2 /\ length SHA256.K = 64%nat /\
  SHA256.sa SHA256.H0 = 0x6a09e667 /\ SHA256.sh SHA256.H0 = 0x5be0cd19.
Proof. vm_compute. repeat split. Qed.

(** FIPS 180-4, the one-block and the two-block example, and the empty
    message. *)
Example sha256_abc :
  sha256_hex "abc" = "ba7816bf8f01cfea414140de5dae2223b00361a396177a9cb410ff61f20015ad"%string.
Proof. vm_compute. reflexivity. Qed.

Example sha256_two_blocks :
  sha256_hex "abcdbcdecdefdefgefghfghighijhijkijkljklmklmnlmnomnopnopq"
  = "248d6a61d20638b8e5c026930c3e6039a33ce45964ff2167f6ecedd419db06c1"%string.
Proof. vm_compute. reflexivity. Qed.

Example sha256_empty :
  sha256_hex "" = "e3b0c44298fc1c149afbf4c8996fb92427ae41e4649b934ca495991b7852b855"%string.
Proof. vm_compute. reflexivity. Qed.

Lemma digest_length (msg : Buffer) : length (SHA256.digest msg) = 32%nat.
Proof. unfold SHA256.digest. cbv zeta. rewrite !length_app, !be_bytes_length. reflexivity. Qed.

Lemma digest_bytes (msg : Buffer) : Forall is_byte (SHA256.digest msg).
Proof.
  unfold SHA256.digest. cbv zeta. repeat (apply Forall_app; split); apply be_bytes_bytes.
Qed.

Lemma toString_hex_length (buf : Buffer) :
  String.length (toString_hex buf) = (2 * length buf)%nat.
Proof. induction buf as [|b rest IH]; [reflexivity|]. cbn [toString_hex String.length length]. lia. Qed.

Lemma hex_digit_char (n : Z) : is_hex_char (hex_digit n).
Proof.
  unfold hex_digit, is_hex_char.
  destruct (String.get (Z.to_nat n) hex_digits) as [c|] eqn:E.
  - revert E. generalize (Z.to_nat n). intro k.
    do 16 (destruct k as [|k]; [intro E; injection E as <-; cbn; tauto|]).
    discriminate.
  - cbn. tauto.
Qed.

Lemma toString_hex_chars (buf : Buffer) :
  Forall is_hex_char (String.list_ascii_of_string (toString_hex buf)).
Proof.
  induction buf as [|b rest IH]; [constructor|].
  cbn [toString_hex String.list_ascii_of_string].
  constructor; [apply hex_digit_char|]. constructor; [apply hex_digit_char|exact IH].
Qed.

Lemma hex_nibble_digit (n : Z) : 0 <= n < 16 -> hex_nibble (hex_digit n) = n.
Proof.
  intro H. rewrite <- (Z2Nat.id n) at 2 by lia.
  assert (Hk : (Z.to_nat n < 16)%nat) by lia.
  unfold hex_digit. generalize dependent (Z.to_nat n). clear. intros k Hk.
  do 16 (destruct k as [|k]; [reflexivity|]). lia.
Qed.

Lemma hex_digit_inj (m n : Z) :
  0 <= m < 16 -> 0 <= n < 16 -> hex_digit m = hex_digit n -> m = n.
Proof.
  intros Hm Hn E. rewrite <- (hex_nibble_digit m Hm), <- (hex_nibble_digit n Hn). now rewrite E.
Qed.

(** The text determines the bytes. *)
Lemma toString_hex_inj (a b : Buffer) :
  Forall is_byte a -> Forall is_byte b -> toString_hex a = toString_hex b -> a = b.
Proof.
  intro Ha. revert b. induction Ha as [|x a Hx _ IH]; intros b Hb E.
  - destruct b; [reflexivity|discriminate].
  - destruct Hb as [|y b Hy Hb]; [discriminate|].
    cbn [toString_hex] in E. injection E as E1 E2 E3.
    unfold is_byte in Hx, Hy.
    apply hex_digit_inj in E1; [|split; [apply Z.div_pos|apply Z.div_lt_upper_bound]; lia ..].
    apply hex_digit_inj in E2; [|apply Z.mod_pos_bound; lia ..].
    f_equal; [|apply IH; assumption].
    rewrite (Z.div_mod x 16), (Z.div_mod y 16) by lia. congruence.
Qed.

(** ** The device fingerprint *)

Lemma string_append_nil_r (s : string) : String.append s "" = s.
Proof. induction s as [|c s IH]; [reflexivity|]. cbn. now rewrite IH. Qed.

Lemma or_string_some (s : string) : or_string (Some s) "" = s.
Proof.
  unfold or_string. destruct (String.eqb_spec s ""%string) as [->|]; reflexivity.
Qed.

(** The fingerprint is 64 characters of lower-case hexadecimal text, and
    it is a function of the concatenation of its two arguments only: an
    absent second argument counts as the empty string, and moving
    characters from one argument to the other does not change it. *)
Theorem generateDeviceFingerprint_spec (userAgent : string) (additionalInfo : option string) :
  String.length (generateDeviceFingerprint userAgent additionalInfo) = 64%nat /\
  Forall is_hex_char
    (String.list_ascii_of_string (generateDeviceFingerprint userAgent additionalInfo)) /\
  generateDeviceFingerprint userAgent additionalInfo =
    sha256_hex (String.append userAgent (match additionalInfo with Some s => s | None => "" end)) /\
  (forall a b : string,
     generateDeviceFingerprint (String.append userAgent a) (Some b) =
     generateDeviceFingerprint userAgent (Some (String.append a b))).
Proof.
  unfold generateDeviceFingerprint, sha256_hex. cbv zeta.
  split; [now rewrite toString_hex_length, digest_length|].
  split; [apply toString_hex_chars|].
  split.
  - destruct additionalInfo as [s|]; [now rewrite or_string_some|reflexivity].
  - intros a b. now rewrite !or_string_some, string_append_assoc.
Qed.

(** Two different pairs of arguments with one fingerprint. *)
Example fingerprint_of_mozilla :
  generateDeviceFingerprint "Mozilla/5.0" None
  = "1066b48224bb188ceb955605f4fcff98893be2688d7e965afb04d36d17e7f0d7"%string /\
  generateDeviceFingerprint "Mozilla/" (Some "5.0"%string)
  = generateDeviceFingerprint "Mozilla/5.0" (Some ""%string).
Proof. vm_compute. split; reflexivity. Qed.

(** ** Decimal text *)

Lemma decimal_digit_char (d : Z) : 0 <= d < 10 -> is_decimal_char (decimal_digit d).
Proof.
  intro Hd. unfold is_decimal_char, decimal_digit.
  rewrite nat_ascii_embedding by lia. lia.
Qed.

Lemma decimal_digits_length (k : nat) :
  forall (n : Z) (fuel : nat) (acc : string),
    0 <= n < 10 ^ Z.of_nat (S k) -> (k = 0%nat \/ 10 ^ Z.of_nat k <= n) -> (S k <= fuel)%nat ->
    String.length (decimal_digits fuel n acc) = (S k + String.length acc)%nat.
Proof.
  induction k as [|k IH]; intros n fuel acc Hn Hlow Hf;
    (destruct fuel as [|fuel]; [lia|]); cbn [decimal_digits].
  - change (10 ^ Z.of_nat 1) with 10 in Hn.
    destruct (Z.ltb_spec n 10); [reflexivity|lia].
  - destruct Hlow as [Hk|Hlow]; [discriminate|].
    assert (E : forall j, 10 ^ Z.of_nat (S j) = 10 * 10 ^ Z.of_nat j)
      by (intro j; rewrite Nat2Z.inj_succ, Z.pow_succ_r; lia).
    rewrite E in Hlow. rewrite !E in Hn.
    assert (P : 0 < 10 ^ Z.of_nat k) by (apply Z.pow_pos_nonneg; lia).
    destruct (Z.ltb_spec n 10); [nia|].
    rewrite IH.
    + cbn [String.length]. lia.
    + rewrite E. split; [apply Z.div_pos; lia|]. apply Z.div_lt_upper_bound; lia.
    + destruct k as [|k]; [now left|right].
      apply Z.div_le_lower_bound; lia.
    + lia.
Qed.

Lemma decimal_digits_chars (fuel : nat) :
  forall (n : Z) (acc : string),
    0 <= n ->
    Forall is_decimal_char (String.list_ascii_of_string acc) ->
    Forall is_decimal_char (String.list_ascii_of_string (decimal_digits fuel n acc)).
Proof.
  induction fuel as [|fuel IH]; intros n acc Hn Hacc; [exact Hacc|].
  cbn [decimal_digits].
  assert (Hacc' : Forall is_decimal_char
            (String.list_ascii_of_string (String.String (decimal_digit (n mod 10)) acc))).
  { cbn [String.list_ascii_of_string]. constructor; [|exact Hacc].
    apply decimal_digit_char, Z.mod_pos_bound. lia. }
  destruct (n <? 10); [exact Hacc'|].
  apply IH; [apply Z.div_pos; lia|exact Hacc'].
Qed.

(** An eight-digit number is written with eight digits. *)
Lemma Number_toString_eight (n : Z) :
  10000000 <= n < 100000000 ->
  String.length (Number_toString n) = 8%nat /\
  Forall is_decimal_char (String.list_ascii_of_string (Number_toString n)).
Proof.
  intro Hn. unfold Number_toString.
  destruct (Z.ltb_spec n 0); [lia|].
  split.
  - rewrite (decimal_digits_length 7); [reflexivity| | |].
    + change (10 ^ Z.of_nat 8) with 100000000. lia.
    + right. change (10 ^ Z.of_nat 7) with 10000000. lia.
    + assert (L : Z.log2 10000000 <= Z.log2 n) by (apply Z.log2_le_mono; lia).
      change (Z.log2 10000000) with 23 in L. lia.
  - apply decimal_digits_chars; [lia|constructor].
Qed.

(** ** Backup codes *)

Lemma randomInt_backup (t : Entropy) :
  randomInt 10000000 99999999 t = (Ok (10000000 + t 0%nat mod 89999999), advance 1 t).
Proof. reflexivity. Qed.

Lemma generateBackupCodes_loop_spec (i : nat) :
  forall (codes : list string) (t : Entropy),
    generateBackupCodes_loop i codes t =
    (Ok (codes ++ map (backup_code_of t) (seq 0 i)), advance i t).
Proof.
  induction i as [|i IH]; intros codes t.
  - cbn [generateBackupCodes_loop seq map]. now rewrite app_nil_r.
  - cbn [generateBackupCodes_loop]. unfold bind. rewrite randomInt_backup, IH.
    rewrite <- app_assoc. cbn [app seq map].
    replace (map (backup_code_of (advance 1 t)) (seq 0 i)) with (map (backup_code_of t) (seq 1 i));
      [reflexivity|].
    rewrite <- seq_shift, map_map. apply map_ext. intro j. reflexivity.
Qed.

(** [generateBackupCodes] returns as many codes as asked for (ten when
    the count is left out, none for a count of zero or less), one draw of
    the random source each; every code is the decimal text, eight digits
    long, of a number from 10000000 to 99999998. *)
Theorem generateBackupCodes_batch (count : option Z) (t : Entropy) :
  let n := Z.to_nat (match count with Some c => c | None => 10 end) in
  exists codes,
    generateBackupCodes count t = (Ok codes, advance n t) /\
    length codes = n /\
    (forall j, (j < n)%nat -> nth j codes ""%string = backup_code_of t j) /\
    (forall code, In code codes ->
       String.length code = 8%nat /\
       Forall is_decimal_char (String.list_ascii_of_string code) /\
       exists v, 10000000 <= v <= 99999998 /\ code = Number_toString v).
Proof.
  intro n. unfold generateBackupCodes. fold n.
  rewrite generateBackupCodes_loop_spec. cbn [app].
  eexists. split; [reflexivity|]. split; [now rewrite length_map, length_seq|]. split.
  - intros j Hj.
    rewrite (nth_indep _ ""%string (backup_code_of t 0)) by (now rewrite length_map, length_seq).
    rewrite (map_nth (backup_code_of t)), seq_nth by assumption. reflexivity.
  - intros code Hin. apply in_map_iff in Hin as [j [<- _]]. unfold backup_code_of.
    pose proof (Z.mod_pos_bound (t j) 89999999 ltac:(lia)) as B.
    destruct (Number_toString_eight (10000000 + t j mod 89999999)) as [L C]; [lia|].
    split; [exact L|]. split; [exact C|].
    eexists. split; [|reflexivity]. lia.
Qed.

(** Nothing compares the codes of a batch. *)
Example backup_codes_repeat :
  fst (generateBackupCodes (Some 3) (fun _ => 5)) = Ok ["10000005"; "10000005"; "10000005"]%string.
Proof. vm_compute. reflexivity. Qed.

Section Verifiers.

Variable argon2id : Z -> Z -> Z -> nat -> Buffer -> Buffer -> Buffer.

Hypothesis argon2id_length : forall m c p n s pw, length (argon2id m c p n s pw) = n.

Lemma argon2_hash_ok (password : JSString) (t : Entropy) :
  argon2_hash argon2id password 65536 3 4 t =
  (Ok (PHC 65536 3 4 (drawn 16 t) (argon2id 65536 3 4 32%nat (drawn 16 t) (Buffer_from password))),
   advance 16 t).
Proof.
  unfold argon2_hash, bind, ret, lift, randomBytes.
  rewrite argon2_hash_raw_ok by (rewrite drawn_length; lia). reflexivity.
Qed.

(** [argon2.verify] resolves on every digest the hash functions of this
    code base make, whatever the candidate. *)
Lemma argon2_verify_resolves (password candidate : JSString) (t : Entropy) :
  exists b,
    argon2_verify argon2id
      (PHC 65536 3 4 (drawn 16 t) (argon2id 65536 3 4 32%nat (drawn 16 t) (Buffer_from password)))
      candidate = Ok b.
Proof.
  unfold argon2_verify, result_bind.
  rewrite argon2_hash_raw_valid by (rewrite ?argon2id_length, ?drawn_length; lia).
  eexists. reflexivity.
Qed.

(** ** auth.ts *)

(** [authenticatePassword] reports success for every candidate password
    on every digest [hashPassword] produces, since [verifyPassword] does
    not look at what [argon2.verify] resolves to; it reports 'Invalid
    password' exactly when [argon2.verify] rejects the digest. *)
Theorem authenticatePassword_accepts_any (password candidate : JSString) (t : Entropy) :
  (exists h,
     fst (hashPassword argon2id password t) = Ok h /\
     (exists b, argon2_verify argon2id h candidate = Ok b) /\
     verifyPassword argon2id candidate h = true /\
     authenticatePassword argon2id candidate h = mkAuthResult true None) /\
  (forall h,
     authenticatePassword argon2id candidate h = mkAuthResult false (Some "Invalid password"%string)
     <-> exists e, argon2_verify argon2id h candidate = Throw e).
Proof.
  split.
  - unfold hashPassword. rewrite argon2_hash_ok. eexists. split; [reflexivity|].
    unfold authenticatePassword, verifyPassword.
    destruct (argon2_verify_resolves password candidate t) as [b Hb].
    rewrite Hb. split; [now exists b|]. split; reflexivity.
  - intro h. unfold authenticatePassword, verifyPassword.
    destruct (argon2_verify argon2id h candidate) as [b|e]; cbn [negb]; split; intro H.
    + discriminate.
    + destruct H as [e H]. discriminate.
    + now exists e.
    + reflexivity.
Qed.

(** ** sessions.ts *)

(** [verifyRefreshToken] accepts every candidate token on every digest
    [hashRefreshToken] produces, and answers [false] only when
    [argon2.verify] rejects the digest. *)
Theorem verifyRefreshToken_accepts_any (token candidate : JSString) (t : Entropy) :
  (exists h,
     fst (hashRefreshToken argon2id token t) = Ok h /\
     (exists b, argon2_verify argon2id h candidate = Ok b) /\
     verifyRefreshToken argon2id candidate h = true) /\
  (forall h,
     verifyRefreshToken argon2id candidate h = false
     <-> exists e, argon2_verify argon2id h candidate = Throw e).
Proof.
  split.
  - unfold hashRefreshToken. rewrite argon2_hash_ok. eexists. split; [reflexivity|].
    unfold verifyRefreshToken.
    destruct (argon2_verify_resolves token candidate t) as [b Hb].
    rewrite Hb. split; [now exists b|reflexivity].
  - intro h. unfold verifyRefreshToken.
    destruct (argon2_verify argon2id h candidate) as [b|e]; split; intro H.
    + discriminate.
    + destruct H as [e H]. discriminate.
    + now exists e.
    + reflexivity.
Qed.

(** ** mfa.ts *)

(** [verifyBackupCode] accepts every candidate code on every digest
    [hashBackupCode] produces. *)
Theorem verifyBackupCode_accepts_any (code candidate : JSString) (t : Entropy) :
  exists h,
    fst (hashBackupCode argon2id code t) = Ok h /\
    (exists b, argon2_verify argon2id h candidate = Ok b) /\
    verifyBackupCode argon2id candidate h = true.
Proof.
  unfold hashBackupCode, hashRecoveryCode. rewrite argon2_hash_ok.
  eexists. split; [reflexivity|].
  unfold verifyBackupCode, verifyRecoveryCode.
  destruct (argon2_verify_resolves code candidate t) as [b Hb].
  rewrite Hb. split; [now exists b|reflexivity].
Qed.

(** ** recovery.ts: searching the stored digests *)

Lemma verifyRecoveryCodeAgainstArray_from_spec (code : JSString) (hashes : list EncodedHash) :
  forall i : Z,
    let r := verifyRecoveryCodeAgainstArray_from argon2id i code hashes in
    (r = -1 /\ forall h, In h hashes -> verifyRecoveryCode argon2id code h = false) \/
    (exists pre h post,
       hashes = pre ++ h :: post /\ r = i + Z.of_nat (length pre) /\
       verifyRecoveryCode argon2id code h = true /\
       forall x, In x pre -> verifyRecoveryCode argon2id code x = false).
Proof.
  induction hashes as [|h rest IH]; intro i; cbn [verifyRecoveryCodeAgainstArray_from].
  - left. split; [reflexivity|]. intros h [].
  - destruct (verifyRecoveryCode argon2id code h) eqn:E.
    + right. exists [], h, rest. cbn [app length]. repeat split; try assumption; try lia.
      intros x [].
    + destruct (IH (i + 1)) as [[R F]|[pre [h' [post [-> [R [T F]]]]]]].
      * left. split; [exact R|]. intros x [<-|Hx]; [exact E|now apply F].
      * right. exists (h :: pre), h', post. cbn [app length].
        repeat split; try assumption; [lia|].
        intros x [<-|Hx]; [exact E|now apply F].
Qed.

(** [verifyRecoveryCodeAgainstArray] answers -1 when the array is empty
    or [argon2.verify] rejects every digest, and otherwise the index of
    the first digest [argon2.verify] does not reject, whether or not the
    code is the one that was hashed.  So the answer is 0 for every code
    when the first digest was made by [hashRecoveryCode], of whatever
    code, and also when it is the digest of another algorithm; a digest
    the binding rejects, such as one with a memory cost under 8, is
    passed over. *)
Theorem verifyRecoveryCodeAgainstArray_first (code : JSString) (hashes : list EncodedHash) :
  let r := verifyRecoveryCodeAgainstArray argon2id code hashes in
  ((r = -1 /\ forall h, In h hashes -> exists e, argon2_verify argon2id h code = Throw e) \/
   (exists pre h post b,
      hashes = pre ++ h :: post /\ r = Z.of_nat (length pre) /\
      argon2_verify argon2id h code = Ok b /\
      forall x, In x pre -> exists e, argon2_verify argon2id x code = Throw e)) /\
  (forall other t rest h,
     fst (hashRecoveryCode argon2id other t) = Ok h ->
     verifyRecoveryCodeAgainstArray argon2id code (h :: rest) = 0) /\
  (forall s rest, verifyRecoveryCodeAgainstArray argon2id code (Foreign s :: rest) = 0) /\
  (forall m c p salt hash other t rest h,
     0 <= m < 8 ->
     fst (hashRecoveryCode argon2id other t) = Ok h ->
     verifyRecoveryCodeAgainstArray argon2id code (PHC m c p salt hash :: h :: rest) = 1).
Proof.
  assert (V : forall h, verifyRecoveryCode argon2id code h = false ->
                        exists e, argon2_verify argon2id h code = Throw e).
  { intros h. unfold verifyRecoveryCode.
    destruct (argon2_verify argon2id h code) as [b|e]; [discriminate|]. now exists e. }
  assert (Z0 : forall other t h,
            fst (hashRecoveryCode argon2id other t) = Ok h ->
            verifyRecoveryCode argon2id code h = true).
  { intros other t h Hh. unfold hashRecoveryCode in Hh.
    rewrite argon2_hash_ok in Hh. cbn [fst] in Hh.
    assert (E : h = PHC 65536 3 4 (drawn 16 t)
                      (argon2id 65536 3 4 32%nat (drawn 16 t) (Buffer_from other)))
      by congruence.
    rewrite E. unfold verifyRecoveryCode.
    destruct (argon2_verify_resolves other code t) as [b ->]. reflexivity. }
  split; [|split; [|split]].
  - cbv zeta. unfold verifyRecoveryCodeAgainstArray.
    destruct (verifyRecoveryCodeAgainstArray_from_spec code hashes 0)
      as [[R F]|[pre [h [post [E [R [T F]]]]]]].
    + left. split; [exact R|]. intros h Hh. apply V, F, Hh.
    + right. unfold verifyRecoveryCode in T.
      destruct (argon2_verify argon2id h code) as [b|e] eqn:Eb; [|discriminate].
      exists pre, h, post, b. split; [exact E|]. split; [lia|]. split; [exact Eb|].
      intros x Hx. apply V, F, Hx.
  - intros other t rest h Hh.
    unfold verifyRecoveryCodeAgainstArray. cbn [verifyRecoveryCodeAgainstArray_from].
    now rewrite (Z0 other t h Hh).
  - intros s rest. reflexivity.
  - intros m c p salt hash other t rest h Hm Hh.
    unfold verifyRecoveryCodeAgainstArray. cbn [verifyRecoveryCodeAgainstArray_from].
    rewrite (Z0 other t h Hh).
    replace (verifyRecoveryCode argon2id code (PHC m c p salt hash)) with false; [reflexivity|].
    unfold verifyRecoveryCode, argon2_verify, argon2_hash_raw, validate_inputs,
      ARGON2_MIN_MEMORY, result_bind.
    destruct (length hash <? ARGON2_MIN_OUTLEN)%nat; [reflexivity|].
    destruct (length salt <? ARGON2_MIN_SALT_LENGTH)%nat; [reflexivity|].
    destruct (Z.ltb_spec m 8); [reflexivity|lia].
Qed.

End Verifiers.

Lemma authenticatePassword_accepts_any_witness :
  (exists h,
     fst (hashPassword padding_kdf (js "Sup3r$ecret") (fun _ => 0)) = Ok h /\
     (exists b, argon2_verify padding_kdf h (js "guess") = Ok b) /\
     verifyPassword padding_kdf (js "guess") h = true /\
     authenticatePassword padding_kdf (js "guess") h = mkAuthResult true None) /\
  (forall h,
     authenticatePassword padding_kdf (js "guess") h
     = mkAuthResult false (Some "Invalid password"%string)
     <-> exists e, argon2_verify padding_kdf h (js "guess") = Throw e).
Proof.
  apply (authenticatePassword_accepts_any padding_kdf padding_kdf_length
           (js "Sup3r$ecret") (js "guess") (fun _ => 0)).
Defined.

Lemma verifyRefreshToken_accepts_any_witness :
  (exists h,
     fst (hashRefreshToken padding_kdf (js "0f1e2d3c") (fun _ => 0)) = Ok h /\
     (exists b, argon2_verify padding_kdf h (js "ffffffff") = Ok b) /\
     verifyRefreshToken padding_kdf (js "ffffffff") h = true) /\
  (forall h,
     verifyRefreshToken padding_kdf (js "ffffffff") h = false
     <-> exists e, argon2_verify padding_kdf h (js "ffffffff") = Throw e).
Proof.
  apply (verifyRefreshToken_accepts_any padding_kdf padding_kdf_length
           (js "0f1e2d3c") (js "ffffffff") (fun _ => 0)).
Defined.

Lemma verifyBackupCode_accepts_any_witness :
  exists h,
    fst (hashBackupCode padding_kdf (js "12345678") (fun _ => 0)) = Ok h /\
    (exists b, argon2_verify padding_kdf h (js "87654321") = Ok b) /\
    verifyBackupCode padding_kdf (js "87654321") h = true.
Proof.
  apply (verifyBackupCode_accepts_any padding_kdf padding_kdf_length
           (js "12345678") (js "87654321") (fun _ => 0)).
Defined.

Lemma verifyRecoveryCodeAgainstArray_first_witness :
  let code := js "WRONG" in
  let hashes := [Malformed "x"; PHC 7 3 4 (repeat 0 16) (repeat 0 32)] in
  let r := verifyRecoveryCodeAgainstArray padding_kdf code hashes in
  ((r = -1 /\ forall h, In h hashes -> exists e, argon2_verify padding_kdf h code = Throw e) \/
   (exists pre h post b,
      hashes = pre ++ h :: post /\ r = Z.of_nat (length pre) /\
      argon2_verify padding_kdf h code = Ok b /\
      forall x, In x pre -> exists e, argon2_verify padding_kdf x code = Throw e)) /\
  (forall other t rest h,
     fst (hashRecoveryCode padding_kdf other t) = Ok h ->
     verifyRecoveryCodeAgainstArray padding_kdf code (h :: rest) = 0) /\
  (forall s rest, verifyRecoveryCodeAgainstArray padding_kdf code (Foreign s :: rest) = 0) /\
  (forall m c p salt hash other t rest h,
     0 <= m < 8 ->
     fst (hashRecoveryCode padding_kdf other t) = Ok h ->
     verifyRecoveryCodeAgainstArray padding_kdf code (PHC m c p salt hash :: h :: rest) = 1).
Proof.
  apply (verifyRecoveryCodeAgainstArray_first padding_kdf padding_kdf_length (js "WRONG")
           [Malformed "x"; PHC 7 3 4 (repeat 0 16) (repeat 0 32)]).
Defined.

(** The test of the repository, run on the stand-in hash: the digests of
    CODE1, CODE2 and CODE3 are searched for CODE2 and for WRONG; the
    answer is 0 both times, where the test expects 1 and -1. *)
Example recovery_array_test :
  let hashes :=
    map (fun c => match fst (hashRecoveryCode padding_kdf (js c) (fun _ => 0)) with
                  | Ok h => h
                  | Throw _ => Malformed ""
                  end) ["CODE1"; "CODE2"; "CODE3"]%string in
  verifyRecoveryCodeAgainstArray padding_kdf (js "CODE2") hashes = 0 /\
  verifyRecoveryCodeAgainstArray padding_kdf (js "WRONG") hashes = 0 /\
  verifyRecoveryCodeAgainstArray padding_kdf (js "CODE2") [] = -1.
Proof. vm_compute. repeat split. Qed.

(** ** encryption.ts: malformed blobs, short tags and the wire format *)

Lemma valid_gcm_tag_length_iff (n : nat) :
  valid_gcm_tag_length n = true <-> In n [4; 8; 12; 13; 14; 15; 16]%nat.
Proof.
  unfold valid_gcm_tag_length.
  rewrite !orb_true_iff, andb_true_iff, !Nat.eqb_eq, !Nat.leb_le. cbn [In]. lia.
Qed.

(** Whether the runtime takes [iv] as the IV of a GCM cipher. *)
Lemma valid_iv_iff (iv : Buffer) :
  ((length iv =? 0) || (GCM_IV_MAX_SIZE <? length iv))%nat = false
  <-> iv <> [] /\ (length iv <= GCM_IV_MAX_SIZE)%nat.
Proof.
  rewrite orb_false_iff, Nat.eqb_neq, Nat.ltb_ge.
  destruct iv as [|b iv]; cbn [length]; split; intros [A B]; split;
    try lia; try discriminate; try contradiction.
Qed.

(** What [decrypt] does under a 32-byte key, by the shape of the blob. *)
Lemma decrypt_cases (e : EncryptedData) (key : Buffer) :
  length key = 32%nat ->
  decrypt e key =
    if ((length (nonce e) =? 0) || (GCM_IV_MAX_SIZE <? length (nonce e)))%nat
    then Throw ERR_CRYPTO_INVALID_IV
    else if valid_gcm_tag_length (length (tag e))
         then if Buffer_eqb (firstn (length (tag e)) (GCM.tag key (nonce e) (ciphertext e)))
                            (tag e)
              then Ok (GCM.keystream_xor key (nonce e) (ciphertext e))
              else Throw decryption_failed
         else Throw ERR_CRYPTO_INVALID_AUTH_TAG.
Proof.
  intro Hk. unfold decrypt, AES_KEY_SIZE. rewrite Hk. cbn [Nat.eqb negb].
  unfold createDecipheriv, createCipheriv. rewrite Hk. cbn [Nat.eqb negb].
  destruct (length (nonce e) =? 0)%nat; [reflexivity|]. cbn [orb].
  destruct (GCM_IV_MAX_SIZE <? length (nonce e))%nat; [reflexivity|]. cbn [result_bind].
  unfold setAuthTag.
  destruct (valid_gcm_tag_length (length (tag e))); [|reflexivity]. cbn [result_bind].
  unfold decipher_run, GCM.open. cbn [decipher_cipher decipher_tag cipher_key cipher_iv].
  now destruct (Buffer_eqb _ _).
Qed.

Lemma firstn_firstn_same {A : Type} (n : nat) (l : list A) :
  (n <= length l)%nat -> firstn (length (firstn n l)) l = firstn n l.
Proof. intro H. rewrite length_firstn, Nat.min_l by assumption. reflexivity. Qed.

(** A tag cut down to its first 4, 8 or 12 to 15 bytes is accepted in
    the place of the full tag: [decrypt] passes whatever tag it is given
    to [setAuthTag], and without a fixed tag length the runtime compares
    as many bytes as the tag has. *)
Theorem decrypt_truncated_tag (k p : Buffer) (t : Entropy) (n : nat) :
  length k = 32%nat -> In n [4; 8; 12; 13; 14; 15; 16]%nat ->
  exists e,
    fst (encrypt p k t) = Ok e /\
    length (firstn n (tag e)) = n /\
    decrypt (mkEncryptedData (ciphertext e) (nonce e) (firstn n (tag e))) k = Ok p.
Proof.
  intros Hk Hn. exists (sealed_with (drawn 12 t) p k).
  split; [now rewrite encrypt_ok|].
  assert (Hle : (n <= 16)%nat) by (cbn [In] in Hn; lia).
  unfold sealed_with, GCM.seal; cbn [fst snd nonce ciphertext tag].
  assert (L : length (firstn n (GCM.tag k (drawn 12 t) (GCM.keystream_xor k (drawn 12 t) p))) = n)
    by (rewrite length_firstn, tag_length; lia).
  split; [exact L|].
  rewrite decrypt_cases by assumption. cbn [nonce ciphertext tag].
  rewrite (proj2 (valid_iv_iff (drawn 12 t)))
    by (split; [apply drawn_nonempty|apply drawn_short]).
  rewrite L.
  apply valid_gcm_tag_length_iff in Hn. rewrite Hn.
  rewrite Buffer_eqb_refl, keystream_xor_involutive. reflexivity.
Qed.

Lemma decrypt_truncated_tag_witness :
  exists e,
    fst (encrypt [104; 105] (repeat 1 32) (fun _ => 9)) = Ok e /\
    length (firstn 4 (tag e)) = 4%nat /\
    decrypt (mkEncryptedData (ciphertext e) (nonce e) (firstn 4 (tag e))) (repeat 1 32)
    = Ok [104; 105].
Proof.
  apply (decrypt_truncated_tag (repeat 1 32) [104; 105] (fun _ => 9) 4); [reflexivity|].
  cbn. tauto.
Defined.

(** On a blob built by hand, [decrypt] can fail with errors of the
    runtime instead of its own two: [createDecipheriv] and [setAuthTag]
    are called before the [try] block.  A nonce that is empty or longer
    than 128 bytes is reported as an invalid IV, whatever the tag; with
    a nonce of 1 to 128 bytes, a tag whose length is none of 4, 8, 12,
    ..., 16 is reported as an invalid authentication tag.  The generic
    decryption error is raised exactly on a blob with a nonce of 1 to
    128 bytes and a tag of a permitted length that is not the tag of the
    ciphertext, cut to that length. *)
Theorem decrypt_malformed_blob (e : EncryptedData) (key : Buffer) :
  length key = 32%nat ->
  (nonce e = [] \/ (128 < length (nonce e))%nat ->
   decrypt e key = Throw ERR_CRYPTO_INVALID_IV) /\
  (nonce e <> [] -> (length (nonce e) <= 128)%nat ->
   ~ In (length (tag e)) [4; 8; 12; 13; 14; 15; 16]%nat ->
   decrypt e key = Throw ERR_CRYPTO_INVALID_AUTH_TAG) /\
  (decrypt e key = Throw decryption_failed <->
   nonce e <> [] /\ (length (nonce e) <= 128)%nat /\
   In (length (tag e)) [4; 8; 12; 13; 14; 15; 16]%nat /\
   firstn (length (tag e)) (GCM.tag key (nonce e) (ciphertext e)) <> tag e).
Proof.
  intro Hk. rewrite decrypt_cases by assumption.
  change 128%nat with GCM_IV_MAX_SIZE.
  destruct ((length (nonce e) =? 0) || (GCM_IV_MAX_SIZE <? length (nonce e)))%nat eqn:V.
  - assert (N : ~ (nonce e <> [] /\ (length (nonce e) <= GCM_IV_MAX_SIZE)%nat)).
    { intro A. apply valid_iv_iff in A. congruence. }
    split; [reflexivity|]. split; [intros; exfalso; apply N; now split|].
    split; [discriminate|]. intros [A [B _]]. exfalso. apply N. now split.
  - apply valid_iv_iff in V as [Vn Vl].
    split; [intros [E|L]; [contradiction|lia]|].
    destruct (valid_gcm_tag_length (length (tag e))) eqn:T.
    + apply valid_gcm_tag_length_iff in T.
      split; [intros _ _ C; contradiction|].
      destruct (Buffer_eqb _ _) eqn:B.
      * apply Buffer_eqb_eq in B. split; [discriminate|]. intros [_ [_ [_ C]]]. contradiction.
      * split; [intros _|reflexivity]. repeat split; try assumption.
        now apply Buffer_eqb_neq.
    + split; [reflexivity|]. split; [discriminate|].
      intros [_ [_ [C _]]]. apply valid_gcm_tag_length_iff in C. congruence.
Qed.

Lemma decrypt_malformed_blob_witness :
  let e := mkEncryptedData [1; 2; 3] (repeat 0 12) [1; 2; 3; 4; 5] in
  let key := repeat 1 32 in
  (nonce e = [] \/ (128 < length (nonce e))%nat ->
   decrypt e key = Throw ERR_CRYPTO_INVALID_IV) /\
  (nonce e <> [] -> (length (nonce e) <= 128)%nat ->
   ~ In (length (tag e)) [4; 8; 12; 13; 14; 15; 16]%nat ->
   decrypt e key = Throw ERR_CRYPTO_INVALID_AUTH_TAG) /\
  (decrypt e key = Throw decryption_failed <->
   nonce e <> [] /\ (length (nonce e) <= 128)%nat /\
   In (length (tag e)) [4; 8; 12; 13; 14; 15; 16]%nat /\
   firstn (length (tag e)) (GCM.tag key (nonce e) (ciphertext e)) <> tag e).
Proof.
  apply (decrypt_malformed_blob (mkEncryptedData [1; 2; 3] (repeat 0 12) [1; 2; 3; 4; 5])
           (repeat 1 32)).
  reflexivity.
Defined.

(** The three malformed shapes, run: an empty nonce, a nonce of 129
    bytes with a tag of 5 bytes, and a nonce of 12 bytes with a tag of 5
    bytes. *)
Example decrypt_malformed_runs :
  decrypt (mkEncryptedData [1; 2; 3] [] (repeat 5 16)) (repeat 1 32)
    = Throw ERR_CRYPTO_INVALID_IV /\
  decrypt (mkEncryptedData [1; 2; 3] (repeat 0 129) [1; 2; 3; 4; 5]) (repeat 1 32)
    = Throw ERR_CRYPTO_INVALID_IV /\
  decrypt (mkEncryptedData [1; 2; 3] (repeat 0 12) [1; 2; 3; 4; 5]) (repeat 1 32)
    = Throw ERR_CRYPTO_INVALID_AUTH_TAG.
Proof. repeat split; vm_compute; reflexivity. Qed.

Lemma decrypt_ok_full_tag (e : EncryptedData) (key p : Buffer) :
  length key = 32%nat -> nonce e <> [] -> (length (nonce e) <= GCM_IV_MAX_SIZE)%nat ->
  length (tag e) = 16%nat ->
  decrypt e key = Ok p -> e = sealed_with (nonce e) p key.
Proof.
  intros Hk Hn Hl Ht H. rewrite decrypt_spec in H by assumption.
  destruct (Buffer_eqb _ _) eqn:B; [|discriminate].
  apply Buffer_eqb_eq in B.
  assert (E : p = GCM.keystream_xor key (nonce e) (ciphertext e)) by congruence.
  unfold sealed_with, GCM.seal; cbn [fst snd].
  rewrite E, keystream_xor_involutive, B. now destruct e.
Qed.

(** Whatever [decrypt] accepts is what [encrypt] builds, and nothing
    else.  [decrypt] returns [p] exactly when the key has 32 bytes, the
    nonce 1 to 128, the ciphertext is the AES-GCM ciphertext of [p]
    under key and nonce, and the tag has one of the permitted lengths 4,
    8, 12, ..., 16 and is the tag of that ciphertext cut to its length.
    A blob with a 16-byte tag that decrypts is the very blob [encrypt]
    returns for that plaintext when it draws that nonce. *)
Theorem decrypt_accepts_only_sealed (e : EncryptedData) (key p : Buffer) :
  (decrypt e key = Ok p <->
   length key = 32%nat /\ nonce e <> [] /\ (length (nonce e) <= 128)%nat /\
   ciphertext e = fst (GCM.seal key (nonce e) p) /\
   In (length (tag e)) [4; 8; 12; 13; 14; 15; 16]%nat /\
   tag e = firstn (length (tag e)) (snd (GCM.seal key (nonce e) p))) /\
  (decrypt e key = Ok p -> length (tag e) = 16%nat -> e = sealed_with (nonce e) p key).
Proof.
  change 128%nat with GCM_IV_MAX_SIZE.
  assert (F : decrypt e key = Ok p ->
              length key = 32%nat /\ nonce e <> [] /\
              (length (nonce e) <= GCM_IV_MAX_SIZE)%nat /\
              ciphertext e = fst (GCM.seal key (nonce e) p) /\
              In (length (tag e)) [4; 8; 12; 13; 14; 15; 16]%nat /\
              tag e = firstn (length (tag e)) (snd (GCM.seal key (nonce e) p))).
  { intro H.
    assert (Hk : length key = 32%nat).
    { destruct (Nat.eq_dec (length key) 32) as [E|N]; [exact E|].
      rewrite decrypt_bad_key in H by assumption. discriminate. }
    rewrite decrypt_cases in H by assumption.
    destruct ((length (nonce e) =? 0) || (GCM_IV_MAX_SIZE <? length (nonce e)))%nat eqn:V;
      [discriminate|].
    apply valid_iv_iff in V as [Vn Vl].
    destruct (valid_gcm_tag_length (length (tag e))) eqn:T; [|discriminate].
    apply valid_gcm_tag_length_iff in T.
    destruct (Buffer_eqb _ _) eqn:B; [|discriminate].
    apply Buffer_eqb_eq in B.
    assert (E : p = GCM.keystream_xor key (nonce e) (ciphertext e)) by congruence.
    assert (Hc : ciphertext e = GCM.keystream_xor key (nonce e) p)
      by (rewrite E; now rewrite keystream_xor_involutive).
    unfold GCM.seal; cbn [fst snd].
    repeat (split; [assumption|]). rewrite <- Hc. now symmetry. }
  split; [split; [exact F|]|].
  - intros [Hk [Vn [Vl [Hc [T Ht]]]]].
    rewrite decrypt_cases by assumption.
    rewrite (proj2 (valid_iv_iff (nonce e))) by now split.
    apply valid_gcm_tag_length_iff in T. rewrite T.
    unfold GCM.seal in Hc, Ht; cbn [fst snd] in Hc, Ht.
    rewrite <- Hc in Ht. rewrite <- Ht, Buffer_eqb_refl.
    rewrite Hc. now rewrite keystream_xor_involutive.
  - intros H Ht. destruct (F H) as [Hk [Vn [Vl _]]].
    now apply decrypt_ok_full_tag.
Qed.

Lemma decrypt_accepts_only_sealed_witness :
  let key := repeat 1 32 in
  let e := sealed_with (repeat 9 12) [104; 105] key in
  length key = 32%nat /\ nonce e <> [] /\ (length (nonce e) <= 128)%nat /\
  ciphertext e = fst (GCM.seal key (nonce e) [104; 105]) /\
  In (length (tag e)) [4; 8; 12; 13; 14; 15; 16]%nat /\
  tag e = firstn (length (tag e)) (snd (GCM.seal key (nonce e) [104; 105])).
Proof.
  apply (proj1 (proj1 (decrypt_accepts_only_sealed
                         (sealed_with (repeat 9 12) [104; 105] (repeat 1 32))
                         (repeat 1 32) [104; 105]))).
  vm_compute. reflexivity.
Defined.

Lemma serialize_deserialized (data : Buffer) (e : EncryptedData) :
  deserializeEncrypted data = Ok e ->
  serializeEncrypted e = data /\
  length (nonce e) = 12%nat /\ length (tag e) = 16%nat /\
  length (ciphertext e) = (length data - 28)%nat /\ (28 <= length data)%nat.
Proof.
  intro H.
  destruct (Nat.lt_ge_cases (length data) 28) as [S|L].
  - rewrite deserializeEncrypted_short in H by assumption. discriminate.
  - rewrite deserializeEncrypted_long in H by assumption.
    assert (E : e = mkEncryptedData (firstn (length data - 28) (skipn 12 data))
                                    (firstn 12 data) (skipn (length data - 16) data))
      by congruence.
    rewrite E. unfold serializeEncrypted; cbn [nonce ciphertext tag].
    repeat split.
    + transitivity (firstn 12 data ++ skipn 12 data); [|apply firstn_skipn]. f_equal.
      transitivity (firstn (length data - 28) (skipn 12 data)
                      ++ skipn (length data - 28) (skipn 12 data)); [|apply firstn_skipn].
      f_equal. rewrite skipn_skipn. f_equal. lia.
    + rewrite length_firstn. lia.
    + rewrite length_skipn. lia.
    + rewrite length_firstn, length_skipn. lia.
    + exact L.
Qed.

(** [deserializeEncrypted] undoes [serializeEncrypted] in the other
    direction too: a buffer of at least 28 bytes is taken apart into a
    12-byte nonce, a 16-byte tag and the bytes between them, and
    serializing these gives the buffer back; so no two buffers
    deserialize to one blob. *)
Theorem deserialize_then_serialize (data : Buffer) :
  (28 <= length data)%nat ->
  exists e,
    deserializeEncrypted data = Ok e /\
    serializeEncrypted e = data /\
    length (nonce e) = 12%nat /\ length (tag e) = 16%nat /\
    length (ciphertext e) = (length data - 28)%nat /\
    (forall data', deserializeEncrypted data' = Ok e -> data' = data).
Proof.
  intro L. rewrite deserializeEncrypted_long by assumption. eexists. split; [reflexivity|].
  destruct (serialize_deserialized data _ (deserializeEncrypted_long data L))
    as [S [Hn [Ht [Hc _]]]].
  repeat split; try assumption.
  intros data' H'. apply serialize_deserialized in H' as [S' _]. congruence.
Qed.

Lemma deserialize_then_serialize_witness :
  exists e,
    deserializeEncrypted (repeat 7 30) = Ok e /\
    serializeEncrypted e = repeat 7 30 /\
    length (nonce e) = 12%nat /\ length (tag e) = 16%nat /\
    length (ciphertext e) = (length (repeat 7 30) - 28)%nat /\
    (forall data', deserializeEncrypted data' = Ok e -> data' = repeat 7 30).
Proof. apply (deserialize_then_serialize (repeat 7 30)). cbn. lia. Defined.

(** Reading a stored buffer and decrypting it under a 32-byte key has
    three outcomes only: the format error for a buffer under 28 bytes;
    the generic decryption error; or a plaintext 28 bytes shorter than
    the buffer, in which case the buffer is, byte for byte, the
    serialized blob [encrypt] builds for that plaintext with the
    buffer's first 12 bytes as nonce.  The runtime's own errors never
    come up on this path. *)
Theorem decrypt_deserialized (data key : Buffer) :
  length key = 32%nat ->
  match deserializeEncrypted data with
  | Throw err => err = invalid_format /\ (length data < 28)%nat
  | Ok e =>
      (28 <= length data)%nat /\
      (decrypt e key = Throw decryption_failed \/
       exists p, decrypt e key = Ok p /\
                 length p = (length data - 28)%nat /\
                 data = serializeEncrypted (sealed_with (firstn 12 data) p key))
  end.
Proof.
  intro Hk. destruct (Nat.lt_ge_cases (length data) 28) as [S|L].
  - rewrite deserializeEncrypted_short by assumption. split; [reflexivity|exact S].
  - destruct (deserializeEncrypted data) as [e|err] eqn:D;
      [|rewrite deserializeEncrypted_long in D by assumption; discriminate].
    pose proof D as D'. rewrite deserializeEncrypted_long in D' by assumption.
    destruct (serialize_deserialized data e D) as [S [Hn [Ht [Hc _]]]].
    split; [exact L|].
    assert (Hne : nonce e <> []) by (intro E; rewrite E in Hn; discriminate).
    assert (Hsh : (length (nonce e) <= GCM_IV_MAX_SIZE)%nat)
      by (rewrite Hn; unfold GCM_IV_MAX_SIZE; lia).
    rewrite decrypt_spec by assumption.
    destruct (Buffer_eqb _ _) eqn:B; [right|now left].
    eexists. split; [reflexivity|].
    unfold GCM.keystream_xor. rewrite gctr_length. split; [exact Hc|].
    assert (A : decrypt e key = Ok (GCM.keystream_xor key (nonce e) (ciphertext e)))
      by (rewrite decrypt_spec by assumption; now rewrite B).
    apply decrypt_ok_full_tag in A; try assumption.
    rewrite <- S at 1. rewrite A at 1.
    assert (E : nonce e = firstn 12 data) by (injection D' as <-; reflexivity).
    rewrite E. reflexivity.
Qed.

Lemma decrypt_deserialized_witness :
  let key := repeat 1 32 in
  let data := serializeEncrypted (sealed_with (repeat 9 12) [104; 105] key) in
  match deserializeEncrypted data with
  | Throw err => err = invalid_format /\ (length data < 28)%nat
  | Ok e =>
      (28 <= length data)%nat /\
      (decrypt e key = Throw decryption_failed \/
       exists p, decrypt e key = Ok p /\
                 length p = (length data - 28)%nat /\
                 data = serializeEncrypted (sealed_with (firstn 12 data) p key))
  end.
Proof.
  apply (decrypt_deserialized
           (serializeEncrypted (sealed_with (repeat 9 12) [104; 105] (repeat 1 32)))
           (repeat 1 32)).
  reflexivity.
Defined.

(** ** keyManager.ts: rotations in a row, and keys of the wrong length *)

Lemma after_wraps_add (n m : nat) (t : Entropy) :
  after_wraps (n + m) t = after_wraps m (after_wraps n t).
Proof. revert t; induction n as [|n IH]; intro t; [reflexivity|]. cbn [Nat.add after_wraps]. apply IH. Qed.

(** Two rotations in a row: what was wrapped under the first key, then
    rotated to a second and from there to a third, unwraps under the
    third to the DEKs it held at the start, in the same order; rotating
    back to the first key is the case where the third key is the first.
    Each rotation draws one nonce per item. *)
Theorem rotateKEK_twice (k1 k2 k3 : Buffer) (ws : list EncryptedData) (deks : list Buffer)
    (t : Entropy) :
  length k2 = 32%nat -> length k3 = 32%nat ->
  Forall2 (fun w d => unwrapDEK w k1 = Ok d) ws deks ->
  exists ws2 t2 ws3 t3,
    rotateKEK k1 k2 ws t = (Ok ws2, t2) /\
    rotateKEK k2 k3 ws2 t2 = (Ok ws3, t3) /\
    length ws3 = length ws /\
    Forall2 (fun w d => unwrapDEK w k3 = Ok d) ws3 deks /\
    t3 = after_wraps (length ws + length ws) t.
Proof.
  intros H2 H3 H. pose proof (Forall2_length_eq _ _ _ H) as L.
  exists (rewrap_all k2 deks t), (after_wraps (length ws) t).
  exists (rewrap_all k3 deks (after_wraps (length ws) t)).
  exists (after_wraps (length (rewrap_all k2 deks t)) (after_wraps (length ws) t)).
  split; [now apply rotateKEK_ok|].
  split; [apply rotateKEK_ok; [assumption|now apply rewrap_all_unwraps]|].
  split; [rewrite rewrap_all_length; now symmetry|].
  split; [now apply rewrap_all_unwraps|].
  rewrite rewrap_all_length, <- L. symmetry. apply after_wraps_add.
Qed.

Lemma rotateKEK_twice_witness :
  let k1 := repeat 1 32 in
  let k2 := repeat 2 32 in
  let ws := [sealed_with (repeat 0 12) (repeat 3 32) k1] in
  let t : Entropy := fun i => Z.of_nat i in
  exists ws2 t2 ws3 t3,
    rotateKEK k1 k2 ws t = (Ok ws2, t2) /\
    rotateKEK k2 k1 ws2 t2 = (Ok ws3, t3) /\
    length ws3 = length ws /\
    Forall2 (fun w d => unwrapDEK w k1 = Ok d) ws3 [repeat 3 32] /\
    t3 = after_wraps (length ws + length ws) t.
Proof.
  apply (rotateKEK_twice (repeat 1 32) (repeat 2 32) (repeat 1 32)
           [sealed_with (repeat 0 12) (repeat 3 32) (repeat 1 32)] [repeat 3 32]
           (fun i => Z.of_nat i)); [reflexivity|reflexivity|].
  constructor; [vm_compute; reflexivity|constructor].
Defined.

(** [rotateKEK] and [generateWrappedDEK] with keys of the wrong length.
    On an empty list [rotateKEK] returns the empty list whatever the keys
    are; on any other list an old key that is not 32 bytes long, or a new
    key that is not once the first item has unwrapped, gives the
    key-length error before anything is drawn from the random source.
    [generateWrappedDEK] under such a key gives the same error, after it
    has drawn the 32 bytes of the DEK, and returns no DEK. *)
Theorem keyManager_key_lengths (oldKEK newKEK : Buffer) (t : Entropy) :
  rotateKEK oldKEK newKEK [] t = (Ok [], t) /\
  (forall w ws, length oldKEK <> 32%nat ->
     rotateKEK oldKEK newKEK (w :: ws) t = (Throw key_length_error, t)) /\
  (forall w ws d, length newKEK <> 32%nat -> unwrapDEK w oldKEK = Ok d ->
     rotateKEK oldKEK newKEK (w :: ws) t = (Throw key_length_error, t)) /\
  (length newKEK <> 32%nat ->
     generateWrappedDEK newKEK t = (Throw key_length_error, advance 32 t)).
Proof.
  split; [reflexivity|]. split; [|split].
  - intros w ws Hk. unfold rotateKEK. apply rotateKEK_loop_throw.
    unfold unwrapDEK. now apply decrypt_bad_key.
  - intros w ws d Hk Hw. unfold rotateKEK. cbn [rotateKEK_loop].
    unfold bind at 1, lift. rewrite Hw. unfold bind, wrapDEK.
    now rewrite encrypt_bad_key.
  - intro Hk. unfold generateWrappedDEK, generateDEK, wrapDEK, bind, randomBytes.
    now rewrite encrypt_bad_key.
Qed.

(** ** keyRotation.ts: failures, and the two ways to re-wrap *)

Lemma rewrap_item_throw (oldKey newKey : Buffer) (item : WrappedItem) (e : exn) (t : Entropy) :
  unwrapDEK (wrappedDEK item) oldKey = Throw e ->
  rewrap_item oldKey newKey item t = (Throw e, t).
Proof. intro H. unfold rewrap_item, bind, lift. now rewrite H. Qed.

Lemma array_map_rewrap_fail (oldKey newKey : Buffer) (good : list WrappedItem)
    (deks : list Buffer) (bad : WrappedItem) (rest : list WrappedItem) (e : exn) :
  length newKey = 32%nat ->
  Forall2 (fun item d => unwrapDEK (wrappedDEK item) oldKey = Ok d) good deks ->
  unwrapDEK (wrappedDEK bad) oldKey = Throw e ->
  forall t,
    array_map (rewrap_item oldKey newKey) (good ++ bad :: rest) t =
    (Throw e, after_wraps (length good) t).
Proof.
  intros Hn H Hbad. induction H as [|item d good deks Hw _ IH]; intro t.
  - cbn [app array_map]. unfold bind at 1. now rewrite (rewrap_item_throw _ _ _ e).
  - cbn [app array_map]. unfold bind at 1. rewrite (rewrap_item_ok _ _ _ d) by assumption.
    unfold bind at 1. rewrite IH. reflexivity.
Qed.

Lemma first_failing_item (oldKey : Buffer) (items : list WrappedItem) :
  Exists (fun item => exists e, unwrapDEK (wrappedDEK item) oldKey = Throw e) items ->
  exists good deks bad rest e,
    items = good ++ bad :: rest /\
    Forall2 (fun item d => unwrapDEK (wrappedDEK item) oldKey = Ok d) good deks /\
    unwrapDEK (wrappedDEK bad) oldKey = Throw e.
Proof.
  induction items as [|w ws IH]; intro H; [inversion H|].
  destruct (unwrapDEK (wrappedDEK w) oldKey) as [d|e] eqn:Hw.
  - inversion H as [? ? [e He]|? ? Hex]; subst; [congruence|].
    destruct (IH Hex) as [good [deks [bad [rest [e [-> [Hg Hb]]]]]]].
    exists (w :: good), (d :: deks), bad, rest, e.
    split; [reflexivity|]. split; [now constructor|exact Hb].
  - exists [], [], w, ws, e. split; [reflexivity|]. split; [constructor|exact Hw].
Qed.

(** When an item does not unwrap under the current KEK,
    [rotateKEKWithoutPassword] returns neither a new KEK nor any
    re-wrapped item: it throws the error of the first such item, the
    items before it having been re-wrapped and dropped. *)
Theorem rotateKEKWithoutPassword_aborts (currentKEK : Buffer) (items : list WrappedItem)
    (t : Entropy) :
  Exists (fun item => exists e, unwrapDEK (wrappedDEK item) currentKEK = Throw e) items ->
  exists good deks bad rest e,
    items = good ++ bad :: rest /\
    Forall2 (fun item d => unwrapDEK (wrappedDEK item) currentKEK = Ok d) good deks /\
    unwrapDEK (wrappedDEK bad) currentKEK = Throw e /\
    rotateKEKWithoutPassword currentKEK items t
    = (Throw e, after_wraps (length good) (advance 32 t)).
Proof.
  intro H. destruct (first_failing_item _ _ H) as [good [deks [bad [rest [e [-> [Hg Hb]]]]]]].
  exists good, deks, bad, rest, e. repeat split; try assumption.
  unfold rotateKEKWithoutPassword, bind at 1, randomBytes. unfold bind at 1.
  rewrite (array_map_rewrap_fail _ _ _ deks _ _ e); [reflexivity|apply drawn_length| |];
    assumption.
Qed.

Lemma rotateKEKWithoutPassword_aborts_witness :
  let k := repeat 1 32 in
  let items := [mkWrappedItem "a"%string (sealed_with (repeat 0 12) (repeat 3 32) k);
                mkWrappedItem "b"%string (mkEncryptedData [] (repeat 0 12) (repeat 0 16))] in
  let t : Entropy := fun _ => 0 in
  exists good deks bad rest e,
    items = good ++ bad :: rest /\
    Forall2 (fun item d => unwrapDEK (wrappedDEK item) k = Ok d) good deks /\
    unwrapDEK (wrappedDEK bad) k = Throw e /\
    rotateKEKWithoutPassword k items t = (Throw e, after_wraps (length good) (advance 32 t)).
Proof.
  apply (rotateKEKWithoutPassword_aborts (repeat 1 32)
           [mkWrappedItem "a"%string (sealed_with (repeat 0 12) (repeat 3 32) (repeat 1 32));
            mkWrappedItem "b"%string (mkEncryptedData [] (repeat 0 12) (repeat 0 16))]
           (fun _ => 0)).
  apply Exists_cons_tl. constructor. exists decryption_failed. vm_compute. reflexivity.
Defined.

Lemma rotateKEK_loop_as_map (oldKEK newKEK : Buffer) (items : list WrappedItem) :
  forall (acc : list EncryptedData) (t : Entropy),
    rotateKEK_loop oldKEK newKEK (map wrappedDEK items) acc t =
    match array_map (rewrap_item oldKEK newKEK) items t with
    | (Ok res, t') => (Ok (acc ++ map wrappedDEK res), t')
    | (Throw e, t') => (Throw e, t')
    end.
Proof.
  induction items as [|item items IH]; intros acc t.
  - cbn. now rewrite app_nil_r.
  - cbn [map rotateKEK_loop array_map]. unfold rewrap_item at 1.
    unfold bind, lift, ret.
    destruct (unwrapDEK (wrappedDEK item) oldKEK) as [dek|e]; [|reflexivity].
    destruct (wrapDEK dek newKEK t) as [[w|e] t1]; [|reflexivity].
    rewrite IH.
    destruct (array_map (rewrap_item oldKEK newKEK) items t1) as [[res|e] t2]; [|reflexivity].
    cbn [map wrappedDEK]. now rewrite <- app_assoc.
Qed.

Lemma array_map_rewrap_ids (oldKEK newKEK : Buffer) (items : list WrappedItem) :
  forall (t t' : Entropy) (res : list WrappedItem),
    array_map (rewrap_item oldKEK newKEK) items t = (Ok res, t') ->
    map id res = map id items.
Proof.
  induction items as [|item items IH]; intros t t' res H.
  - cbn in H. injection H as <- _. reflexivity.
  - cbn [array_map] in H. unfold bind at 1 in H.
    destruct (rewrap_item oldKEK newKEK item t) as [[w|e] t1] eqn:Ew; [|discriminate].
    unfold bind at 1 in H.
    destruct (array_map (rewrap_item oldKEK newKEK) items t1) as [[r|e] t2] eqn:Er;
      [|discriminate].
    unfold ret in H. injection H as <- _. cbn [map]. f_equal.
    + unfold rewrap_item, bind, lift in Ew.
      destruct (unwrapDEK (wrappedDEK item) oldKEK); [|discriminate].
      destruct (wrapDEK _ newKEK t) as [[x|x] ?]; [|discriminate].
      unfold ret in Ew. injection Ew as <- _. reflexivity.
    + now apply (IH t1 t2).
Qed.

(** The two ways of re-wrapping agree.  [rotateKEKWithoutPassword] on a
    list of items is [rotateKEK], from the current KEK to the 32 bytes
    it draws first, on the items' wrapped DEKs: they succeed and fail
    together, with the same error and the same use of the random source,
    and on success every wrapped DEK [rotateKEK] returns sits under the
    id of the item it came from. *)
Theorem rotations_agree (currentKEK : Buffer) (items : list WrappedItem) (t : Entropy) :
  match rotateKEKWithoutPassword currentKEK items t with
  | (Ok (fresh, res), t') =>
      fresh = drawn 32 t /\
      map id res = map id items /\
      rotateKEK currentKEK fresh (map wrappedDEK items) (advance 32 t)
      = (Ok (map wrappedDEK res), t')
  | (Throw e, t') =>
      rotateKEK currentKEK (drawn 32 t) (map wrappedDEK items) (advance 32 t) = (Throw e, t')
  end.
Proof.
  pose proof (rotateKEK_loop_as_map currentKEK (drawn 32 t) items [] (advance 32 t)) as R.
  fold (rotateKEK currentKEK (drawn 32 t) (map wrappedDEK items)) in R.
  unfold rotateKEKWithoutPassword, bind, randomBytes, ret.
  destruct (array_map (rewrap_item currentKEK (drawn 32 t)) items (advance 32 t))
    as [[res|e] t'] eqn:E; [|exact R].
  split; [reflexivity|]. split; [|exact R].
  now apply (array_map_rewrap_ids _ _ _ _ _ _ E).
Qed.

Section PasswordRotation.

Variable argon2id : Z -> Z -> Z -> nat -> Buffer -> Buffer -> Buffer.

Lemma argon2_hash_raw_short (password : JSString) (m c p : Z) (salt : Buffer) :
  (length salt < 8)%nat ->
  argon2_hash_raw argon2id password m c p 32 salt = Throw (Argon2Error "Salt is too short").
Proof.
  intro H. unfold argon2_hash_raw. rewrite validate_inputs_short_salt; [reflexivity|lia|exact H].
Qed.

(** A salt that is supplied is used as it is: one shorter than 8 bytes
    (the empty buffer too, which is not replaced by a fresh salt) makes
    [deriveKEK] fail with the error of the Argon2 binding, and
    [rotateUserKEK] with it, before anything is drawn from the random
    source and before any item is touched. *)
Theorem deriveKEK_short_salt (password newPassword : JSString) (salt : Buffer)
    (items : list WrappedItem) (t : Entropy) :
  (length salt < 8)%nat ->
  deriveKEK argon2id password (Some salt) t = (Throw (Argon2Error "Salt is too short"), t) /\
  rotateUserKEK argon2id password newPassword salt items t
  = (Throw (Argon2Error "Salt is too short"), t).
Proof.
  intro H.
  assert (D : deriveKEK argon2id password (Some salt) t
              = (Throw (Argon2Error "Salt is too short"), t))
    by (rewrite deriveKEK_with_salt, argon2_hash_raw_short by assumption; reflexivity).
  split; [exact D|]. unfold rotateUserKEK, bind. now rewrite D.
Qed.

(** When an item does not unwrap under the KEK of the old password,
    [rotateUserKEK] returns nothing: it throws, after the new salt has
    been drawn; if the new KEK has 32 bytes, what it throws is the error
    of the first such item. *)
Theorem rotateUserKEK_aborts (oldPassword newPassword : JSString) (oldSalt : Buffer)
    (items : list WrappedItem) (t : Entropy) :
  (8 <= length oldSalt)%nat ->
  Exists (fun item => exists e,
            unwrapDEK (wrappedDEK item)
                      (argon2id 65536 3 4 32%nat oldSalt (Buffer_from oldPassword)) = Throw e)
         items ->
  (exists e, fst (rotateUserKEK argon2id oldPassword newPassword oldSalt items t) = Throw e) /\
  (length (argon2id 65536 3 4 32%nat (drawn 16 t) (Buffer_from newPassword)) = 32%nat ->
   exists good deks bad rest e,
     items = good ++ bad :: rest /\
     Forall2 (fun item d =>
                unwrapDEK (wrappedDEK item)
                          (argon2id 65536 3 4 32%nat oldSalt (Buffer_from oldPassword)) = Ok d)
             good deks /\
     unwrapDEK (wrappedDEK bad) (argon2id 65536 3 4 32%nat oldSalt (Buffer_from oldPassword))
     = Throw e /\
     rotateUserKEK argon2id oldPassword newPassword oldSalt items t
     = (Throw e, after_wraps (length good) (advance 16 t))).
Proof.
  intros Hs H.
  set (oldKey := argon2id 65536 3 4 32%nat oldSalt (Buffer_from oldPassword)) in *.
  set (newKey := argon2id 65536 3 4 32%nat (drawn 16 t) (Buffer_from newPassword)).
  assert (R : rotateUserKEK argon2id oldPassword newPassword oldSalt items t =
              match array_map (rewrap_item oldKey newKey) items (advance 16 t) with
              | (Ok res, t') =>
                  (Ok (mkKeyRotationResult (KEKParams.mk newKey (drawn 16 t)) res), t')
              | (Throw e, t') => (Throw e, t')
              end).
  { unfold rotateUserKEK. unfold bind at 1.
    rewrite deriveKEK_with_salt, argon2_hash_raw_ok by assumption.
    unfold bind at 1. rewrite deriveKEK_fresh_salt. cbn [KEKParams.key].
    unfold bind. fold oldKey newKey.
    now destruct (array_map (rewrap_item oldKey newKey) items (advance 16 t)) as [[res|e] t']. }
  destruct (first_failing_item _ _ H) as [good [deks [bad [rest [e [E [Hg Hb]]]]]]].
  split.
  - rewrite R. clear R. subst items. clear H.
    generalize (advance 16 t). induction Hg as [|item d good deks Hw _ IH]; intro t0.
    + cbn [app array_map]. unfold bind at 1. rewrite (rewrap_item_throw _ _ _ e) by assumption.
      now exists e.
    + cbn [app array_map]. unfold bind at 1.
      destruct (rewrap_item oldKey newKey item t0) as [[w|e'] t1]; [|now exists e'].
      unfold bind at 1. destruct (IH t1) as [e' He'].
      destruct (array_map (rewrap_item oldKey newKey) (good ++ bad :: rest) t1)
        as [[res|e''] t2]; cbn [fst] in He'; [discriminate|].
      now exists e''.
  - intro Hn. exists good, deks, bad, rest, e. repeat split; try assumption.
    rewrite R, E. now rewrite (array_map_rewrap_fail _ _ _ deks _ _ e).
Qed.

End PasswordRotation.

Lemma deriveKEK_short_salt_witness :
  deriveKEK padding_kdf (js "pw") (Some []) (fun _ => 0)
  = (Throw (Argon2Error "Salt is too short"), fun _ => 0) /\
  rotateUserKEK padding_kdf (js "pw") (js "new") [] [] (fun _ => 0)
  = (Throw (Argon2Error "Salt is too short"), fun _ => 0).
Proof.
  apply (deriveKEK_short_salt padding_kdf (js "pw") (js "new") [] [] (fun _ => 0)).
  cbn. lia.
Defined.

Lemma rotateUserKEK_aborts_witness :
  let oldKey := padding_kdf 65536 3 4 32 (repeat 9 16) (Buffer_from (js "old password")) in
  let items := [mkWrappedItem "a"%string (mkEncryptedData [] (repeat 0 12) (repeat 0 16))] in
  let t : Entropy := fun i => Z.of_nat i in
  (exists e, fst (rotateUserKEK padding_kdf (js "old password") (js "new password")
                    (repeat 9 16) items t) = Throw e) /\
  (length (padding_kdf 65536 3 4 32%nat (drawn 16 t) (Buffer_from (js "new password")))
   = 32%nat ->
   exists good deks bad rest e,
     items = good ++ bad :: rest /\
     Forall2 (fun item d => unwrapDEK (wrappedDEK item) oldKey = Ok d) good deks /\
     unwrapDEK (wrappedDEK bad) oldKey = Throw e /\
     rotateUserKEK padding_kdf (js "old password") (js "new password") (repeat 9 16) items t
     = (Throw e, after_wraps (length good) (advance 16 t))).
Proof.
  apply (rotateUserKEK_aborts padding_kdf (js "old password") (js "new password")
           (repeat 9 16)
           [mkWrappedItem "a"%string (mkEncryptedData [] (repeat 0 12) (repeat 0 16))]
           (fun i => Z.of_nat i)).
  - cbn. lia.
  - constructor. exists decryption_failed. vm_compute. reflexivity.
Defined.

(** ** sessions.ts: refresh tokens *)

Lemma drawn_bytes (n : nat) (t : Entropy) : Forall is_byte (drawn n t).
Proof.
  unfold drawn. apply Forall_forall. intros x Hx. apply in_map_iff in Hx as [i [<- _]].
  unfold is_byte. apply Z.mod_pos_bound. lia.
Qed.

(** A refresh token is the next 32 bytes of the random source written
    as 64 characters of lower-case hexadecimal text; tokens are equal
    only when those bytes are. *)
Theorem generateRefreshToken_shape (t : Entropy) :
  exists token,
    generateRefreshToken t = (Ok token, advance 32 t) /\
    token = toString_hex (drawn 32 t) /\
    String.length token = 64%nat /\
    Forall is_hex_char (String.list_ascii_of_string token) /\
    (forall t', fst (generateRefreshToken t') = Ok token -> drawn 32 t' = drawn 32 t).
Proof.
  exists (toString_hex (drawn 32 t)). split; [reflexivity|]. split; [reflexivity|].
  split; [now rewrite toString_hex_length, drawn_length|].
  split; [apply toString_hex_chars|].
  intros t' H. unfold generateRefreshToken, bind, randomBytes, ret in H. cbn [fst] in H.
  assert (E : toString_hex (drawn 32 t') = toString_hex (drawn 32 t)) by congruence.
  apply toString_hex_inj in E; [exact E|apply drawn_bytes ..].
Qed.

(** ** Base64 *)

(** RFC 4648, section 10. *)
Example btoa_rfc4648 :
  map btoa [""; "f"; "fo"; "foo"; "foob"; "fooba"; "foobar"]%string
  = [""; "Zg=="; "Zm8="; "Zm9v"; "Zm9vYg=="; "Zm9vYmE="; "Zm9vYmFy"]%string.
Proof. vm_compute. reflexivity. Qed.

(** Padding may be left out and white space is skipped; misplaced
    padding, other characters and a single left-over character are
    refused. *)
Example atob_forgiving :
  map atob ["Zm9vYmE="; "Zm9vYmE"; " Zm9v YmFy"; "Zh=="; "Zg="; "Z"; "Zm9v="; "Zm9v!";
            "Zg==Zg=="]%string
  = [Some "fooba"; Some "fooba"; Some "foobar"; Some "f"; None; None; None; None; None]%string.
Proof. vm_compute. reflexivity. Qed.

Lemma list_ind3 {A : Type} (P : list A -> Prop) :
  P [] -> (forall a, P [a]) -> (forall a b, P [a; b]) ->
  (forall a b c rest, P rest -> P (a :: b :: c :: rest)) ->
  forall l, P l.
Proof.
  intros H0 H1 H2 H3.
  assert (H : forall l, P l /\ (forall a, P (a :: l)) /\ (forall a b, P (a :: b :: l))).
  { induction l as [|x l [IH0 [IH1 IH2]]].
    - repeat split; auto.
    - repeat split; auto. }
  intro l. apply H.
Qed.

Lemma char_code_range (c : ascii) : 0 <= char_code c < 256.
Proof. unfold char_code. pose proof (nat_ascii_bounded c). lia. Qed.

Lemma base64_index_char (i : Z) : 0 <= i < 64 -> base64_index (base64_char i) = Some i.
Proof.
  intro H. rewrite <- (Z2Nat.id i) at 2 by lia.
  assert (Hk : (Z.to_nat i < 64)%nat) by lia.
  unfold base64_char. generalize dependent (Z.to_nat i). clear. intros k Hk.
  do 64 (destruct k as [|k]; [reflexivity|]). lia.
Qed.

Lemma base64_char_plain (i : Z) :
  is_ascii_whitespace (base64_char i) = false /\ Ascii.eqb (base64_char i) "=" = false.
Proof.
  unfold base64_char. generalize (Z.to_nat i). intro k.
  do 64 (destruct k as [|k]; [split; reflexivity|]). split; reflexivity.
Qed.

Lemma length_mod3_step {A : Type} (a b c : A) (rest : list A) :
  (length (a :: b :: c :: rest) mod 3 = length rest mod 3)%nat.
Proof.
  cbn [length]. replace (S (S (S (length rest)))) with (length rest + 1 * 3)%nat by lia.
  apply Nat.Div0.mod_add.
Qed.

Lemma btoa_chars_split (s : list ascii) :
  btoa_chars s = map base64_char (sextets s) ++ padding s.
Proof.
  induction s as [|a|a b|a b c rest IH] using list_ind3; try reflexivity.
  cbn [btoa_chars sextets map app]. rewrite IH. unfold padding.
  now rewrite length_mod3_step.
Qed.

Lemma sextets_range (s : list ascii) : Forall (fun i => 0 <= i < 64) (sextets s).
Proof.
  induction s as [|a|a b|a b c rest IH] using list_ind3; cbn [sextets];
    repeat constructor; try assumption;
    try (pose proof (char_code_range a)); try (pose proof (char_code_range b));
    try (pose proof (char_code_range c));
    try (apply Z.div_pos; lia); try (apply Z.div_lt_upper_bound; lia);
    try (apply Z.mod_pos_bound; lia);
    Z.div_mod_to_equations; lia.
Qed.

Lemma sextets_length (s : list ascii) :
  (length (sextets s) mod 4 <> 1 /\
   (length (sextets s) + length (padding s)) mod 4 = 0)%nat.
Proof.
  induction s as [|a|a b|a b c rest [IH1 IH2]] using list_ind3;
    try (cbn; split; [discriminate|reflexivity]).
  unfold padding in *. rewrite length_mod3_step. cbn [sextets length].
  replace (S (S (S (S (length (sextets rest)))))) with (length (sextets rest) + 1 * 4)%nat by lia.
  rewrite Nat.Div0.mod_add. split; [exact IH1|].
  replace (length (sextets rest) + 1 * 4 + length (repeat "="%char ((3 - length rest mod 3) mod 3)))%nat
    with (length (sextets rest) + length (repeat "="%char ((3 - length rest mod 3) mod 3)) + 1 * 4)%nat
    by lia.
  now rewrite Nat.Div0.mod_add.
Qed.

Lemma padding_cases (s : list ascii) :
  padding s = [] \/ padding s = ["="%char] \/ padding s = ["="%char; "="%char].
Proof.
  unfold padding. pose proof (Nat.mod_upper_bound (length s) 3 ltac:(lia)) as B.
  destruct (length s mod 3)%nat as [|[|[|k]]]; cbn; tauto.
Qed.

Lemma padding_nonempty_sextets (s : list ascii) : padding s <> [] -> sextets s <> [].
Proof.
  induction s as [|a|a b|a b c rest IH] using list_ind3; try (intros; discriminate).
  intros H; contradiction.
Qed.

Lemma strip_padding_body (body pad : list ascii) :
  Forall (fun c => Ascii.eqb c "=" = false) body ->
  pad = [] \/ (body <> [] /\ (pad = ["="%char] \/ pad = ["="%char; "="%char])) ->
  ((length body + length pad) mod 4 = 0)%nat ->
  strip_padding (body ++ pad) = body.
Proof.
  intros Hb Hp Hl. unfold strip_padding. rewrite length_app, Hl. cbn [Nat.eqb].
  rewrite rev_app_distr.
  assert (Hlast : forall c r, rev body = c :: r -> Ascii.eqb c "=" = false).
  { intros c r E. rewrite Forall_forall in Hb. apply Hb. apply in_rev. rewrite E. now left. }
  destruct Hp as [->|[Hne [->| ->]]]; cbn [rev app].
  - rewrite app_nil_r. destruct (rev body) as [|c r] eqn:E; [reflexivity|].
    now rewrite (Hlast c r).
  - cbn [Ascii.eqb Bool.eqb]. destruct (rev body) as [|c r] eqn:E.
    + apply (f_equal (@rev ascii)) in E. rewrite rev_involutive in E. contradiction.
    + rewrite (Hlast c r) by reflexivity. rewrite <- E. apply rev_involutive.
  - cbn [Ascii.eqb Bool.eqb]. rewrite <- (rev_involutive body) at 2. reflexivity.
Qed.

Lemma base64_indices_chars (ix : list Z) :
  Forall (fun i => 0 <= i < 64) ix -> base64_indices (map base64_char ix) = Some ix.
Proof.
  induction 1 as [|i ix Hi _ IH]; [reflexivity|].
  cbn [map base64_indices]. now rewrite base64_index_char, IH.
Qed.

Lemma base64_bytes_sextets (s : list ascii) : base64_bytes (sextets s) = map char_code s.
Proof.
  induction s as [|a|a b|a b c rest IH] using list_ind3; [reflexivity| | |].
  - cbn [sextets base64_bytes map]. pose proof (char_code_range a). f_equal.
    Z.div_mod_to_equations. lia.
  - cbn [sextets base64_bytes map].
    pose proof (char_code_range a). pose proof (char_code_range b).
    f_equal; [|f_equal]; Z.div_mod_to_equations; lia.
  - cbn [sextets base64_bytes map]. rewrite IH.
    pose proof (char_code_range a). pose proof (char_code_range b).
    pose proof (char_code_range c).
    f_equal; [|f_equal; [|f_equal]]; Z.div_mod_to_equations; lia.
Qed.

Lemma fromCharCode_codes (l : list ascii) :
  String_fromCharCode (map char_code l) = String.string_of_list_ascii l.
Proof.
  unfold String_fromCharCode. f_equal. rewrite map_map.
  rewrite <- (map_id l) at 2. apply map_ext. intro c. unfold char_code.
  rewrite Nat2Z.id. apply ascii_nat_embedding.
Qed.

Lemma filter_all {A : Type} (f : A -> bool) (l : list A) :
  Forall (fun x => f x = true) l -> filter f l = l.
Proof. induction 1 as [|x l Hx _ IH]; [reflexivity|]. cbn. now rewrite Hx, IH. Qed.

Lemma btoa_chars_plain (s : list ascii) :
  Forall (fun c => negb (is_ascii_whitespace c) = true) (btoa_chars s).
Proof.
  rewrite btoa_chars_split. apply Forall_app. split.
  - apply Forall_forall. intros c Hc. apply in_map_iff in Hc as [i [<- _]].
    now rewrite (proj1 (base64_char_plain i)).
  - unfold padding. apply Forall_forall. intros c Hc. apply repeat_spec in Hc. now subst.
Qed.

(** Decoding what [btoa] encoded gives the string back. *)
Lemma atob_btoa (s : string) : atob (btoa s) = Some s.
Proof.
  unfold atob, btoa. cbv zeta. rewrite String.list_ascii_of_string_of_list_ascii.
  set (l := String.list_ascii_of_string s).
  rewrite filter_all by apply btoa_chars_plain.
  rewrite btoa_chars_split.
  destruct (sextets_length l) as [L1 L2].
  rewrite strip_padding_body.
  - rewrite length_map.
    destruct (Nat.eqb_spec (length (sextets l) mod 4) 1); [contradiction|].
    rewrite base64_indices_chars by apply sextets_range.
    rewrite base64_bytes_sextets, fromCharCode_codes. unfold l.
    now rewrite String.string_of_list_ascii_of_string.
  - apply Forall_forall. intros c Hc. apply in_map_iff in Hc as [i [<- _]].
    apply base64_char_plain.
  - destruct (padding_cases l) as [E|E]; [now left|right]. split; [|exact E].
    intro N. apply map_eq_nil in N. revert N. apply padding_nonempty_sextets.
    destruct E as [E|E]; rewrite E; discriminate.
  - now rewrite length_map.
Qed.

(** ** The wire format of the frontend *)

Lemma Uint8Array_from_fromCharCode (bytes : Buffer) :
  Forall is_byte bytes -> Uint8Array_from (String_fromCharCode bytes) = bytes.
Proof.
  intro H. unfold Uint8Array_from, String_fromCharCode.
  rewrite String.list_ascii_of_string_of_list_ascii, map_map.
  rewrite <- (map_id bytes) at 2. apply map_ext_in. intros b Hb.
  rewrite Forall_forall in H. specialize (H b Hb). unfold is_byte in H.
  unfold char_code. rewrite nat_ascii_embedding by lia. lia.
Qed.

Lemma slice_nonce (data : Buffer) : slice data 0 (Some 12) = firstn 12 data.
Proof.
  unfold slice, clamp_index. cbv zeta. cbn [Z.ltb Z.compare].
  replace (Z.min 0 (Z.of_nat (length data))) with 0 by lia.
  cbn [Z.to_nat skipn]. rewrite Z.sub_0_r.
  destruct (Nat.le_gt_cases 12 (length data)).
  - rewrite Z.min_l by lia. reflexivity.
  - rewrite Z.min_r by lia. rewrite Nat2Z.id. rewrite !firstn_all2 by lia. reflexivity.
Qed.

Lemma slice_tag (data : Buffer) : slice data (-16) None = skipn (length data - 16) data.
Proof.
  unfold slice, clamp_index. cbv zeta. cbn [Z.ltb Z.compare].
  replace (Z.to_nat (Z.max (Z.of_nat (length data) + -16) 0)) with (length data - 16)%nat by lia.
  apply firstn_all2. rewrite length_skipn. lia.
Qed.

Lemma slice_ciphertext (data : Buffer) :
  slice data 12 (Some (-16)) = firstn (length data - 28) (skipn 12 data).
Proof.
  unfold slice, clamp_index. cbv zeta. cbn [Z.ltb Z.compare].
  destruct (Nat.lt_ge_cases (length data) 28) as [S|L].
  - replace (Z.to_nat (Z.max (Z.of_nat (length data) + -16) 0 - Z.min 12 (Z.of_nat (length data))))
      with 0%nat by lia.
    replace (length data - 28)%nat with 0%nat by lia. reflexivity.
  - rewrite Z.min_l, Z.max_l by lia. f_equal. lia.
Qed.

Lemma frontend_deserialize_payload (payload : Buffer) :
  Forall is_byte payload ->
  VaultCrypto.deserializeEncrypted (btoa (String_fromCharCode payload)) =
  Some (mkEncryptedData (firstn (length payload - 28) (skipn 12 payload))
                        (firstn 12 payload)
                        (skipn (length payload - 16) payload)).
Proof.
  intro H. unfold VaultCrypto.deserializeEncrypted. rewrite atob_btoa. cbv zeta.
  rewrite Uint8Array_from_fromCharCode by assumption.
  now rewrite slice_nonce, slice_tag, slice_ciphertext.
Qed.

(** The frontend's [serializeEncrypted] passes every byte of the blob as
    an argument of one call.  While the 28 + n bytes of a blob with a
    12-byte nonce, n bytes of ciphertext and a 16-byte tag are within the
    number of arguments the engine passes, the result is the base64 text
    of what the backend's [serializeEncrypted] returns, and the
    frontend's [deserializeEncrypted] gives the blob back; beyond that
    number the call throws a [RangeError] and nothing is serialized. *)
Theorem frontend_wire_roundtrip (max_arguments : nat) (e : EncryptedData) :
  Forall is_byte (nonce e) -> Forall is_byte (ciphertext e) -> Forall is_byte (tag e) ->
  length (nonce e) = 12%nat -> length (tag e) = 16%nat ->
  ((28 + length (ciphertext e) <= max_arguments)%nat ->
   VaultCrypto.serializeEncrypted max_arguments e
   = Ok (btoa (String_fromCharCode (serializeEncrypted e))) /\
   VaultCrypto.deserializeEncrypted (btoa (String_fromCharCode (serializeEncrypted e)))
   = Some e) /\
  ((max_arguments < 28 + length (ciphertext e))%nat ->
   VaultCrypto.serializeEncrypted max_arguments e = Throw RangeError).
Proof.
  intros Bn Bc Bt Hn Ht.
  assert (L : length (nonce e ++ ciphertext e ++ tag e) = (28 + length (ciphertext e))%nat)
    by (rewrite !length_app; lia).
  unfold VaultCrypto.serializeEncrypted, VaultCrypto.String_fromCharCode_spread. cbv zeta.
  rewrite L. split; intro H.
  - destruct (Nat.ltb_spec max_arguments (28 + length (ciphertext e))); [lia|].
    cbn [result_bind]. split; [reflexivity|].
    unfold serializeEncrypted.
    rewrite frontend_deserialize_payload
      by (apply Forall_app; split; [assumption|apply Forall_app; split; assumption]).
    pose proof (deserialize_serialize e Hn Ht) as D.
    rewrite deserializeEncrypted_long in D
      by (rewrite serializeEncrypted_length; lia).
    unfold serializeEncrypted in D. congruence.
  - destruct (Nat.ltb_spec max_arguments (28 + length (ciphertext e))); [reflexivity|lia].
Qed.

Lemma frontend_wire_roundtrip_witness :
  let e := mkEncryptedData [1; 2; 3] (repeat 9 12) (repeat 5 16) in
  ((28 + length (ciphertext e) <= 100)%nat ->
   VaultCrypto.serializeEncrypted 100 e
   = Ok (btoa (String_fromCharCode (serializeEncrypted e))) /\
   VaultCrypto.deserializeEncrypted (btoa (String_fromCharCode (serializeEncrypted e)))
   = Some e) /\
  ((100 < 28 + length (ciphertext e))%nat ->
   VaultCrypto.serializeEncrypted 100 e = Throw RangeError).
Proof.
  apply (frontend_wire_roundtrip 100 (mkEncryptedData [1; 2; 3] (repeat 9 12) (repeat 5 16)));
    try reflexivity; cbn [nonce ciphertext tag repeat];
    repeat constructor; unfold is_byte; lia.
Defined.

(** Run with room for 100 arguments: a blob of 31 bytes is serialized, a
    blob of 128 bytes is not. *)
Example frontend_serialize_runs :
  VaultCrypto.serializeEncrypted 100 (mkEncryptedData [1; 2; 3] (repeat 9 12) (repeat 5 16))
  = Ok "CQkJCQkJCQkJCQkJAQIDBQUFBQUFBQUFBQUFBQUFBQ=="%string /\
  VaultCrypto.serializeEncrypted 100
    (mkEncryptedData (repeat 1 100) (repeat 9 12) (repeat 5 16))
  = Throw RangeError.
Proof. split; vm_compute; reflexivity. Qed.

(** The frontend's [deserializeEncrypted] has no length check.  On the
    base64 text of any payload it succeeds, with the first 12 bytes as
    nonce, the last 16 as tag and what lies between as ciphertext: from
    28 bytes on this is the blob the backend's [deserializeEncrypted]
    returns for the payload; under 28 bytes, where the backend throws the
    format error, the ciphertext is empty and nonce and tag are short or
    share bytes. *)
Theorem frontend_deserialize_unguarded (payload : Buffer) :
  Forall is_byte payload ->
  exists fe,
    VaultCrypto.deserializeEncrypted (btoa (String_fromCharCode payload)) = Some fe /\
    nonce fe = firstn 12 payload /\
    tag fe = skipn (length payload - 16) payload /\
    ciphertext fe = firstn (length payload - 28) (skipn 12 payload) /\
    ((28 <= length payload)%nat -> deserializeEncrypted payload = Ok fe) /\
    ((length payload < 28)%nat ->
     deserializeEncrypted payload = Throw invalid_format /\
     ciphertext fe = [] /\
     (length (nonce fe) + length (tag fe) > length payload \/ length (nonce fe) < 12
      \/ length (tag fe) < 16)%nat).
Proof.
  intro H. eexists. split; [now apply frontend_deserialize_payload|].
  cbn [nonce tag ciphertext]. repeat split.
  - intro L. now apply deserializeEncrypted_long.
  - now apply deserializeEncrypted_short.
  - replace (length payload - 28)%nat with 0%nat by lia. reflexivity.
  - rewrite length_firstn, length_skipn. lia.
Qed.

Lemma frontend_deserialize_unguarded_witness :
  exists fe,
    VaultCrypto.deserializeEncrypted (btoa (String_fromCharCode (repeat 7 20))) = Some fe /\
    nonce fe = firstn 12 (repeat 7 20) /\
    tag fe = skipn (length (repeat 7 20) - 16) (repeat 7 20) /\
    ciphertext fe = firstn (length (repeat 7 20) - 28) (skipn 12 (repeat 7 20)) /\
    ((28 <= length (repeat 7 20))%nat -> deserializeEncrypted (repeat 7 20) = Ok fe) /\
    ((length (repeat 7 20) < 28)%nat ->
     deserializeEncrypted (repeat 7 20) = Throw invalid_format /\
     ciphertext fe = [] /\
     (length (nonce fe) + length (tag fe) > length (repeat 7 20) \/ length (nonce fe) < 12
      \/ length (tag fe) < 16)%nat).
Proof.
  apply (frontend_deserialize_unguarded (repeat 7 20)).
  cbn [repeat]. repeat constructor; unfold is_byte; lia.
Defined.
